(** * samples_validator.utils: the two path-keyed nested dictionaries

    A shallow embedding of [samples_validator/utils.py]:
    [TestExecutionResultMap] (results of executed samples, looked up by
    resource path) and [CodeSamplesTree] (code samples, listed in an order
    that respects parent/child resources).

    Both classes keep one nested Python [dict].  The dictionaries are
    insertion ordered, heterogeneous (string keys lead to nested
    dictionaries, [HttpMethod] keys lead to samples or results) and are
    mutated in place; every dictionary object is referenced from exactly one
    slot of its parent, so the store is a tree and in-place mutation is
    modelled by rebuilding the path from the root. *)

From Stdlib Require Import String Ascii List Bool Arith Lia.
Import ListNotations.
Open Scope string_scope.
Open Scope list_scope.

Set Implicit Arguments.

(** ** Strings: [str.split('/')] and ['/'.join(...)] *)

Module Str.

(** [s.split(sep)] for a one-character separator: never the empty list,
    [''.split('/') = ['']]. *)
Fixpoint split (sep : ascii) (s : string) : list string :=
  match s with
  | EmptyString => [EmptyString]
  | String c rest =>
      if Ascii.eqb c sep then EmptyString :: split sep rest
      else match split sep rest with
           | part :: parts => String c part :: parts
           | [] => [String c EmptyString]
           end
  end.

(** ['/'.join(parts)] *)
Definition join (sep : string) (parts : list string) : string :=
  String.concat sep parts.

(** [sep not in s] *)
Fixpoint free_of (sep : ascii) (s : string) : bool :=
  match s with
  | EmptyString => true
  | String c rest => negb (Ascii.eqb c sep) && free_of sep rest
  end.

(** [s.startswith(p)] *)
Fixpoint startswith (s p : string) {struct p} : bool :=
  match p with
  | EmptyString => true
  | String c p' =>
      match s with
      | EmptyString => false
      | String d s' => Ascii.eqb c d && startswith s' p'
      end
  end.

End Str.

Definition slash : ascii := "/"%char.

(** The three locals computed at the top of each recursive function. *)
Definition path_parts (path : string) : list string := Str.split slash path.
Definition current_path (path : string) : string := hd "" (path_parts path).
Definition further_path (path : string) : string :=
  Str.join "/" (tl (path_parts path)).

(** ** The value objects of [samples_validator.base] *)

(** Modelled from the spec: [HttpMethod] is declared in
    [samples_validator.base]; the spec gives it as the closed enumeration
    {POST, GET, PUT, DELETE, ...}.  The members this file names are [post],
    [get], [put] and [delete]; [other] stands for the remaining ones. *)
Module HttpMethod.
Inductive t : Type :=
| post | get | put | delete
| other (label : string).

Definition eqb (a b : t) : bool :=
  match a, b with
  | post, post | get, get | put, put | delete, delete => true
  | other x, other y => String.eqb x y
  | _, _ => false
  end.

(** The methods the sorting traversal looks at. *)
Definition ordered (m : t) : bool :=
  match m with other _ => false | _ => true end.
End HttpMethod.

(** Modelled from the spec: [Language] is declared in
    [samples_validator.base]; this file only reads the [value] of a member,
    a string. *)
Record Language : Type := mkLanguage { value : string }.

(** Modelled from the spec: [CodeSample] is declared in
    [samples_validator.base]; this file reads [lang], [name] and
    [http_method].  [source] stands for the remaining (rendering) fields. *)
Record CodeSample : Type := mkCodeSample {
  lang : Language;
  name : string;
  http_method : HttpMethod.t;
  source : string
}.

(** A JSON object as far as this file is concerned: something falsy when
    empty. *)
Definition json := list (string * string).

(** Modelled from the spec: [ApiTestResult] is declared in
    [samples_validator.base]; this file reads [sample] and [json_body].
    [status_code] stands for the remaining fields. *)
Record ApiTestResult : Type := mkApiTestResult {
  sample : CodeSample;
  json_body : option json;
  status_code : nat
}.

(** ** Python objects held by the nested dictionaries *)

(** Keys are strings (path segments and ['methods']) and members of
    [HttpMethod]; a member of the enumeration is never equal to a string. *)
Inductive key : Type :=
| KStr (s : string)
| KMethod (m : HttpMethod.t).

Definition key_eqb (a b : key) : bool :=
  match a, b with
  | KStr x, KStr y => String.eqb x y
  | KMethod x, KMethod y => HttpMethod.eqb x y
  | _, _ => false
  end.

(** [{}] / [dict()] versus [defaultdict(dict)]: they differ in
    [__getitem__] on a missing key. *)
Inductive dict_kind : Type := PlainDict | DefaultDict.

Inductive exn : Type := KeyError | TypeError | AttributeError.

(** How a call that mutates its argument ends.  [FuelExhausted] is the
    [RecursionError] of the interpreter: the call needed one more stack
    frame than it had left. *)
Inductive completion : Type :=
| Returned
| Raised (e : exn)
| FuelExhausted.

(** How a call that only reads ends. *)
Inductive result (A : Type) : Type :=
| Ok (a : A)
| Raise (e : exn)
| NoFuel.
Arguments Ok {A} a.
Arguments Raise {A} e.
Arguments NoFuel {A}.

(** The key under which every node keeps its per-method payloads. *)
Definition methods_key : key := KStr "methods".

Section Objects.

(** The payload class: [CodeSample] in the tree, [ApiTestResult] in the
    result map. *)
Variable P : Type.

(** A dictionary is its items in insertion order. *)
#[local] Unset Elimination Schemes.
Inductive obj : Type :=
| Dict (kind : dict_kind) (items : list (key * obj))
| Payload (p : P).
#[local] Set Elimination Schemes.

(** [d.get(k)] *)
Fixpoint dict_get (items : list (key * obj)) (k : key) : option obj :=
  match items with
  | [] => None
  | (k', v) :: rest => if key_eqb k' k then Some v else dict_get rest k
  end.

(** [d[k] = v]: an existing key keeps its position, a new one goes last. *)
Fixpoint dict_set (items : list (key * obj)) (k : key) (v : obj)
  : list (key * obj) :=
  match items with
  | [] => [(k, v)]
  | (k', v') :: rest =>
      if key_eqb k' k then (k', v) :: rest
      else (k', v') :: dict_set rest k v
  end.

(** Truth value of the result of a [.get]: [None] and empty dictionaries
    are falsy. *)
Definition truthy (o : option obj) : bool :=
  match o with
  | None => false
  | Some (Dict _ []) => false
  | Some _ => true
  end.

(** The empty [defaultdict(dict)] of lines 53 and 142. *)
Definition fresh_node : obj := Dict DefaultDict [].

(** [node['methods'][http_method] = payload] (lines 57 and 145).
    [node['methods']] on a [defaultdict(dict)] without that key first
    stores a new [{}] there; on a plain [dict] it raises [KeyError]. *)
Definition store_method (node : obj) (http_method : HttpMethod.t)
    (payload : P) : obj * completion :=
  match node with
  | Payload _ => (node, Raised TypeError)
  | Dict kind items =>
      match dict_get items methods_key with
      | Some (Dict mkind mitems) =>
          (Dict kind (dict_set items methods_key
             (Dict mkind (dict_set mitems (KMethod http_method)
                            (Payload payload)))),
           Returned)
      | Some (Payload _) => (node, Raised TypeError)
      | None =>
          match kind with
          | DefaultDict =>
              (Dict kind (dict_set items methods_key
                 (Dict PlainDict [(KMethod http_method, Payload payload)])),
               Returned)
          | PlainDict => (node, Raised KeyError)
          end
      end
  end.

(** Lines 52-53 and 141-142:
    [if not current_dict.get(current_path):
         current_dict[current_path] = defaultdict(dict)] *)
Definition ensure_node (items : list (key * obj)) (k : key)
  : list (key * obj) :=
  if truthy (dict_get items k) then items else dict_set items k fresh_node.

(** The common body of [_put_test_result] (lines 32-62) and
    [_put_code_sample] (lines 121-150), which differ only in the payload
    stored.  The returned object is [current_dict] after the call: the
    dictionaries are mutated in place, so it is the state also when the
    call raises.  After lines 52-53 the key [current_path] is present, so
    the [KeyError] of [current_dict[current_path]] is never reached.  One
    unit of fuel is one call of the function that the interpreter still
    allows: with none left the call ends with [FuelExhausted] (Python's
    [RecursionError]), and the dictionaries created by the calls above it
    stay in place. *)
Fixpoint nested_put (fuel : nat) (current_dict : obj) (path : string)
    (http_method : HttpMethod.t) (payload : P) : obj * completion :=
  match fuel with
  | O => (current_dict, FuelExhausted)
  | S fuel' =>
      match current_dict with
      | Payload _ => (current_dict, Raised AttributeError)
      | Dict kind items =>
          let items := ensure_node items (KStr (current_path path)) in
          match dict_get items (KStr (current_path path)) with
          | None => (Dict kind items, Raised KeyError)
          | Some child =>
              let (child', c) :=
                if String.eqb (further_path path) "" then
                  store_method child http_method payload
                else
                  nested_put fuel' child (further_path path)
                    http_method payload in
              (Dict kind (dict_set items (KStr (current_path path)) child'), c)
          end
      end
  end.

(** Frames needed for [path]: one per part. *)
Definition frames (path : string) : nat := List.length (path_parts path).


(** *** The keys a call goes through *)

(** The successive values of [current_path] along the recursion on
    [further_path]: the parts of the path, except that the recursion stops
    before a single trailing empty part (['a/'] is stored where ['a'] is). *)
Fixpoint effective (parts : list string) : list string :=
  match parts with
  | [] => []
  | p :: rest =>
      if String.eqb (Str.join "/" rest) "" then [p] else p :: effective rest
  end.

Definition segments (path : string) : list string :=
  effective (path_parts path).

(** [nested_put] with the path already cut into [segments]: the recursion
    is on the list, and the payload is stored when no segment is left. *)
Fixpoint put_segs (segs : list string) (current_dict : obj)
    (http_method : HttpMethod.t) (payload : P) : obj * completion :=
  match segs with
  | [] => store_method current_dict http_method payload
  | seg :: rest =>
      match current_dict with
      | Payload _ => (current_dict, Raised AttributeError)
      | Dict kind items =>
          let items := ensure_node items (KStr seg) in
          match dict_get items (KStr seg) with
          | None => (Dict kind items, Raised KeyError)
          | Some child =>
              let (child', c) := put_segs rest child http_method payload in
              (Dict kind (dict_set items (KStr seg) child'), c)
          end
      end
  end.

(** What [nested_put] does when the frames run out after the calls for
    [segs]: lines 52-53 and 141-142 have run for each of them, nothing is
    stored. *)
Fixpoint ensure_segs (segs : list string) (current_dict : obj)
  : obj * completion :=
  match segs with
  | [] => (current_dict, FuelExhausted)
  | seg :: rest =>
      match current_dict with
      | Payload _ => (current_dict, Raised AttributeError)
      | Dict kind items =>
          let items := ensure_node items (KStr seg) in
          match dict_get items (KStr seg) with
          | None => (Dict kind items, Raised KeyError)
          | Some child =>
              let (child', c) := ensure_segs rest child in
              (Dict kind (dict_set items (KStr seg) child'), c)
          end
      end
  end.

(** A location is the list of keys from a dictionary down to an object. *)
Fixpoint lookup (o : obj) (loc : list key) : option obj :=
  match loc with
  | [] => Some o
  | k :: loc' =>
      match o with
      | Dict _ items =>
          match dict_get items k with
          | Some child => lookup child loc'
          | None => None
          end
      | Payload _ => None
      end
  end.

(** Where the payload for ([segs], [m]) is kept:
    [d[seg1]...[segn]['methods'][m]]. *)
Definition slot (segs : list string) (m : HttpMethod.t) : list key :=
  map KStr segs ++ [methods_key; KMethod m].

(** *** Shape of the dictionaries the two classes build *)

Fixpoint uniqueb (ks : list key) : bool :=
  match ks with
  | [] => true
  | k :: rest => negb (existsb (key_eqb k) rest) && uniqueb rest
  end.

Definition is_payload (o : obj) : bool :=
  match o with Payload _ => true | Dict _ _ => false end.

Definition is_defaultdict (o : obj) : bool :=
  match o with Dict DefaultDict _ => true | _ => false end.

(** Keys are unique; a string key leads to a dictionary, which is a
    [defaultdict] unless the key is ['methods']; an [HttpMethod] key leads
    to a payload and occurs only in a dictionary kept under ['methods']. *)
Fixpoint wfb (under_methods : bool) (o : obj) : bool :=
  match o with
  | Payload _ => false
  | Dict _ items =>
      uniqueb (map fst items) &&
      forallb (fun kv =>
        match fst kv with
        | KStr s =>
            wfb (String.eqb s "methods") (snd kv) &&
            (String.eqb s "methods" || is_defaultdict (snd kv))
        | KMethod _ => under_methods && is_payload (snd kv)
        end) items
  end.

Definition entry_ok (under_methods : bool) (kv : key * obj) : bool :=
  match fst kv with
  | KStr s =>
      wfb (String.eqb s "methods") (snd kv) &&
      (String.eqb s "methods" || is_defaultdict (snd kv))
  | KMethod _ => under_methods && is_payload (snd kv)
  end.

Definition wf (o : obj) : Prop := wfb false o = true.

End Objects.

Arguments Payload {P} p.
Arguments Dict {P} kind items.
Arguments fresh_node {P}.

(** ** A store of payloads filed under their own path and method *)

Section Store.

Variable P : Type.
(** The path a payload is filed under, and its method. *)
Variable path_of : P -> string.
Variable method_of : P -> HttpMethod.t.

(** The public [put] of both classes: the recursive function applied to
    the root dictionary, with a frame left for every part of the path. *)
Definition put_payload (root : obj P) (payload : P) : obj P * completion :=
  nested_put (frames (path_of payload)) root (path_of payload)
    (method_of payload) payload.

(** The states an instance goes through: [{}], then any calls of [put]
    (a call that raises leaves the dictionary as it is at that point). *)
Inductive reachable : obj P -> Prop :=
| reachable_init : reachable (Dict PlainDict [])
| reachable_put : forall root payload,
    reachable root -> reachable (fst (put_payload root payload)).

(** [put] called when the interpreter allows [frames_left] more nested
    calls of the recursive function.  [put_payload] is this call with
    frames for the whole path. *)
Definition put_payload_within (frames_left : nat) (root : obj P)
    (payload : P) : obj P * completion :=
  nested_put frames_left root (path_of payload) (method_of payload) payload.

(** The states an instance goes through when each call of [put] has any
    number of frames left: the calls that run out of frames leave what
    they created. *)
Inductive reachable_within : obj P -> Prop :=
| reachable_within_init : reachable_within (Dict PlainDict [])
| reachable_within_put : forall frames_left root payload,
    reachable_within root ->
    reachable_within (fst (put_payload_within frames_left root payload)).

(** [payload] is what the store currently holds for its path and method. *)
Definition stored (root : obj P) (payload : P) : Prop :=
  lookup root (slot (segments (path_of payload)) (method_of payload))
  = Some (Payload payload).

(** Every payload in the store is in the slot of its own path and method. *)
Definition located (root : obj P) : Prop :=
  forall loc payload,
    lookup root loc = Some (Payload payload) ->
    loc = slot (segments (path_of payload)) (method_of payload).

(** Successive calls of [put]. *)
Definition put_all (root : obj P) (payloads : list P) : obj P :=
  fold_left (fun root payload => fst (put_payload root payload)) payloads root.

(** All of the successive calls return. *)
Fixpoint all_return (root : obj P) (payloads : list P) : Prop :=
  match payloads with
  | [] => True
  | payload :: rest =>
      snd (put_payload root payload) = Returned /\
      all_return (fst (put_payload root payload)) rest
  end.

End Store.

(** ** class TestExecutionResultMap *)

Module TestExecutionResultMap.

(** An instance is its [_map] attribute. *)
Definition t : Type := obj ApiTestResult.

(** [__init__] *)
Definition init : t := Dict PlainDict [].

Definition path_of (test_result : ApiTestResult) : string :=
  name (sample test_result).
Definition method_of (test_result : ApiTestResult) : HttpMethod.t :=
  http_method (sample test_result).

(** Lines 32-62. *)
Definition _put_test_result (fuel : nat) (current_dict : t)
    (test_result : ApiTestResult) (path : string) : t * completion :=
  nested_put fuel current_dict path
    (http_method (sample test_result)) test_result.

(** Lines 16-19, called with a frame left for every part of the path;
    [put_within] below is the call with a given number of frames. *)
Definition put (self : t) (test_result : ApiTestResult) : t * completion :=
  _put_test_result (frames (name (sample test_result))) self test_result
    (name (sample test_result)).

(** Lines 16-19, called with [frames_left] frames left for
    [_put_test_result]. *)
Definition put_within (frames_left : nat) (self : t)
    (test_result : ApiTestResult) : t * completion :=
  _put_test_result frames_left self test_result (name (sample test_result)).

(** Lines 64-99.  [sample] is passed along and never read. *)
Fixpoint _get_parent_test_result (fuel : nat) (current_dict : t)
    (sample : CodeSample) (path : string) (current_parent : option t)
  : result (option t) :=
  match fuel with
  | O => NoFuel
  | S fuel' =>
      match current_dict with
      | Payload _ => Raise AttributeError
      | Dict _ items =>
          let current_methods :=
            match dict_get items methods_key with
            | Some o => o
            | None => Dict PlainDict []
            end in
          match current_methods with
          | Payload _ => Raise AttributeError
          | Dict _ methods =>
              let current_parent :=
                match dict_get methods (KMethod HttpMethod.post) with
                | Some o => Some o
                | None => current_parent
                end in
              let next_dict := dict_get items (KStr (current_path path)) in
              if negb (truthy next_dict) then Ok current_parent
              else if String.eqb (further_path path) "" then
                Ok current_parent
              else
                match next_dict with
                | Some next =>
                    _get_parent_test_result fuel' next sample
                      (further_path path) current_parent
                | None => Ok current_parent
                end
          end
      end
  end.

(** Lines 21-24. *)
Definition get_parent_result (self : t) (sample : CodeSample)
  : result (option t) :=
  _get_parent_test_result (frames (name sample)) self sample
    (name sample) None.

(** [body or {}] *)
Definition or_empty (body : option json) : json :=
  match body with
  | Some (entry :: entries) => entry :: entries
  | _ => []
  end.

(** Lines 26-30. *)
Definition get_parent_body (self : t) (sample : CodeSample) : result json :=
  match get_parent_result self sample with
  | Ok (Some (Payload parent_result)) =>
      Ok (or_empty (json_body parent_result))
  | Ok (Some (Dict _ _)) => Raise AttributeError
  | Ok None => Ok []
  | Raise e => Raise e
  | NoFuel => NoFuel
  end.

(** The walk of [_get_parent_test_result] by the list of keys; it ends
    with the running value when no segment is left. *)
Fixpoint parent_walk (segs : list string) (current_dict : t)
    (current_parent : option t) : result (option t) :=
  match segs with
  | [] => Ok current_parent
  | seg :: rest =>
      match current_dict with
      | Payload _ => Raise AttributeError
      | Dict _ items =>
          match match dict_get items methods_key with
                | Some o => o
                | None => Dict PlainDict []
                end with
          | Payload _ => Raise AttributeError
          | Dict _ methods =>
              let current_parent :=
                match dict_get methods (KMethod HttpMethod.post) with
                | Some o => Some o
                | None => current_parent
                end in
              let next_dict := dict_get items (KStr seg) in
              if negb (truthy next_dict) then Ok current_parent
              else
                match next_dict with
                | Some next => parent_walk rest next current_parent
                | None => Ok current_parent
                end
          end
      end
  end.

(** The POST result currently recorded for [path]. *)
Definition recorded_post (self : t) (path : string)
    (test_result : ApiTestResult) : Prop :=
  lookup self (slot (segments path) HttpMethod.post)
  = Some (Payload test_result).

Definition reachable : t -> Prop := reachable path_of method_of.

Definition reachable_within : t -> Prop :=
  reachable_within path_of method_of.

End TestExecutionResultMap.

(** ** class CodeSamplesTree *)

Module CodeSamplesTree.

(** An instance is its [_tree] attribute. *)
Definition t : Type := obj CodeSample.

(** [__init__] *)
Definition init : t := Dict PlainDict [].

(** [f'{sample.lang.value}{sample.name}'] *)
Definition path_of (sample : CodeSample) : string :=
  value (lang sample) ++ name sample.

(** Lines 121-150. *)
Definition _put_code_sample (fuel : nat) (current_dict : t)
    (path : string) (sample : CodeSample) : t * completion :=
  nested_put fuel current_dict path (http_method sample) sample.

(** Lines 111-114, called with a frame left for every part of the key;
    [put_within] below is the call with a given number of frames. *)
Definition put (self : t) (sample : CodeSample) : t * completion :=
  _put_code_sample (frames (value (lang sample) ++ name sample)) self
    (value (lang sample) ++ name sample) sample.

(** Lines 111-114, called with [frames_left] frames left for
    [_put_code_sample]. *)
Definition put_within (frames_left : nat) (self : t) (sample : CodeSample)
  : t * completion :=
  _put_code_sample frames_left self (value (lang sample) ++ name sample)
    sample.

(** [if method in methods: result_list.append(methods[method])] *)
Definition append_method (methods : list (key * t)) (result_list : list t)
    (method : HttpMethod.t) : list t :=
  match dict_get methods (KMethod method) with
  | Some o => result_list ++ [o]
  | None => result_list
  end.

(** Lines 178-179:
    [for value in further_paths:
         self._sort_samples(endpoints[value], result_list)]
    with [further_paths] the keys other than ['methods'] (lines 172-174),
    in insertion order; [endpoints[value]] is the object paired with the
    key.  [sort] is the recursive call. *)
Definition for_further_paths (sort : t -> list t -> result (list t))
  : list (key * t) -> list t -> result (list t) :=
  fix loop (items : list (key * t)) (result_list : list t) :=
    match items with
    | [] => Ok result_list
    | (name, child) :: items' =>
        if negb (key_eqb name methods_key) then
          match sort child result_list with
          | Ok result_list => loop items' result_list
          | Raise e => Raise e
          | NoFuel => NoFuel
          end
        else loop items' result_list
    end.

(** Lines 152-182.  [result_list] is mutated by the source; here the new
    list is returned. *)
Fixpoint _sort_samples (endpoints : t) (result_list : list t)
  : result (list t) :=
  match endpoints with
  | Payload _ => Raise AttributeError
  | Dict _ items =>
      match match dict_get items methods_key with
            | Some o => o
            | None => Dict PlainDict []
            end with
      | Payload _ => Raise TypeError
      | Dict _ methods =>
          let result_list :=
            fold_left (append_method methods)
              [HttpMethod.post; HttpMethod.get; HttpMethod.put]
              result_list in
          match for_further_paths _sort_samples items result_list with
          | Ok result_list =>
              Ok (append_method methods result_list HttpMethod.delete)
          | Raise e => Raise e
          | NoFuel => NoFuel
          end
      end
  end.

(** Lines 116-119. *)
Definition list_sorted_samples (self : t) : result (list t) :=
  _sort_samples self [].

Definition reachable : t -> Prop := reachable path_of http_method.

Definition reachable_within : t -> Prop :=
  reachable_within path_of http_method.

(** *** The traversal as an equation on the dictionary *)

(** The payloads a node holds for the given methods, in that order. *)
Definition own (methods : list (key * t)) (ms : list HttpMethod.t)
  : list t :=
  flat_map (fun m => match dict_get methods (KMethod m) with
                     | Some o => [o]
                     | None => []
                     end) ms.

Definition methods_of (items : list (key * t)) : list (key * t) :=
  match dict_get items methods_key with
  | Some (Dict _ methods) => methods
  | _ => []
  end.

(** What the traversal emits: own POST, GET, PUT, then what it emits
    for the object under each key other than ['methods'], then own
    DELETE. *)
Fixpoint dfs (endpoints : t) : list t :=
  match endpoints with
  | Payload _ => []
  | Dict _ items =>
      own (methods_of items)
        [HttpMethod.post; HttpMethod.get; HttpMethod.put]
      ++ flat_map (fun kv => if key_eqb (fst kv) methods_key then []
                             else dfs (snd kv)) items
      ++ own (methods_of items) [HttpMethod.delete]
  end.

Definition kids (items : list (key * t)) : list t :=
  flat_map (fun kv => if key_eqb (fst kv) methods_key then []
                      else dfs (snd kv)) items.

(** The locations [dfs] reads, in the same order. *)
Definition own_locs (methods : list (key * t)) (ms : list HttpMethod.t)
  : list (list key) :=
  flat_map (fun m => match dict_get methods (KMethod m) with
                     | Some _ => [[methods_key; KMethod m]]
                     | None => []
                     end) ms.

Fixpoint dfs_locs (endpoints : t) : list (list key) :=
  match endpoints with
  | Payload _ => []
  | Dict _ items =>
      own_locs (methods_of items)
        [HttpMethod.post; HttpMethod.get; HttpMethod.put]
      ++ flat_map (fun kv => if key_eqb (fst kv) methods_key then []
                             else map (cons (fst kv)) (dfs_locs (snd kv)))
           items
      ++ own_locs (methods_of items) [HttpMethod.delete]
  end.

Definition kids_locs (items : list (key * t)) : list (list key) :=
  flat_map (fun kv => if key_eqb (fst kv) methods_key then []
                      else map (cons (fst kv)) (dfs_locs (snd kv))) items.

(** [a] comes before [b] in [out]. *)
Definition precedes (a b : t) (out : list t) : Prop :=
  exists l1 l2 l3, out = l1 ++ a :: l2 ++ b :: l3.

(** Two samples with the same (language, path, method). *)
Definition same_key (a b : CodeSample) : bool :=
  String.eqb (value (lang a)) (value (lang b)) &&
  String.eqb (name a) (name b) &&
  HttpMethod.eqb (http_method a) (http_method b).

(** The entries of a sorted list that are samples with the key of [s]. *)
Definition entries_for (s : CodeSample) (out : list t) : list t :=
  filter (fun o => match o with
                   | Payload x => same_key s x
                   | Dict _ _ => false
                   end) out.

End CodeSamplesTree.

(** ** The ordering tree as the specification describes it *)

Module SampleOrderTree.

(** A trie node: children by path segment and, apart from them, a map
    from HTTP method to sample; both in insertion order. *)
#[local] Unset Elimination Schemes.
Inductive TrieNode : Type :=
| Node (payloads : list (HttpMethod.t * CodeSample))
       (children : list (string * TrieNode)).
#[local] Set Elimination Schemes.

Definition empty : TrieNode := Node [] [].

Fixpoint get_payload (payloads : list (HttpMethod.t * CodeSample))
    (m : HttpMethod.t) : option CodeSample :=
  match payloads with
  | [] => None
  | (m', s) :: rest =>
      if HttpMethod.eqb m' m then Some s else get_payload rest m
  end.

Fixpoint set_payload (payloads : list (HttpMethod.t * CodeSample))
    (m : HttpMethod.t) (s : CodeSample)
  : list (HttpMethod.t * CodeSample) :=
  match payloads with
  | [] => [(m, s)]
  | (m', s') :: rest =>
      if HttpMethod.eqb m' m then (m', s) :: rest
      else (m', s') :: set_payload rest m s
  end.

Fixpoint get_child (children : list (string * TrieNode)) (seg : string)
  : option TrieNode :=
  match children with
  | [] => None
  | (seg', c) :: rest =>
      if String.eqb seg' seg then Some c else get_child rest seg
  end.

Fixpoint set_child (children : list (string * TrieNode)) (seg : string)
    (c : TrieNode) : list (string * TrieNode) :=
  match children with
  | [] => [(seg, c)]
  | (seg', c') :: rest =>
      if String.eqb seg' seg then (seg', c) :: rest
      else (seg', c') :: set_child rest seg c
  end.

Definition getOrCreateChild (children : list (string * TrieNode))
    (seg : string) : TrieNode :=
  match get_child children seg with
  | Some c => c
  | None => empty
  end.

(** Descend by the segments, creating intermediate nodes on demand, and
    store the sample under its method at the terminal node. *)
Fixpoint insert_at (segs : list string) (s : CodeSample) (node : TrieNode)
  : TrieNode :=
  match node with
  | Node payloads children =>
      match segs with
      | [] => Node (set_payload payloads (http_method s) s) children
      | seg :: rest =>
          Node payloads
            (set_child children seg
               (insert_at rest s (getOrCreateChild children seg)))
      end
  end.

(** [insert(sample)]: by the segments of [{language}{path}], which are
    the path split on ['/'], nothing dropped or trimmed. *)
Definition insert (tree : TrieNode) (s : CodeSample) : TrieNode :=
  insert_at (path_parts (CodeSamplesTree.path_of s)) s tree.

Definition emit (payloads : list (HttpMethod.t * CodeSample))
    (m : HttpMethod.t) : list CodeSample :=
  match get_payload payloads m with
  | Some s => [s]
  | None => []
  end.

(** [sortedSamples()]: own POST, GET, PUT, then every child's full
    sub-sequence, then own DELETE. *)
Fixpoint sortedSamples (node : TrieNode) : list CodeSample :=
  match node with
  | Node payloads children =>
      emit payloads HttpMethod.post
      ++ emit payloads HttpMethod.get
      ++ emit payloads HttpMethod.put
      ++ flat_map (fun sc => sortedSamples (snd sc)) children
      ++ emit payloads HttpMethod.delete
  end.

Definition insert_all (samples : list CodeSample) : TrieNode :=
  fold_left insert samples empty.

End SampleOrderTree.

(** What the code's dictionary holds, read as a trie node: the payloads
    kept under ['methods'] and the children under every other key. *)
Definition payloads_of (methods : list (key * CodeSamplesTree.t))
  : list (HttpMethod.t * CodeSample) :=
  flat_map (fun kv => match kv with
                      | (KMethod m, Payload s) => [(m, s)]
                      | _ => []
                      end) methods.

Fixpoint trie_of (o : CodeSamplesTree.t) : SampleOrderTree.TrieNode :=
  match o with
  | Payload _ => SampleOrderTree.empty
  | Dict _ items =>
      SampleOrderTree.Node
        (payloads_of (CodeSamplesTree.methods_of items))
        (flat_map (fun kv => match fst kv with
                             | KStr seg =>
                                 if String.eqb seg "methods" then []
                                 else [(seg, trie_of (snd kv))]
                             | KMethod _ => []
                             end) items)
  end.

Definition trie_children (items : list (key * CodeSamplesTree.t))
  : list (string * SampleOrderTree.TrieNode) :=
  flat_map (fun kv => match fst kv with
                      | KStr seg =>
                          if String.eqb seg "methods" then []
                          else [(seg, trie_of (snd kv))]
                      | KMethod _ => []
                      end) items.

(** ** Vocabulary of the statements *)

(** A path segment of the specification: not empty, no ['/']. *)
Definition valid_segment (s : string) : bool :=
  negb (String.eqb s "") && Str.free_of slash s.

(** [q] is a proper prefix of [l]. *)
Definition strict_prefix (q l : list string) : Prop :=
  exists rest, rest <> [] /\ l = q ++ rest.

(** The methods the traversal emits. *)
Definition four : list HttpMethod.t :=
  [HttpMethod.post; HttpMethod.get; HttpMethod.put; HttpMethod.delete].

(** Neither string begins with the other. *)
Definition prefix_free (a b : string) : bool :=
  negb (Str.startswith a b) && negb (Str.startswith b a).

(** Two samples of different languages.  [Language] is declared outside
    this file, so what is known of its values is assumed here: either the
    two values differ and have no ['/'] and the samples have the same path,
    or neither value begins with the other (any paths). *)
Definition different_languages (s1 s2 : CodeSample) : Prop :=
  (value (lang s1) <> value (lang s2) /\
   Str.free_of slash (value (lang s1)) = true /\
   Str.free_of slash (value (lang s2)) = true /\
   name s1 = name s2)
  \/ prefix_free (value (lang s1)) (value (lang s2)) = true.

(** ** Statements about the sorted list *)

(** [child] is filed one or more segments below [parent], in the same
    language: its path is [parent]'s path, ['/'], and more. *)
Definition chain (parent child : CodeSample) : Prop :=
  lang child = lang parent /\
  exists c, name child = (name parent ++ "/" ++ c)%string.

(** The list is returned, with the parent's POST before the child's POST
    and the parent's DELETE after the child's DELETE. *)
Definition chain_ordered (self : CodeSamplesTree.t)
    (parent child : CodeSample) : Prop :=
  exists out,
    CodeSamplesTree.list_sorted_samples self = Ok out /\
    (http_method parent = HttpMethod.post ->
     http_method child = HttpMethod.post ->
     CodeSamplesTree.precedes (Payload parent) (Payload child) out) /\
    (http_method parent = HttpMethod.delete ->
     http_method child = HttpMethod.delete ->
     CodeSamplesTree.precedes (Payload child) (Payload parent) out).

(** The list is returned and has exactly one entry with the key of [s],
    which is [s]. *)
Definition listed_once (self : CodeSamplesTree.t) (s : CodeSample) : Prop :=
  exists out,
    CodeSamplesTree.list_sorted_samples self = Ok out /\
    CodeSamplesTree.entries_for s out = [Payload s].

(** No entry of the list has the key of [s]. *)
Definition not_listed (self : CodeSamplesTree.t) (s : CodeSample) : Prop :=
  exists out,
    CodeSamplesTree.list_sorted_samples self = Ok out /\
    CodeSamplesTree.entries_for s out = [].

(** What [list_sorted_samples] returns after the given calls of [put] is
    the order of the specification's traversal of the trie built from the
    same samples. *)
Definition traversal_matches (samples : list CodeSample) : Prop :=
  CodeSamplesTree.list_sorted_samples
    (put_all CodeSamplesTree.path_of http_method CodeSamplesTree.init samples)
  = Ok (map Payload
          (SampleOrderTree.sortedSamples
             (SampleOrderTree.insert_all samples))).

(** The samples of the specification's concrete scenario, in a language. *)
Definition scenario (l : Language) : list CodeSample :=
  [ mkCodeSample l "items" HttpMethod.post "";
    mkCodeSample l "items" HttpMethod.get "";
    mkCodeSample l "items/{id}" HttpMethod.get "";
    mkCodeSample l "items/{id}" HttpMethod.delete "";
    mkCodeSample l "items" HttpMethod.delete "" ].

(** ** Concrete samples and results used in the examples *)

Module Examples.

Definition python : Language := mkLanguage "python".
Definition js : Language := mkLanguage "js".

Definition code (l : Language) (path : string) (m : HttpMethod.t)
  : CodeSample :=
  mkCodeSample l path m "".

Definition result_of (path : string) (m : HttpMethod.t) (body : option json)
  : ApiTestResult :=
  mkApiTestResult (code python path m) body 200.

Definition post_items : ApiTestResult :=
  result_of "items" HttpMethod.post (Some [("id", "7")]).
Definition post_item_parts : ApiTestResult :=
  result_of "items/7" HttpMethod.post (Some [("id", "3")]).
Definition post_orders : ApiTestResult :=
  result_of "orders" HttpMethod.post None.

(** A result map after three calls of [put]. *)
Definition results : TestExecutionResultMap.t :=
  fst (TestExecutionResultMap.put
    (fst (TestExecutionResultMap.put
      (fst (TestExecutionResultMap.put TestExecutionResultMap.init
              post_items))
      post_item_parts))
    post_orders).

Definition patch_items : CodeSample :=
  code python "/items" (HttpMethod.other "PATCH").
Definition get_items : CodeSample := code python "/items" HttpMethod.get.
Definition get_items_js : CodeSample := code js "/items" HttpMethod.get.
Definition get_payment_methods : CodeSample :=
  code python "/payment/methods" HttpMethod.get.
Definition get_payment : CodeSample :=
  code python "/payment" HttpMethod.get.

Definition post_payment : CodeSample :=
  code python "/payment" HttpMethod.post.
Definition post_payment_methods : CodeSample :=
  code python "/payment/methods" HttpMethod.post.
Definition post_payment_cards : CodeSample :=
  code python "/payment/cards" HttpMethod.post.
Definition get_items_v2 : CodeSample :=
  mkCodeSample python "/items" HttpMethod.get "v2".
Definition post_payment_result : ApiTestResult :=
  result_of "payment" HttpMethod.post None.
Definition post_payment_methods_result : ApiTestResult :=
  result_of "payment/methods" HttpMethod.post None.
Definition post_items_again : ApiTestResult :=
  result_of "items" HttpMethod.post (Some [("id", "8")]).

(** A tree after four calls of [put]. *)
Definition tree : CodeSamplesTree.t :=
  put_all CodeSamplesTree.path_of http_method CodeSamplesTree.init
    [get_payment_methods; get_items; patch_items; get_payment].

End Examples.

(** ** Vocabulary of the further properties *)

(** [p] is not empty and does not end in ['/']: the last of its parts is
    not empty. *)
Definition proper_path (p : string) : bool :=
  negb (String.eqb (last (path_parts p) "") "").

(** [q] is the beginning of [l]. *)
Definition begins_with (l q : list string) : Prop :=
  exists rest, l = q ++ rest.

(** The place of a method in the order of one node: POST, GET, PUT,
    DELETE. *)
Definition method_rank (m : HttpMethod.t) : nat :=
  match m with
  | HttpMethod.post => 0
  | HttpMethod.get => 1
  | HttpMethod.put => 2
  | HttpMethod.delete => 3
  | HttpMethod.other _ => 4
  end.

(** Trees and results used in the examples of the further properties. *)
Module MoreExamples.

Definition put_payment : CodeSamplesTree.t :=
  fst (CodeSamplesTree.put CodeSamplesTree.init Examples.get_payment).

Definition get_item_parts : ApiTestResult :=
  Examples.result_of "items/7" HttpMethod.get (Some [("name", "bolt")]).

Definition delete_items : CodeSample :=
  Examples.code Examples.python "/items" HttpMethod.delete.
Definition post_items_code : CodeSample :=
  Examples.code Examples.python "/items" HttpMethod.post.
Definition get_item : CodeSample :=
  Examples.code Examples.python "/items/{id}" HttpMethod.get.
Definition get_orders : CodeSample :=
  Examples.code Examples.python "/orders" HttpMethod.get.

Definition patch_item : CodeSample :=
  Examples.code Examples.python "/items/{id}" (HttpMethod.other "PATCH").
Definition patch_items_v2 : CodeSample :=
  mkCodeSample Examples.python "/items" (HttpMethod.other "PATCH") "v2".
Definition get_a : CodeSample :=
  Examples.code Examples.python "/a" HttpMethod.get.
Definition post_a_slash : CodeSample :=
  Examples.code Examples.python "/a/" HttpMethod.post.

(** A tree with two resources, one of them with a sub-resource. *)
Definition shop : CodeSamplesTree.t :=
  put_all CodeSamplesTree.path_of http_method CodeSamplesTree.init
    [delete_items; get_item; get_orders; post_items_code;
     Examples.get_items].

End MoreExamples.

(** * Proofs *)

Unset Implicit Arguments.

(** ** Keys and methods *)

Lemma HttpMethod_eqb_spec (a b : HttpMethod.t) :
  reflect (a = b) (HttpMethod.eqb a b).
Proof.
  destruct a as [| | | |x], b as [| | | |y]; simpl;
    try (constructor; congruence).
  destruct (String.eqb_spec x y); constructor; congruence.
Qed.

Lemma HttpMethod_eqb_refl (a : HttpMethod.t) : HttpMethod.eqb a a = true.
Proof. destruct (HttpMethod_eqb_spec a a); congruence. Qed.

Lemma key_eqb_spec (a b : key) : reflect (a = b) (key_eqb a b).
Proof.
  destruct a as [x|x], b as [y|y]; simpl; try (constructor; congruence).
  - destruct (String.eqb_spec x y); constructor; congruence.
  - destruct (HttpMethod_eqb_spec x y); constructor; congruence.
Qed.

Lemma key_eqb_refl (a : key) : key_eqb a a = true.
Proof. destruct (key_eqb_spec a a); congruence. Qed.

Lemma key_eqb_neq (a b : key) : a <> b -> key_eqb a b = false.
Proof. destruct (key_eqb_spec a b); congruence. Qed.

Lemma key_eqb_eq (a b : key) : key_eqb a b = true -> a = b.
Proof. destruct (key_eqb_spec a b); congruence. Qed.

(** ** Splitting and joining *)

Lemma split_not_nil (sep : ascii) (s : string) : Str.split sep s <> [].
Proof.
  destruct s as [|c s]; simpl; [discriminate|].
  destruct (Ascii.eqb c sep); [discriminate|].
  destruct (Str.split sep s); discriminate.
Qed.

Lemma split_free (sep : ascii) (s : string) :
  Forall (fun p => Str.free_of sep p = true) (Str.split sep s).
Proof.
  induction s as [|c s IH]; simpl.
  - constructor; [reflexivity|constructor].
  - destruct (Ascii.eqb c sep) eqn:E.
    + constructor; [reflexivity|assumption].
    + destruct (Str.split sep s) as [|p ps]; simpl.
      * constructor; [simpl; rewrite E; reflexivity|constructor].
      * inversion IH; subst.
        constructor; [simpl; rewrite E; simpl|]; assumption.
Qed.

Lemma split_of_free (sep : ascii) (s : string) :
  Str.free_of sep s = true -> Str.split sep s = [s].
Proof.
  induction s as [|c s IH]; simpl; [reflexivity|].
  intros H. apply andb_true_iff in H as [H1 H2].
  apply negb_true_iff in H1. rewrite H1, (IH H2). reflexivity.
Qed.

Lemma split_app_slash (a b : string) :
  Str.split slash (a ++ String slash b)%string
  = Str.split slash a ++ Str.split slash b.
Proof.
  induction a as [|c a IH]; simpl.
  - reflexivity.
  - rewrite IH. destruct (Ascii.eqb c slash); [reflexivity|].
    destruct (Str.split slash a) as [|p ps] eqn:E; simpl.
    + exfalso. exact (split_not_nil _ _ E).
    + reflexivity.
Qed.

Lemma split_app (a b : string) :
  Str.split slash (a ++ "/" ++ b)%string
  = Str.split slash a ++ Str.split slash b.
Proof. exact (split_app_slash a b). Qed.

Lemma join_cons (p : string) (q : string) (rest : list string) :
  Str.join "/" (p :: q :: rest) = (p ++ "/" ++ Str.join "/" (q :: rest))%string.
Proof. reflexivity. Qed.

Lemma split_join (parts : list string) :
  parts <> [] ->
  Forall (fun p => Str.free_of slash p = true) parts ->
  Str.split slash (Str.join "/" parts) = parts.
Proof.
  induction parts as [|p rest IH]; intros Hne Hfree; [congruence|].
  inversion Hfree as [|? ? Hp Hrest]; subst.
  destruct rest as [|q rest].
  - simpl. apply split_of_free; assumption.
  - rewrite join_cons, split_app, (split_of_free _ _ Hp), IH;
      [reflexivity|discriminate|assumption].
Qed.

Lemma append_eq_empty (a b : string) :
  (a ++ b)%string = "" -> a = "" /\ b = "".
Proof. destruct a; simpl; [auto|discriminate]. Qed.

Lemma join_eq_empty (rest : list string) :
  Str.join "/" rest = "" -> rest = [] \/ rest = [""].
Proof.
  destruct rest as [|p [|q rest]]; simpl; intros H; auto.
  - subst; auto.
  - apply append_eq_empty in H as [_ H]. discriminate.
Qed.

Lemma length_append (a b : string) :
  String.length (a ++ b) = String.length a + String.length b.
Proof.
  induction a as [|x a IH]; simpl; [reflexivity|].
  rewrite IH. reflexivity.
Qed.

Lemma split_free_prefix (l s : string) :
  Str.free_of slash l = true ->
  Str.split slash (l ++ s)%string
  = match Str.split slash s with
    | h :: t => (l ++ h)%string :: t
    | [] => []
    end.
Proof.
  induction l as [|c l IH]; intros Hfree; simpl.
  - destruct (Str.split slash s); reflexivity.
  - simpl in Hfree. apply andb_true_iff in Hfree as [Hc Hfree].
    apply negb_true_iff in Hc. rewrite Hc, (IH Hfree).
    destruct (Str.split slash s) as [|h t] eqn:E; [|reflexivity].
    exfalso. exact (split_not_nil _ _ E).
Qed.

Lemma path_parts_cons (path : string) :
  path_parts path = current_path path :: tl (path_parts path).
Proof.
  unfold current_path. destruct (path_parts path) eqn:E; [|reflexivity].
  exfalso. exact (split_not_nil _ _ E).
Qed.

Lemma effective_not_nil (parts : list string) :
  parts <> [] -> effective parts <> [].
Proof.
  destruct parts as [|p rest]; [congruence|]. intros _. simpl.
  destruct (String.eqb (Str.join "/" rest) ""); discriminate.
Qed.

(** The recursion on [further_path] goes through [segments]. *)
Lemma segments_step (path : string) :
  segments path =
  current_path path ::
    (if String.eqb (further_path path) "" then []
     else segments (further_path path)).
Proof.
  unfold segments at 1. rewrite path_parts_cons. simpl.
  fold (further_path path).
  destruct (String.eqb_spec (further_path path) ""); [reflexivity|].
  f_equal. unfold segments, path_parts, further_path.
  rewrite split_join; [reflexivity| |].
  - intros E. apply n. unfold further_path. rewrite E. reflexivity.
  - pose proof (split_free slash path) as F. unfold path_parts.
    destruct (Str.split slash path); simpl; [constructor|].
    inversion F; assumption.
Qed.

Lemma frames_step (path : string) :
  String.eqb (further_path path) "" = false ->
  frames path = S (frames (further_path path)).
Proof.
  intros H. unfold frames. rewrite (path_parts_cons path) at 1. simpl.
  f_equal. unfold further_path, path_parts at 2.
  rewrite split_join; [reflexivity| |].
  - intros E. unfold further_path in H. rewrite E in H. discriminate.
  - pose proof (split_free slash path) as F. unfold path_parts.
    destruct (Str.split slash path); simpl; [constructor|].
    inversion F; assumption.
Qed.

Lemma segments_not_nil (path : string) : segments path <> [].
Proof. rewrite segments_step. discriminate. Qed.

(** ** Dictionaries *)

Section ObjectFacts.

Variable P : Type.
Implicit Types (items : list (key * obj P)) (k : key) (o v : obj P).

(** Induction on objects, with the hypothesis for every item. *)
Lemma obj_induction (Q : obj P -> Prop)
    (HD : forall kind items,
        Forall (fun kv => Q (snd kv)) items -> Q (Dict kind items))
    (HP : forall p, Q (Payload p)) : forall o, Q o.
Proof.
  fix IH 1. intros [kind items|p].
  - apply HD. revert items. fix IHitems 1. intros [|kv rest].
    + constructor.
    + constructor; [apply IH|apply IHitems].
  - apply HP.
Qed.

Lemma dict_get_set_eq items k v : dict_get (dict_set items k v) k = Some v.
Proof.
  induction items as [|[k' v'] rest IH]; simpl.
  - rewrite key_eqb_refl. reflexivity.
  - destruct (key_eqb k' k) eqn:E; simpl; rewrite E; [reflexivity|exact IH].
Qed.

Lemma dict_get_set_neq items k k' v :
  k <> k' -> dict_get (dict_set items k v) k' = dict_get items k'.
Proof.
  intros Hne. induction items as [|[k0 v0] rest IH]; simpl.
  - rewrite (key_eqb_neq _ _ Hne). reflexivity.
  - destruct (key_eqb k0 k) eqn:E; simpl.
    + apply key_eqb_eq in E. subst k0.
      rewrite (key_eqb_neq _ _ Hne). reflexivity.
    + destruct (key_eqb k0 k'); [reflexivity|exact IH].
Qed.

Lemma dict_set_same items k v :
  dict_get items k = Some v -> dict_set items k v = items.
Proof.
  induction items as [|[k' v'] rest IH]; simpl; [discriminate|].
  destruct (key_eqb k' k); intros H.
  - congruence.
  - rewrite (IH H). reflexivity.
Qed.

Lemma dict_set_set items k a b :
  dict_set (dict_set items k a) k b = dict_set items k b.
Proof.
  induction items as [|[k' v'] rest IH]; simpl.
  - rewrite key_eqb_refl. reflexivity.
  - destruct (key_eqb k' k) eqn:E; simpl; rewrite E; [reflexivity|].
    rewrite IH. reflexivity.
Qed.

(** After lines 52-53 the key is there: either the object that was there
    and is truthy, or a new empty [defaultdict]. *)
Lemma ensure_node_get items k :
  (truthy (dict_get items k) = true /\ ensure_node items k = items /\
   exists child, dict_get items k = Some child) \/
  (truthy (dict_get items k) = false /\
   ensure_node items k = dict_set items k fresh_node /\
   dict_get (ensure_node items k) k = Some fresh_node).
Proof.
  unfold ensure_node. destruct (truthy (dict_get items k)) eqn:E.
  - left. repeat split. destruct (dict_get items k); [eauto|discriminate].
  - right. repeat split. apply dict_get_set_eq.
Qed.

Lemma dict_set_ensure items k v :
  dict_set (ensure_node items k) k v = dict_set items k v.
Proof.
  unfold ensure_node. destruct (truthy (dict_get items k)); [reflexivity|].
  apply dict_set_set.
Qed.

(** *** The recursion on the path is the recursion on its segments *)

Lemma frames_pos (path : string) : 1 <= frames path.
Proof. unfold frames. rewrite path_parts_cons. simpl. lia. Qed.

Lemma nested_put_segs (fuel : nat) :
  forall o path m (p : P),
    frames path <= fuel ->
    nested_put fuel o path m p = put_segs (segments path) o m p.
Proof.
  induction fuel as [|fuel IH]; intros o path m p Hfuel.
  - pose proof (frames_pos path). lia.
  - rewrite segments_step. cbn [nested_put put_segs].
    destruct o as [kind items|q]; [|reflexivity].
    destruct (dict_get (ensure_node items (KStr (current_path path)))
                (KStr (current_path path))) as [child|]; [|reflexivity].
    destruct (String.eqb (further_path path) "") eqn:E.
    + reflexivity.
    + rewrite IH; [reflexivity|]. rewrite (frames_step _ E) in Hfuel. lia.
Qed.

(** The fuel given by the public methods is enough. *)
Lemma nested_put_frames path o m (p : P) :
  nested_put (frames path) o path m p = put_segs (segments path) o m p.
Proof. apply nested_put_segs. lia. Qed.

(** *** A call that raises has changed nothing *)

Lemma store_method_raise o m (p : P) :
  snd (store_method o m p) <> Returned -> fst (store_method o m p) = o.
Proof.
  unfold store_method. destruct o as [kind items|q]; [|reflexivity].
  destruct (dict_get items methods_key) as [[mk mitems|q]|].
  - simpl. congruence.
  - reflexivity.
  - destruct kind; simpl; [reflexivity|congruence].
Qed.

Lemma store_method_fuel o m (p : P) :
  snd (store_method o m p) <> FuelExhausted.
Proof.
  unfold store_method. destruct o as [kind items|q]; [|discriminate].
  destruct (dict_get items methods_key) as [[mk mitems|q]|];
    try discriminate.
  destruct kind; discriminate.
Qed.

Lemma put_segs_fresh segs m (p : P) :
  snd (put_segs segs fresh_node m p) = Returned.
Proof.
  induction segs as [|seg rest IH]; [reflexivity|].
  cbn [put_segs fresh_node]. unfold ensure_node. simpl.
  rewrite String.eqb_refl. fold (@fresh_node P).
  destruct (put_segs rest fresh_node m p) as [child' c] eqn:E.
  simpl in *. exact IH.
Qed.

Lemma put_segs_raise segs :
  forall o m (p : P),
    snd (put_segs segs o m p) <> Returned ->
    fst (put_segs segs o m p) = o.
Proof.
  induction segs as [|seg rest IH]; intros o m p H.
  - apply store_method_raise. exact H.
  - cbn [put_segs] in *. destruct o as [kind items|q]; [|reflexivity].
    destruct (ensure_node_get items (KStr seg))
      as [(_ & Eq & child & Hget)|(_ & Eq & Hget)].
    + rewrite Eq in *. rewrite Hget in *.
      specialize (IH child m p).
      destruct (put_segs rest child m p) as [child' c]. simpl in *.
      rewrite (IH H), (dict_set_same _ _ _ Hget). reflexivity.
    + rewrite Hget in *. pose proof (put_segs_fresh rest m p) as F.
      destruct (put_segs rest fresh_node m p) as [child' c]. simpl in *.
      congruence.
Qed.

Lemma put_segs_fuel segs :
  forall o m (p : P), snd (put_segs segs o m p) <> FuelExhausted.
Proof.
  induction segs as [|seg rest IH]; intros o m p.
  - apply store_method_fuel.
  - cbn [put_segs]. destruct o as [kind items|q]; [|discriminate].
    destruct (dict_get (ensure_node items (KStr seg)) (KStr seg))
      as [child|]; [|discriminate].
    specialize (IH child m p).
    destruct (put_segs rest child m p) as [child' c]. exact IH.
Qed.


(** ** Locations *)

Implicit Types (loc : list key) (p x : P).

Lemma slot_cons seg segs m : slot (seg :: segs) m = KStr seg :: slot segs m.
Proof. reflexivity. Qed.

Lemma slot_inj segs segs' m m' :
  slot segs m = slot segs' m' -> segs = segs' /\ m = m'.
Proof.
  revert segs'. induction segs as [|s segs IH]; intros [|s' segs'] H;
    simpl in H.
  - inversion H. auto.
  - inversion H as [[H1 H2]]. destruct segs'; discriminate.
  - inversion H as [[H1 H2]]. destruct segs; discriminate.
  - inversion H as [[H1 H2]]. destruct (IH _ H2). subst. auto.
Qed.

Lemma lookup_payload p loc o :
  lookup (Payload p) loc = Some o -> loc = [] /\ o = Payload p.
Proof. destruct loc; simpl; [intros [= <-]; auto|discriminate]. Qed.

Lemma lookup_empty kind loc x :
  lookup (Dict kind []) loc = Some (Payload x) -> False.
Proof. destruct loc; simpl; discriminate. Qed.

Lemma lookup_set kind items k v k' loc :
  lookup (Dict kind (dict_set items k v)) (k' :: loc) =
  if key_eqb k k' then lookup v loc else lookup (Dict kind items) (k' :: loc).
Proof.
  simpl. destruct (key_eqb_spec k k') as [->|Hne].
  - rewrite dict_get_set_eq. reflexivity.
  - rewrite (dict_get_set_neq _ _ _ _ Hne). reflexivity.
Qed.

(** An object through which a payload is reached is truthy. *)
Lemma lookup_truthy o loc x :
  lookup o loc = Some (Payload x) -> truthy (Some o) = true.
Proof.
  destruct o as [kind [|kv items]|q]; try reflexivity.
  intros H. exfalso. exact (lookup_empty _ _ _ H).
Qed.

Lemma lookup_ensure kind items k loc x :
  lookup (Dict kind (ensure_node items k)) loc = Some (Payload x) <->
  lookup (Dict kind items) loc = Some (Payload x).
Proof.
  unfold ensure_node. destruct (truthy (dict_get items k)) eqn:E;
    [reflexivity|].
  destruct loc as [|k' loc]; [simpl; split; discriminate|].
  rewrite lookup_set. destruct (key_eqb_spec k k') as [<-|Hne];
    [|reflexivity].
  split; intros H.
  - exfalso. exact (lookup_empty _ _ _ H).
  - simpl in H. destruct (dict_get items k) as [c|] eqn:G; [|discriminate].
    rewrite (lookup_truthy _ _ _ H) in E. discriminate.
Qed.

(** *** What [node['methods'][m] = p] changes *)

Lemma store_method_lookup_new o m p :
  snd (store_method o m p) = Returned ->
  lookup (fst (store_method o m p)) (slot [] m) = Some (Payload p).
Proof.
  unfold store_method, slot. destruct o as [kind items|q]; [|discriminate].
  destruct (dict_get items methods_key) as [[mk mitems|q]|];
    [| discriminate |destruct kind; [discriminate|]];
    intros _; cbn [fst map app]; rewrite lookup_set, key_eqb_refl.
  - rewrite lookup_set, key_eqb_refl. reflexivity.
  - simpl. rewrite HttpMethod_eqb_refl. reflexivity.
Qed.

Lemma store_method_lookup_inv o m p loc x :
  lookup (fst (store_method o m p)) loc = Some (Payload x) ->
  (loc = slot [] m /\ x = p) \/ lookup o loc = Some (Payload x).
Proof.
  unfold store_method, slot. destruct o as [kind items|q]; [|auto].
  destruct (dict_get items methods_key) as [[mk mitems|q]|] eqn:G;
    [| auto |destruct kind; [auto|]]; cbn [fst map app];
    (destruct loc as [|k loc]; [simpl; discriminate|]);
    rewrite lookup_set;
    (destruct (key_eqb_spec methods_key k) as [<-|Hne]; [|auto]).
  - destruct loc as [|k2 loc]; [simpl; discriminate|].
    rewrite lookup_set. destruct (key_eqb_spec (KMethod m) k2) as [<-|Hne].
    + intros H. apply lookup_payload in H as [-> [= <-]]. auto.
    + intros H. right. simpl. rewrite G. exact H.
  - destruct loc as [|k2 loc]; [simpl; discriminate|].
    change [(KMethod m, Payload p)]
      with (dict_set (@nil (key * obj P)) (KMethod m) (Payload p)).
    rewrite lookup_set. destruct (key_eqb_spec (KMethod m) k2) as [<-|Hne].
    + intros H. apply lookup_payload in H as [-> [= <-]]. auto.
    + simpl. discriminate.
Qed.

(** Storing replaces what was at the slot, and with it anything below. *)
Lemma store_method_lookup_keep o m p loc x :
  lookup o loc = Some (Payload x) ->
  (forall suffix, loc <> slot [] m ++ suffix) ->
  lookup (fst (store_method o m p)) loc = Some (Payload x).
Proof.
  unfold store_method, slot. destruct o as [kind items|q]; [|auto].
  destruct (dict_get items methods_key) as [[mk mitems|q]|] eqn:G;
    [| auto |destruct kind; [auto|]]; cbn [fst map app];
    (destruct loc as [|k loc]; [simpl; discriminate|]);
    rewrite lookup_set;
    (destruct (key_eqb_spec methods_key k) as [<-|Hne]; [|auto]).
  - simpl. rewrite G. destruct loc as [|k2 loc]; [simpl; discriminate|].
    rewrite lookup_set. destruct (key_eqb_spec (KMethod m) k2) as [<-|Hne];
      [|auto].
    intros _ Hloc. exfalso. exact (Hloc loc eq_refl).
  - simpl. rewrite G. discriminate.
Qed.

(** *** What a call of [put] changes *)

Lemma put_segs_lookup_new segs :
  forall o m p,
    snd (put_segs segs o m p) = Returned ->
    lookup (fst (put_segs segs o m p)) (slot segs m) = Some (Payload p).
Proof.
  induction segs as [|seg rest IH]; intros o m p H.
  - apply store_method_lookup_new. exact H.
  - cbn [put_segs] in *. destruct o as [kind items|q];
      [|simpl in H; discriminate].
    destruct (dict_get (ensure_node items (KStr seg)) (KStr seg))
      as [child|]; [|simpl in H; discriminate].
    specialize (IH child m p).
    destruct (put_segs rest child m p) as [child' c]. cbn [fst snd] in *.
    rewrite slot_cons, lookup_set, key_eqb_refl. auto.
Qed.

Lemma put_segs_lookup_inv segs :
  forall o m p loc x,
    lookup (fst (put_segs segs o m p)) loc = Some (Payload x) ->
    (loc = slot segs m /\ x = p) \/ lookup o loc = Some (Payload x).
Proof.
  induction segs as [|seg rest IH]; intros o m p loc x H.
  - apply store_method_lookup_inv. exact H.
  - cbn [put_segs] in H. destruct o as [kind items|q]; [|auto].
    destruct (ensure_node_get items (KStr seg))
      as [(_ & Eq & child & Hget)|(_ & Eq & Hget)].
    + rewrite Eq, Hget in H. specialize (IH child m p).
      destruct (put_segs rest child m p) as [child' c]. cbn [fst snd] in *.
      destruct loc as [|k loc]; [simpl in H; discriminate|].
      rewrite lookup_set in H.
      destruct (key_eqb_spec (KStr seg) k) as [<-|Hne]; [|auto].
      destruct (IH _ _ H) as [[-> ->]|H']; [auto|].
      right. simpl. rewrite Hget. exact H'.
    + rewrite Hget in H. specialize (IH fresh_node m p).
      destruct (put_segs rest fresh_node m p) as [child' c].
      cbn [fst snd] in *. rewrite dict_set_ensure in H.
      destruct loc as [|k loc]; [simpl in H; discriminate|].
      rewrite lookup_set in H.
      destruct (key_eqb_spec (KStr seg) k) as [<-|Hne]; [|auto].
      destruct (IH _ _ H) as [[-> ->]|H']; [auto|].
      exfalso. exact (lookup_empty _ _ _ H').
Qed.

Lemma put_segs_lookup_keep segs :
  forall o m p loc x,
    lookup o loc = Some (Payload x) ->
    (forall suffix, loc <> slot segs m ++ suffix) ->
    lookup (fst (put_segs segs o m p)) loc = Some (Payload x).
Proof.
  induction segs as [|seg rest IH]; intros o m p loc x H Hloc.
  - apply store_method_lookup_keep; assumption.
  - cbn [put_segs]. destruct o as [kind items|q]; [|auto].
    destruct loc as [|k loc]; [simpl in H; discriminate|].
    destruct (key_eqb_spec (KStr seg) k) as [<-|Hne].
    + simpl in H. destruct (dict_get items (KStr seg)) as [child|] eqn:G;
        [|discriminate].
      unfold ensure_node. rewrite G, (lookup_truthy _ _ _ H), G.
      specialize (IH child m p loc x H).
      destruct (put_segs rest child m p) as [child' c]. cbn [fst snd] in *.
      rewrite lookup_set, key_eqb_refl. apply IH.
      intros suffix ->. apply (Hloc suffix). reflexivity.
    + destruct (dict_get (ensure_node items (KStr seg)) (KStr seg))
        as [child|] eqn:G.
      * destruct (put_segs rest child m p) as [child' c]. cbn [fst].
        rewrite lookup_set, (key_eqb_neq _ _ Hne). apply lookup_ensure. exact H.
      * cbn [fst]. apply lookup_ensure. exact H.
Qed.

(** No slot lies below another one. *)
Lemma slot_prefix segs :
  forall m segs' m' suffix,
    slot segs' m' = slot segs m ++ suffix -> segs' = segs /\ m' = m.
Proof.
  induction segs as [|seg rest IH]; intros m segs' m' suffix H.
  - destruct segs' as [|s1 [|s2 segs']]; simpl in H; inversion H; auto.
  - destruct segs' as [|s1 segs'].
    + destruct rest; simpl in H; inversion H.
    + rewrite !slot_cons in H. simpl in H. inversion H as [[H1 H2]].
      destruct (IH _ _ _ _ H2). subst. auto.
Qed.

Lemma put_segs_slot_keep segs o m p segs' m' x :
  lookup o (slot segs' m') = Some (Payload x) ->
  (segs', m') <> (segs, m) ->
  lookup (fst (put_segs segs o m p)) (slot segs' m') = Some (Payload x).
Proof.
  intros H Hne. apply put_segs_lookup_keep; [exact H|].
  intros suffix E. apply slot_prefix in E as [-> ->]. congruence.
Qed.

(** A second call for a slot that holds a payload returns. *)
Lemma put_segs_again segs :
  forall o m p x,
    lookup o (slot segs m) = Some (Payload x) ->
    snd (put_segs segs o m p) = Returned.
Proof.
  induction segs as [|seg rest IH]; intros o m p x H.
  - unfold slot in H. simpl in H. cbn [put_segs]. unfold store_method.
    destruct o as [kind items|q]; [|discriminate].
    destruct (dict_get items methods_key)
      as [[mk mitems|q]|]; [reflexivity|discriminate|discriminate].
  - rewrite slot_cons in H. cbn [put_segs].
    destruct o as [kind items|q]; [|discriminate]. simpl in H.
    destruct (dict_get items (KStr seg)) as [child|] eqn:G; [|discriminate].
    unfold ensure_node. rewrite G, (lookup_truthy _ _ _ H), G.
    specialize (IH child m p x H).
    destruct (put_segs rest child m p) as [child' c]. exact IH.
Qed.


(** ** The shape of the dictionaries is kept by [put] *)


Lemma wfb_Dict um kind items :
  wfb um (Dict kind items)
  = uniqueb (map fst items) && forallb (entry_ok um) items.
Proof. reflexivity. Qed.

Lemma existsb_keys_set a items k v :
  key_eqb a k = false ->
  existsb (key_eqb a) (map fst (dict_set items k v))
  = existsb (key_eqb a) (map fst items).
Proof.
  intros Hne. induction items as [|[k' v'] rest IH]; simpl.
  - rewrite Hne. reflexivity.
  - destruct (key_eqb k' k); simpl; [reflexivity|]. rewrite IH. reflexivity.
Qed.

Lemma uniqueb_dict_set items k v :
  uniqueb (map fst items) = true ->
  uniqueb (map fst (dict_set items k v)) = true.
Proof.
  induction items as [|[k' v'] rest IH]; simpl; [reflexivity|].
  intros H. apply andb_true_iff in H as [H1 H2].
  destruct (key_eqb k' k) eqn:E; simpl.
  - rewrite H1, H2. reflexivity.
  - rewrite existsb_keys_set, H1, (IH H2); [reflexivity|exact E].
Qed.

Lemma forallb_dict_set (f : key * obj P -> bool) items k v :
  forallb f items = true -> f (k, v) = true ->
  forallb f (dict_set items k v) = true.
Proof.
  intros H Hf. induction items as [|[k' v'] rest IH]; simpl in *.
  - rewrite Hf. reflexivity.
  - apply andb_true_iff in H as [H1 H2].
    destruct (key_eqb_spec k' k) as [->|Hne]; simpl.
    + rewrite Hf, H2. reflexivity.
    + rewrite H1, (IH H2). reflexivity.
Qed.

Lemma forallb_dict_get (f : key * obj P -> bool) items k v :
  forallb f items = true -> dict_get items k = Some v -> f (k, v) = true.
Proof.
  induction items as [|[k' v'] rest IH]; simpl; [discriminate|].
  intros H G. apply andb_true_iff in H as [H1 H2].
  destruct (key_eqb_spec k' k) as [->|Hne]; [congruence|auto].
Qed.

Lemma wfb_dict_set um kind kind' items k v :
  wfb um (Dict kind items) = true -> entry_ok um (k, v) = true ->
  wfb um (Dict kind' (dict_set items k v)) = true.
Proof.
  rewrite !wfb_Dict. intros H Hv. apply andb_true_iff in H as [H1 H2].
  rewrite (uniqueb_dict_set _ _ _ H1), (forallb_dict_set _ _ _ _ H2 Hv).
  reflexivity.
Qed.

Lemma wfb_dict_get um kind items k v :
  wfb um (Dict kind items) = true -> dict_get items k = Some v ->
  entry_ok um (k, v) = true.
Proof.
  rewrite wfb_Dict. intros H G. apply andb_true_iff in H as [_ H].
  exact (forallb_dict_get _ _ _ _ H G).
Qed.

Lemma entry_ok_str um seg v :
  entry_ok um (KStr seg, v)
  = wfb (String.eqb seg "methods") v
    && (String.eqb seg "methods" || is_defaultdict v).
Proof. reflexivity. Qed.

Lemma wfb_fresh um : wfb um (@fresh_node P) = true.
Proof. reflexivity. Qed.

Lemma wfb_ensure um kind items seg :
  wfb um (Dict kind items) = true ->
  wfb um (Dict kind (ensure_node items (KStr seg))) = true.
Proof.
  intros H. unfold ensure_node.
  destruct (truthy (dict_get items (KStr seg))); [exact H|].
  eapply wfb_dict_set; [exact H|]. rewrite entry_ok_str. simpl.
  apply orb_true_r.
Qed.

Lemma store_method_shape o m (p : P) um :
  wfb um o = true ->
  wfb um (fst (store_method o m p)) = true /\
  is_defaultdict (fst (store_method o m p)) = is_defaultdict o.
Proof.
  intros H. unfold store_method. destruct o as [kind items|q]; [|auto].
  destruct (dict_get items methods_key) as [[mk mitems|q]|] eqn:G; [|auto|].
  - cbn [fst]. split; [|reflexivity].
    pose proof (wfb_dict_get _ _ _ _ _ H G) as Hm. unfold methods_key in Hm.
    rewrite entry_ok_str, String.eqb_refl, orb_true_l, andb_true_r in Hm.
    eapply wfb_dict_set; [exact H|]. unfold methods_key.
    rewrite entry_ok_str, String.eqb_refl, orb_true_l, andb_true_r.
    eapply wfb_dict_set; [exact Hm|]. reflexivity.
  - destruct kind; [auto|]. cbn [fst]. split; [|reflexivity].
    eapply wfb_dict_set; [exact H|]. reflexivity.
Qed.

Lemma put_segs_shape segs :
  forall o m (p : P) um,
    wfb um o = true ->
    wfb um (fst (put_segs segs o m p)) = true /\
    is_defaultdict (fst (put_segs segs o m p)) = is_defaultdict o.
Proof.
  induction segs as [|seg rest IH]; intros o m p um H.
  - apply store_method_shape. exact H.
  - cbn [put_segs]. destruct o as [kind items|q]; [|auto].
    pose proof (wfb_ensure _ _ _ seg H) as He.
    destruct (dict_get (ensure_node items (KStr seg)) (KStr seg))
      as [child|] eqn:G; [|auto].
    pose proof (wfb_dict_get _ _ _ _ _ He G) as Hc. rewrite entry_ok_str in Hc.
    apply andb_true_iff in Hc as [Hc1 Hc2].
    destruct (IH child m p _ Hc1) as [IH1 IH2].
    destruct (put_segs rest child m p) as [child' c]. cbn [fst] in *.
    split; [|reflexivity].
    eapply wfb_dict_set; [exact He|]. rewrite entry_ok_str, IH1, IH2.
    exact Hc2.
Qed.

(** In a dictionary that is not kept under ['methods'] every key is a
    string. *)
Lemma wfb_false_keys kind items k v :
  wfb false (Dict kind items) = true -> In (k, v) items ->
  exists seg, k = KStr seg.
Proof.
  rewrite wfb_Dict. intros H Hin. apply andb_true_iff in H as [_ H].
  rewrite forallb_forall in H. specialize (H _ Hin).
  destruct k as [seg|m]; [eauto|discriminate].
Qed.

Lemma wfb_child um kind items seg v :
  wfb um (Dict kind items) = true -> dict_get items (KStr seg) = Some v ->
  wfb (String.eqb seg "methods") v = true /\
  (seg <> "methods" -> is_defaultdict v = true).
Proof.
  intros H G. pose proof (wfb_dict_get _ _ _ _ _ H G) as Hc.
  rewrite entry_ok_str in Hc. apply andb_true_iff in Hc as [Hc1 Hc2].
  split; [exact Hc1|]. intros Hne.
  destruct (String.eqb_spec seg "methods"); [contradiction|exact Hc2].
Qed.

Lemma wfb_is_dict um o :
  wfb um o = true -> exists kind items, o = Dict kind items.
Proof. destruct o; [eauto|discriminate]. Qed.

Lemma dict_get_in items k v :
  dict_get items k = Some v -> In (k, v) items.
Proof.
  induction items as [|[k' v'] rest IH]; simpl; [discriminate|].
  destruct (key_eqb_spec k' k) as [->|Hne]; intros H.
  - left. congruence.
  - right. auto.
Qed.

Lemma in_dict_get items k v :
  uniqueb (map fst items) = true -> In (k, v) items ->
  dict_get items k = Some v.
Proof.
  induction items as [|[k' v'] rest IH]; simpl; [contradiction|].
  intros H [E|Hin].
  - inversion E; subst. rewrite key_eqb_refl. reflexivity.
  - apply andb_true_iff in H as [H1 H2].
    destruct (key_eqb_spec k' k) as [->|Hne]; [|auto].
    exfalso. apply negb_true_iff in H1.
    assert (existsb (key_eqb k) (map fst rest) = true) as E.
    { apply existsb_exists. exists k. split; [|apply key_eqb_refl].
      apply (in_map fst) in Hin. exact Hin. }
    congruence.
Qed.

End ObjectFacts.

(** ** Reachable states of a store *)

Section StoreFacts.

Variable P : Type.
Variable path_of : P -> string.
Variable method_of : P -> HttpMethod.t.

#[local] Abbreviation put_payload := (put_payload path_of method_of).
#[local] Abbreviation reachable := (reachable path_of method_of).

Lemma put_payload_segs root p :
  put_payload root p
  = put_segs (segments (path_of p)) root (method_of p) p.
Proof. apply nested_put_frames. Qed.

(** The fuel given by [put] is enough. *)
Lemma put_payload_fuel root p : snd (put_payload root p) <> FuelExhausted.
Proof. rewrite put_payload_segs. apply put_segs_fuel. Qed.

(** A call of [put] that raises leaves the store as it was. *)
Lemma put_payload_raise root p :
  snd (put_payload root p) <> Returned -> fst (put_payload root p) = root.
Proof. rewrite put_payload_segs. apply put_segs_raise. Qed.

Lemma reachable_wf root : reachable root -> wf root.
Proof.
  induction 1 as [|root p _ IH]; [reflexivity|].
  rewrite put_payload_segs. apply put_segs_shape. exact IH.
Qed.

Lemma reachable_located root :
  reachable root -> located path_of method_of root.
Proof.
  induction 1 as [|root p _ IH]; intros loc x H.
  - exfalso. exact (lookup_empty _ _ _ _ H).
  - rewrite put_payload_segs in H.
    apply put_segs_lookup_inv in H as [[-> ->]|H]; [reflexivity|auto].
Qed.

Lemma reachable_put_all root payloads :
  reachable root -> reachable (put_all path_of method_of root payloads).
Proof.
  revert root. induction payloads as [|p rest IH]; intros root H; simpl.
  - exact H.
  - apply IH. constructor. exact H.
Qed.

(** A payload whose [put] returned is stored. *)
Lemma put_payload_stored root p :
  snd (put_payload root p) = Returned ->
  stored path_of method_of (fst (put_payload root p)) p.
Proof.
  unfold stored. rewrite put_payload_segs. apply put_segs_lookup_new.
Qed.

(** A stored payload stays until a [put] for its own path and method. *)
Lemma put_payload_keeps root p x :
  stored path_of method_of root x ->
  (segments (path_of x), method_of x) <> (segments (path_of p), method_of p) ->
  stored path_of method_of (fst (put_payload root p)) x.
Proof.
  unfold stored. rewrite put_payload_segs. apply put_segs_slot_keep.
Qed.

(** A second [put] for a path and method that has a payload returns. *)
Lemma put_payload_again root p x :
  stored path_of method_of root x ->
  segments (path_of p) = segments (path_of x) -> method_of p = method_of x ->
  snd (put_payload root p) = Returned.
Proof.
  unfold stored. intros H E1 E2. rewrite put_payload_segs, E1, E2.
  exact (put_segs_again _ _ _ _ _ _ H).
Qed.

(** The store never holds two payloads for one path and method. *)
Lemma located_unique root loc x y :
  located path_of method_of root ->
  lookup root loc = Some (Payload x) ->
  stored path_of method_of root y ->
  segments (path_of x) = segments (path_of y) -> method_of x = method_of y ->
  x = y.
Proof.
  intros L H S E1 E2. unfold stored in S.
  rewrite (L _ _ H), E1, E2, S in H. congruence.
Qed.

End StoreFacts.

(** ** How [put] ends and what it keeps *)

Section PutFacts.

Variable P : Type.
Variable path_of : P -> string.
Variable method_of : P -> HttpMethod.t.

(** How a call on a well-shaped dictionary can end. *)
Lemma store_method_completion (d : obj P) m p um :
  wfb um d = true ->
  snd (store_method d m p) = Returned \/
  (snd (store_method d m p) = Raised KeyError /\ is_defaultdict d = false).
Proof.
  intros Hwf. unfold store_method. destruct d as [kind items|x];
    [|discriminate].
  destruct (dict_get items methods_key) as [o|] eqn:G.
  - destruct (wfb_child _ _ _ _ _ _ Hwf G) as [Ho _].
    destruct o; [auto|discriminate].
  - destruct kind; simpl; auto.
Qed.

Lemma put_segs_completion segs :
  forall (d : obj P) m p um,
    wfb um d = true ->
    snd (put_segs segs d m p) = Returned \/
    (snd (put_segs segs d m p) = Raised KeyError /\
     ((segs = [] /\ is_defaultdict d = false) \/
      last segs "" = "methods")).
Proof.
  induction segs as [|seg rest IH]; intros d m p um Hwf.
  - destruct (store_method_completion d m p um Hwf) as [H|[H1 H2]]; auto.
  - cbn [put_segs]. destruct d as [kind items|x]; [|discriminate].
    destruct (ensure_node_get _ items (KStr seg))
      as [(_ & Eq & child & Hget)|(_ & Eq & Hget)].
    + rewrite Eq, Hget.
      destruct (wfb_child _ _ _ _ _ _ Hwf Hget) as [Hc Hdd].
      specialize (IH child m p _ Hc).
      destruct (put_segs rest child m p) as [child' c]. cbn [fst snd] in *.
      destruct IH as [IH|(IH & [(-> & Hk)|Hlast])]; [auto| |].
      * right. split; [exact IH|]. right. simpl.
        destruct (String.eqb_spec seg "methods") as [E|Hne]; [exact E|].
        rewrite (Hdd Hne) in Hk. discriminate.
      * right. split; [exact IH|]. right.
        destruct rest as [|r rest]; [discriminate|exact Hlast].
    + rewrite Hget. pose proof (put_segs_fresh _ rest m p) as F.
      destruct (put_segs rest fresh_node m p) as [child' c]. auto.
Qed.

(** A second call with a payload that is stored changes nothing. *)
Lemma store_method_same (d : obj P) m p :
  lookup d (slot [] m) = Some (Payload p) ->
  store_method d m p = (d, Returned).
Proof.
  unfold slot. simpl. unfold store_method.
  destruct d as [kind items|x]; [|discriminate].
  destruct (dict_get items methods_key) as [[mk mitems|x]|] eqn:G;
    [|discriminate|discriminate].
  destruct (dict_get mitems (KMethod m)) as [o|] eqn:G2; [|discriminate].
  intros [= ->].
  rewrite (dict_set_same _ _ _ _ G2), (dict_set_same _ _ _ _ G).
  reflexivity.
Qed.

Lemma put_segs_same segs :
  forall (d : obj P) m p,
    lookup d (slot segs m) = Some (Payload p) ->
    put_segs segs d m p = (d, Returned).
Proof.
  induction segs as [|seg rest IH]; intros d m p H.
  - apply store_method_same. exact H.
  - rewrite slot_cons in H. cbn [put_segs].
    destruct d as [kind items|x]; [|discriminate]. simpl in H.
    destruct (dict_get items (KStr seg)) as [child|] eqn:G; [|discriminate].
    unfold ensure_node. rewrite G, (lookup_truthy _ _ _ _ H), G.
    rewrite (IH child m p H), (dict_set_same _ _ _ _ G). reflexivity.
Qed.

Lemma put_payload_idempotent (root : obj P) p :
  put_payload path_of method_of (fst (put_payload path_of method_of root p)) p
  = put_payload path_of method_of root p.
Proof.
  destruct (put_payload path_of method_of root p) as [root' c] eqn:E.
  cbn [fst]. destruct c.
  - pose proof (put_payload_stored _ path_of method_of root p) as S.
    rewrite E in S. specialize (S eq_refl). unfold stored in S. cbn [fst] in S.
    rewrite put_payload_segs. apply put_segs_same. exact S.
  - pose proof (put_payload_raise _ path_of method_of root p) as U.
    rewrite E in U. cbn [fst snd] in U.
    assert (root' = root) as -> by (apply U; discriminate). exact E.
  - pose proof (put_payload_raise _ path_of method_of root p) as U.
    rewrite E in U. cbn [fst snd] in U.
    assert (root' = root) as -> by (apply U; discriminate). exact E.
Qed.

Lemma put_payload_completion (root : obj P) p :
  reachable path_of method_of root ->
  (snd (put_payload path_of method_of root p) = Returned \/
   snd (put_payload path_of method_of root p) = Raised KeyError) /\
  (last (segments (path_of p)) "" <> "methods" ->
   snd (put_payload path_of method_of root p) = Returned).
Proof.
  intros R. pose proof (reachable_wf _ _ _ _ R) as Hwf.
  rewrite put_payload_segs.
  destruct (put_segs_completion (segments (path_of p)) root (method_of p) p
              false Hwf) as [H|(H & [(E & _)|Hlast])].
  - auto.
  - exfalso. exact (segments_not_nil _ E).
  - split; [auto|]. intros Hne. contradiction.
Qed.

Lemma segs_method_dec (a b : list string * HttpMethod.t) :
  {a = b} + {a <> b}.
Proof.
  destruct a as [q m], b as [q' m'].
  destruct (list_eq_dec string_dec q q') as [->|Hq].
  - destruct (HttpMethod_eqb_spec m m') as [->|Hm].
    + left. reflexivity.
    + right. congruence.
  - right. congruence.
Qed.

Lemma put_payload_persists (root : obj P) p x :
  stored path_of method_of root x ->
  stored path_of method_of (fst (put_payload path_of method_of root p)) x \/
  (snd (put_payload path_of method_of root p) = Returned /\
   segments (path_of p) = segments (path_of x) /\
   method_of p = method_of x /\
   stored path_of method_of (fst (put_payload path_of method_of root p)) p).
Proof.
  intros S.
  destruct (segs_method_dec (segments (path_of x), method_of x)
              (segments (path_of p), method_of p)) as [E|Hne].
  - inversion E as [[E1 E2]].
    destruct (snd (put_payload path_of method_of root p)) eqn:C.
    + right. repeat split; auto. apply put_payload_stored. exact C.
    + left. rewrite put_payload_raise; [exact S|]. rewrite C. discriminate.
    + left. rewrite put_payload_raise; [exact S|]. rewrite C. discriminate.
  - left. apply put_payload_keeps; assumption.
Qed.

(** Whatever the store holds was given to [put]. *)
Lemma put_all_lookup payloads :
  forall (root : obj P) loc x,
    lookup (put_all path_of method_of root payloads) loc = Some (Payload x) ->
    In x payloads \/ lookup root loc = Some (Payload x).
Proof.
  induction payloads as [|p rest IH]; intros root loc x H; [auto|].
  cbn [put_all fold_left] in H.
  fold (put_all path_of method_of
          (fst (put_payload path_of method_of root p)) rest) in H.
  apply IH in H as [H|H]; [left; right; exact H|].
  rewrite put_payload_segs in H.
  apply put_segs_lookup_inv in H as [[_ ->]|H]; [left; left; reflexivity|].
  auto.
Qed.

End PutFacts.

(** ** Calls of [put] that run out of frames *)

Section FrameFacts.

Variable P : Type.
Implicit Types (o : obj P) (m : HttpMethod.t) (p x : P) (loc : list key).

(** With a frame for every segment the call is the walk by the segments. *)
Lemma nested_put_enough (fuel : nat) :
  forall o path m p,
    length (segments path) <= fuel ->
    nested_put fuel o path m p = put_segs (segments path) o m p.
Proof.
  induction fuel as [|fuel IH]; intros o path m p Hfuel.
  - pose proof (segments_not_nil path) as Hne.
    destruct (segments path); [congruence|simpl in Hfuel; lia].
  - rewrite segments_step in Hfuel |- *. cbn [nested_put put_segs].
    destruct o as [kind items|q]; [|reflexivity].
    destruct (dict_get (ensure_node items (KStr (current_path path)))
                (KStr (current_path path))) as [child|]; [|reflexivity].
    destruct (String.eqb (further_path path) "") eqn:E.
    + reflexivity.
    + rewrite IH; [reflexivity|]. simpl in Hfuel. lia.
Qed.

(** With fewer frames the call creates the nodes of the segments it has
    frames for. *)
Lemma nested_put_short (fuel : nat) :
  forall o path m p,
    fuel < length (segments path) ->
    nested_put fuel o path m p
    = ensure_segs (firstn fuel (segments path)) o.
Proof.
  induction fuel as [|fuel IH]; intros o path m p Hfuel.
  - reflexivity.
  - rewrite segments_step in Hfuel |- *.
    cbn [nested_put firstn ensure_segs].
    destruct o as [kind items|q]; [|reflexivity].
    destruct (dict_get (ensure_node items (KStr (current_path path)))
                (KStr (current_path path))) as [child|]; [|reflexivity].
    destruct (String.eqb (further_path path) "") eqn:E.
    + simpl in Hfuel. lia.
    + rewrite IH; [reflexivity|]. simpl in Hfuel. lia.
Qed.

Lemma ensure_segs_fresh segs :
  snd (ensure_segs segs (@fresh_node P)) = FuelExhausted.
Proof.
  induction segs as [|seg rest IH]; [reflexivity|].
  cbn [ensure_segs fresh_node]. unfold ensure_node. simpl.
  rewrite String.eqb_refl. fold (@fresh_node P).
  destruct (ensure_segs rest fresh_node) as [child' c]. exact IH.
Qed.

Lemma ensure_segs_not_returned segs :
  forall o, snd (ensure_segs segs o) <> Returned.
Proof.
  induction segs as [|seg rest IH]; intros o; [discriminate|].
  cbn [ensure_segs]. destruct o as [kind items|q]; [|discriminate].
  destruct (dict_get (ensure_node items (KStr seg)) (KStr seg))
    as [child|]; [|discriminate].
  specialize (IH child). destruct (ensure_segs rest child) as [child' c].
  exact IH.
Qed.

(** A call that raises an exception other than for the frames has changed
    nothing. *)
Lemma ensure_segs_raise segs :
  forall o,
    snd (ensure_segs segs o) <> FuelExhausted ->
    fst (ensure_segs segs o) = o.
Proof.
  induction segs as [|seg rest IH]; intros o H; [reflexivity|].
  cbn [ensure_segs] in *. destruct o as [kind items|q]; [|reflexivity].
  destruct (ensure_node_get _ items (KStr seg))
    as [(_ & Eq & child & Hget)|(_ & Eq & Hget)].
  - rewrite Eq in *. rewrite Hget in *. specialize (IH child).
    destruct (ensure_segs rest child) as [child' c]. simpl in *.
    rewrite (IH H), (dict_set_same _ _ _ _ Hget). reflexivity.
  - rewrite Hget in *. pose proof (ensure_segs_fresh rest) as F.
    destruct (ensure_segs rest fresh_node) as [child' c]. simpl in *.
    congruence.
Qed.

(** On a well-shaped dictionary it ends for the frames only, and the
    shape is kept. *)
Lemma ensure_segs_shape segs :
  forall o um,
    wfb um o = true ->
    wfb um (fst (ensure_segs segs o)) = true /\
    is_defaultdict (fst (ensure_segs segs o)) = is_defaultdict o /\
    snd (ensure_segs segs o) = FuelExhausted.
Proof.
  induction segs as [|seg rest IH]; intros o um H; [auto|].
  cbn [ensure_segs]. destruct o as [kind items|q]; [|discriminate].
  pose proof (wfb_ensure _ _ _ _ seg H) as He.
  destruct (ensure_node_get _ items (KStr seg))
    as [(_ & Eq & child & Hget)|(_ & Eq & Hget)].
  - rewrite Eq in *. rewrite Hget.
    pose proof (wfb_dict_get _ _ _ _ _ _ He Hget) as Hc.
    rewrite entry_ok_str in Hc. apply andb_true_iff in Hc as [Hc1 Hc2].
    destruct (IH child _ Hc1) as (IH1 & IH2 & IH3).
    destruct (ensure_segs rest child) as [child' c]. cbn [fst snd] in *.
    split; [|auto].
    eapply wfb_dict_set; [exact He|]. rewrite entry_ok_str, IH1, IH2.
    exact Hc2.
  - rewrite Hget.
    pose proof (wfb_dict_get _ _ _ _ _ _ He Hget) as Hc.
    rewrite entry_ok_str in Hc. apply andb_true_iff in Hc as [Hc1 Hc2].
    destruct (IH fresh_node _ Hc1) as (IH1 & IH2 & IH3).
    destruct (ensure_segs rest fresh_node) as [child' c].
    cbn [fst snd] in *. split; [|auto].
    eapply wfb_dict_set; [exact He|]. rewrite entry_ok_str, IH1, IH2.
    exact Hc2.
Qed.

(** It adds, removes and moves no payload. *)
Lemma ensure_segs_lookup segs :
  forall o loc x,
    lookup (fst (ensure_segs segs o)) loc = Some (Payload x) <->
    lookup o loc = Some (Payload x).
Proof.
  induction segs as [|seg rest IH]; intros o loc x; [reflexivity|].
  cbn [ensure_segs]. destruct o as [kind items|q]; [|reflexivity].
  destruct (ensure_node_get _ items (KStr seg))
    as [(_ & Eq & child & Hget)|(Hf & Eq & Hget)].
  - rewrite Eq, Hget. specialize (IH child).
    destruct (ensure_segs rest child) as [child' c]. cbn [fst] in *.
    destruct loc as [|k loc]; [simpl; split; discriminate|].
    rewrite lookup_set.
    destruct (key_eqb_spec (KStr seg) k) as [<-|Hne]; [|reflexivity].
    rewrite IH. simpl. rewrite Hget. reflexivity.
  - rewrite Hget. specialize (IH fresh_node).
    destruct (ensure_segs rest fresh_node) as [child' c]. cbn [fst] in *.
    rewrite dict_set_ensure.
    destruct loc as [|k loc]; [simpl; split; discriminate|].
    rewrite lookup_set.
    destruct (key_eqb_spec (KStr seg) k) as [<-|Hne]; [|reflexivity].
    rewrite IH. split; intros H.
    + exfalso. exact (lookup_empty _ _ _ _ H).
    + simpl in H.
      destruct (dict_get items (KStr seg)) as [old|] eqn:G; [|discriminate].
      rewrite (lookup_truthy _ _ _ _ H) in Hf. discriminate.
Qed.

End FrameFacts.

Section StoreFrameFacts.

Variable P : Type.
Variable path_of : P -> string.
Variable method_of : P -> HttpMethod.t.

#[local] Abbreviation put_in := (put_payload_within path_of method_of).

Lemma frames_enough_dec (n : nat) (path : string) :
  {length (segments path) <= n} + {n < length (segments path)}.
Proof. apply le_lt_dec. Qed.

(** With frames for every segment the call is [put]. *)
Lemma put_payload_within_enough n (root : obj P) p :
  length (segments (path_of p)) <= n ->
  put_in n root p = put_payload path_of method_of root p.
Proof.
  intros H. rewrite put_payload_segs. apply nested_put_enough. exact H.
Qed.

Lemma put_payload_within_short n (root : obj P) p :
  n < length (segments (path_of p)) ->
  put_in n root p = ensure_segs (firstn n (segments (path_of p))) root.
Proof. apply nested_put_short. Qed.

(** A call returns only if it had frames for every segment. *)
Lemma put_payload_within_returned n (root : obj P) p :
  snd (put_in n root p) = Returned ->
  length (segments (path_of p)) <= n.
Proof.
  intros H. destruct (frames_enough_dec n (path_of p)) as [Hle|Hlt];
    [exact Hle|].
  rewrite (put_payload_within_short _ _ _ Hlt) in H.
  exfalso. exact (ensure_segs_not_returned _ _ _ H).
Qed.

Lemma put_payload_within_stored n (root : obj P) p :
  snd (put_in n root p) = Returned ->
  stored path_of method_of (fst (put_in n root p)) p.
Proof.
  intros H. pose proof (put_payload_within_returned _ _ _ H) as Hle.
  rewrite (put_payload_within_enough _ _ _ Hle) in *.
  apply put_payload_stored. exact H.
Qed.

Lemma reachable_within_of_reachable (root : obj P) :
  reachable path_of method_of root ->
  reachable_within path_of method_of root.
Proof.
  induction 1 as [|root p _ IH]; [constructor|].
  rewrite <- (put_payload_within_enough
                (length (segments (path_of p))) root p (le_n _)).
  constructor. exact IH.
Qed.

Lemma reachable_within_wf (root : obj P) :
  reachable_within path_of method_of root -> wf root.
Proof.
  induction 1 as [|n root p _ IH]; [reflexivity|].
  destruct (frames_enough_dec n (path_of p)) as [Hle|Hlt].
  - rewrite (put_payload_within_enough _ _ _ Hle), put_payload_segs.
    apply put_segs_shape. exact IH.
  - rewrite (put_payload_within_short _ _ _ Hlt).
    apply ensure_segs_shape. exact IH.
Qed.

Lemma reachable_within_located (root : obj P) :
  reachable_within path_of method_of root -> located path_of method_of root.
Proof.
  induction 1 as [|n root p _ IH]; intros loc x H.
  - exfalso. exact (lookup_empty _ _ _ _ H).
  - destruct (frames_enough_dec n (path_of p)) as [Hle|Hlt].
    + rewrite (put_payload_within_enough _ _ _ Hle), put_payload_segs in H.
      apply put_segs_lookup_inv in H as [[-> ->]|H]; [reflexivity|auto].
    + rewrite (put_payload_within_short _ _ _ Hlt) in H.
      apply ensure_segs_lookup in H. auto.
Qed.

(** How a call can end in a state reached by calls of [put], and when. *)
Lemma put_payload_within_completion n (root : obj P) p :
  reachable_within path_of method_of root ->
  (snd (put_in n root p) = Returned \/
   snd (put_in n root p) = Raised KeyError \/
   snd (put_in n root p) = FuelExhausted) /\
  (snd (put_in n root p) = FuelExhausted <->
   n < length (segments (path_of p))) /\
  (length (segments (path_of p)) <= n ->
   last (segments (path_of p)) "" <> "methods" ->
   snd (put_in n root p) = Returned).
Proof.
  intros R. pose proof (reachable_within_wf _ R) as Hwf.
  destruct (frames_enough_dec n (path_of p)) as [Hle|Hlt].
  - rewrite (put_payload_within_enough _ _ _ Hle), put_payload_segs.
    pose proof (put_segs_fuel _ (segments (path_of p)) root (method_of p) p)
      as Hfuel.
    destruct (put_segs_completion _ (segments (path_of p)) root
                (method_of p) p false Hwf) as [H|(H & [(E & _)|Hlast])].
    + split; [auto|]. split; [|auto]. rewrite H. split; [discriminate|lia].
    + exfalso. exact (segments_not_nil _ E).
    + split; [auto|]. split; [|intros _ Hne; contradiction].
      rewrite H. split; [discriminate|lia].
  - rewrite (put_payload_within_short _ _ _ Hlt).
    destruct (ensure_segs_shape _ (firstn n (segments (path_of p))) root
                false Hwf) as (_ & _ & H).
    rewrite H. split; [auto|]. split; [tauto|]. intros Hle. lia.
Qed.

(** What a call that does not return leaves. *)
Lemma put_payload_within_raise n (root : obj P) p :
  snd (put_in n root p) <> Returned ->
  (snd (put_in n root p) <> FuelExhausted -> fst (put_in n root p) = root) /\
  (forall loc x,
      lookup (fst (put_in n root p)) loc = Some (Payload x) <->
      lookup root loc = Some (Payload x)).
Proof.
  intros H. destruct (frames_enough_dec n (path_of p)) as [Hle|Hlt].
  - rewrite (put_payload_within_enough _ _ _ Hle) in *.
    rewrite (put_payload_raise _ _ _ _ _ H). split; [reflexivity|].
    reflexivity.
  - rewrite (put_payload_within_short _ _ _ Hlt) in *. split.
    + apply ensure_segs_raise.
    + apply ensure_segs_lookup.
Qed.

End StoreFrameFacts.

(** ** TestExecutionResultMap *)

Module ResultMapFacts.
Import TestExecutionResultMap.

Lemma result_put_is_put_payload self test_result :
  put self test_result = put_payload path_of method_of self test_result.
Proof. reflexivity. Qed.

(** The recursion of [_get_parent_test_result] is the walk along the
    segments. *)
Lemma get_parent_walk (fuel : nat) :
  forall current_dict sample path current_parent,
    frames path <= fuel ->
    _get_parent_test_result fuel current_dict sample path current_parent
    = parent_walk (segments path) current_dict current_parent.
Proof.
  induction fuel as [|fuel IH]; intros d sample path cp Hfuel.
  - pose proof (frames_pos path). lia.
  - rewrite segments_step. cbn [_get_parent_test_result parent_walk].
    destruct d as [kind items|q]; [|reflexivity].
    destruct (match dict_get items methods_key with
              | Some o => o
              | None => Dict PlainDict []
              end) as [mk methods|q]; [|reflexivity].
    destruct (negb (truthy (dict_get items (KStr (current_path path)))));
      [reflexivity|].
    destruct (String.eqb (further_path path) "") eqn:E.
    + destruct (dict_get items (KStr (current_path path))); reflexivity.
    + destruct (dict_get items (KStr (current_path path))); [|reflexivity].
      apply IH. rewrite (frames_step _ E) in Hfuel. lia.
Qed.

Lemma get_parent_result_walk self sample :
  get_parent_result self sample
  = parent_walk (segments (name sample)) self None.
Proof. apply get_parent_walk. lia. Qed.

(** On a well-shaped dictionary the walk returns. *)
Lemma parent_walk_total segs :
  forall d um cp, wfb um d = true -> exists r, parent_walk segs d cp = Ok r.
Proof.
  induction segs as [|seg rest IH]; intros d um cp H; [simpl; eauto|].
  cbn [parent_walk]. destruct d as [kind items|q]; [|discriminate].
  assert (exists mk methods,
             match dict_get items methods_key with
             | Some o => o
             | None => Dict PlainDict []
             end = Dict mk methods) as (mk & methods & ->).
  { destruct (dict_get items methods_key) as [o|] eqn:G; [|eauto].
    destruct (wfb_child _ _ _ _ _ _ H G) as [Ho _].
    apply wfb_is_dict in Ho. exact Ho. }
  destruct (negb (truthy (dict_get items (KStr seg)))); [eauto|].
  destruct (dict_get items (KStr seg)) as [next|] eqn:G; [|eauto].
  destruct (wfb_child _ _ _ _ _ _ H G) as [Hn _]. eapply IH. exact Hn.
Qed.

(** What the walk returns is the running value it started with, or the
    object in the POST slot of a proper prefix of the segments. *)
Lemma parent_walk_inv segs :
  forall d cp r,
    parent_walk segs d cp = Ok (Some r) ->
    cp = Some r \/
    exists q, strict_prefix q segs /\
              lookup d (slot q HttpMethod.post) = Some r.
Proof.
  induction segs as [|seg rest IH]; intros d cp r H.
  - simpl in H. left. congruence.
  - cbn [parent_walk] in H. destruct d as [kind items|q]; [|discriminate].
    assert (forall r',
      match (match dict_get items methods_key with
             | Some o => o
             | None => Dict PlainDict []
             end) with
      | Dict _ methods =>
          match dict_get methods (KMethod HttpMethod.post) with
          | Some o => Some o
          | None => cp
          end = Some r'
      | Payload _ => False
      end ->
      cp = Some r' \/
      exists q, strict_prefix q (seg :: rest) /\
                lookup (Dict kind items) (slot q HttpMethod.post) = Some r')
      as Hown.
    { intros r' Hr. destruct (dict_get items methods_key) as [[mk ms|q]|] eqn:G.
      - destruct (dict_get ms (KMethod HttpMethod.post)) as [o|] eqn:G2;
          [|auto].
        right. exists []. split.
        + exists (seg :: rest). split; [discriminate|reflexivity].
        + unfold slot. simpl. rewrite G, G2. exact Hr.
      - contradiction.
      - simpl in Hr. auto. }
    destruct (match dict_get items methods_key with
              | Some o => o
              | None => Dict PlainDict []
              end) as [mk methods|q]; [|discriminate].
    destruct (negb (truthy (dict_get items (KStr seg)))).
    + apply Hown. injection H as H. exact H.
    + destruct (dict_get items (KStr seg)) as [next|] eqn:G.
      * apply IH in H as [H|(q & (rest' & Hne & ->) & Hq)].
        -- apply Hown. exact H.
        -- right. exists (seg :: q). split.
           ++ exists rest'. split; [exact Hne|reflexivity].
           ++ rewrite slot_cons. simpl. rewrite G. exact Hq.
      * apply Hown. injection H as H. exact H.
Qed.

Lemma lookup_nonempty_truthy (P : Type) (o : obj P) k loc r :
  lookup o (k :: loc) = Some r -> truthy (Some o) = true.
Proof. destruct o as [kind [|kv items]|q]; simpl; congruence. Qed.

(** The walk for [q ++ [c]] returns what is in the POST slot of [q]. *)
Lemma parent_walk_nearest q :
  forall d um cp c r,
    wfb um d = true ->
    lookup d (slot q HttpMethod.post) = Some r ->
    parent_walk (q ++ [c]) d cp = Ok (Some r).
Proof.
  induction q as [|seg q IH]; intros d um cp c r Hwf H.
  - unfold slot in H. simpl in H. cbn [app parent_walk].
    destruct d as [kind items|x]; [|discriminate].
    destruct (dict_get items methods_key) as [[mk methods|x]|];
      [|discriminate|discriminate].
    destruct (dict_get methods (KMethod HttpMethod.post)) as [o|];
      [|discriminate].
    injection H as ->.
    destruct (negb (truthy (dict_get items (KStr c)))); [reflexivity|].
    destruct (dict_get items (KStr c)); reflexivity.
  - rewrite slot_cons in H. cbn [app parent_walk].
    destruct d as [kind items|x]; [|discriminate].
    simpl in H. destruct (dict_get items (KStr seg)) as [next|] eqn:G;
      [|discriminate].
    assert (exists mk methods,
               match dict_get items methods_key with
               | Some o => o
               | None => Dict PlainDict []
               end = Dict mk methods) as (mk & methods & ->).
    { destruct (dict_get items methods_key) as [o|] eqn:G2; [|eauto].
      destruct (wfb_child _ _ _ _ _ _ Hwf G2) as [Ho _].
      apply wfb_is_dict in Ho. exact Ho. }
    assert (truthy (Some next) = true) as ->.
    { destruct q; eapply lookup_nonempty_truthy; exact H. }
    cbn [negb]. destruct (wfb_child _ _ _ _ _ _ Hwf G) as [Hn _].
    eapply IH; eassumption.
Qed.

(** An object kept under an [HttpMethod] key is a payload. *)
Lemma lookup_method_payload (P : Type) loc :
  forall (d : obj P) um m r,
    wfb um d = true ->
    lookup d (loc ++ [KMethod m]) = Some r ->
    exists p, r = Payload p.
Proof.
  induction loc as [|k loc IH]; intros d um m r Hwf H.
  - simpl in H. destruct d as [kind items|x]; [|discriminate].
    destruct (dict_get items (KMethod m)) as [o|] eqn:G; [|discriminate].
    injection H as ->.
    pose proof (wfb_dict_get _ _ _ _ _ _ Hwf G) as Hk. unfold entry_ok in Hk.
    simpl in Hk. apply andb_true_iff in Hk as [_ Hk].
    destruct r; [discriminate|eauto].
  - simpl in H. destruct d as [kind items|x]; [|discriminate].
    destruct (dict_get items k) as [o|] eqn:G; [|discriminate].
    pose proof (wfb_dict_get _ _ _ _ _ _ Hwf G) as Hk. unfold entry_ok in Hk.
    destruct k as [s|m']; simpl in Hk.
    + apply andb_true_iff in Hk as [Hk _]. eapply IH; eassumption.
    + apply andb_true_iff in Hk as [_ Hk]. destruct o; [discriminate|].
      destruct loc; discriminate.
Qed.

Lemma slot_method_payload (P : Type) (d : obj P) q m r :
  wf d -> lookup d (slot q m) = Some r -> exists p, r = Payload p.
Proof.
  unfold slot. intros Hwf H.
  change [methods_key; KMethod m] with ([methods_key] ++ [KMethod m]) in H.
  rewrite app_assoc in H. eapply lookup_method_payload; eassumption.
Qed.

(** *** Segments of a path that ends with a valid segment *)

Lemma effective_length parts : length (effective parts) <= length parts.
Proof.
  induction parts as [|p rest IH]; simpl; [lia|].
  destruct (String.eqb (Str.join "/" rest) ""); simpl; lia.
Qed.

Lemma effective_app_last parts c :
  c <> "" -> effective (parts ++ [c]) = parts ++ [c].
Proof.
  intros Hc. induction parts as [|p rest IH]; [reflexivity|].
  cbn [app effective].
  destruct (String.eqb_spec (Str.join "/" (rest ++ [c])) "") as [E|_].
  - apply join_eq_empty in E as [E|E].
    + destruct rest; discriminate.
    + destruct rest as [|? [|? ?]]; inversion E; congruence.
  - rewrite IH. reflexivity.
Qed.

Lemma valid_segment_spec c :
  valid_segment c = true -> c <> "" /\ Str.free_of slash c = true.
Proof.
  unfold valid_segment. intros H. apply andb_true_iff in H as [H1 H2].
  split; [|exact H2]. intros ->. discriminate.
Qed.

Lemma segments_child path c :
  valid_segment c = true ->
  segments (path ++ "/" ++ c)%string = path_parts path ++ [c].
Proof.
  intros H. apply valid_segment_spec in H as [Hc Hf].
  unfold segments, path_parts. rewrite split_app, (split_of_free _ _ Hf).
  apply effective_app_last. exact Hc.
Qed.

End ResultMapFacts.

(** ** Claims about TestExecutionResultMap *)

Section ResultMapClaims.
Import TestExecutionResultMap ResultMapFacts.

Lemma append_assoc (a b c : string) :
  ((a ++ b) ++ c = a ++ b ++ c)%string.
Proof.
  induction a as [|x a IH]; simpl; [reflexivity|].
  rewrite IH. reflexivity.
Qed.

Lemma strict_prefix_neq (q l : list string) : strict_prefix q l -> q <> l.
Proof.
  intros (rest & Hne & ->) E. apply (f_equal (@length string)) in E.
  rewrite length_app in E. destruct rest; [congruence|simpl in E; lia].
Qed.

Lemma reachable_results : reachable Examples.results.
Proof.
  unfold Examples.results. repeat apply reachable_put.
  apply reachable_init.
Qed.

(** C3.  When POST results are recorded for the paths [a] and [a/b], the
    parent result of any sample at [a/b/c] ([b] and [c] path segments) is
    the one recorded for [a/b], the nearest ancestor, and not the one
    recorded for [a]. *)
Theorem get_parent_result_nearest_wins :
  forall (self : t) (a b c : string) (r_a r_ab : ApiTestResult)
         (child : CodeSample),
    reachable self ->
    valid_segment b = true ->
    valid_segment c = true ->
    recorded_post self a r_a ->
    recorded_post self (a ++ "/" ++ b) r_ab ->
    name child = (a ++ "/" ++ b ++ "/" ++ c)%string ->
    get_parent_result self child = Ok (Some (Payload r_ab)) /\ r_ab <> r_a.
Proof.
  intros self a b c r_a r_ab child R Hb Hc Ha Hab Hname. split.
  - rewrite get_parent_result_walk, Hname.
    assert ((a ++ "/" ++ b ++ "/" ++ c)%string
            = ((a ++ "/" ++ b) ++ "/" ++ c)%string) as ->
      by (rewrite append_assoc; reflexivity).
    rewrite (segments_child _ _ Hc).
    unfold recorded_post in Hab. rewrite (segments_child _ _ Hb) in Hab.
    unfold path_parts at 1. rewrite split_app.
    apply valid_segment_spec in Hb as [_ Hb].
    rewrite (split_of_free _ _ Hb).
    eapply parent_walk_nearest; [exact (reachable_wf _ _ _ _ R)|exact Hab].
  - intros ->. unfold recorded_post in *.
    pose proof (reachable_located _ _ _ _ R _ _ Ha) as La.
    pose proof (reachable_located _ _ _ _ R _ _ Hab) as Lab.
    rewrite <- Lab in La. apply slot_inj in La as [E _].
    rewrite (segments_child _ _ Hb) in E.
    apply (f_equal (@length string)) in E. rewrite length_app in E.
    pose proof (effective_length (path_parts a)). unfold segments in E.
    simpl in E. lia.
Qed.

Lemma get_parent_result_nearest_wins_witness :
  get_parent_result Examples.results
    (Examples.code Examples.js "items/7/parts" HttpMethod.get)
  = Ok (Some (Payload Examples.post_item_parts))
  /\ Examples.post_item_parts <> Examples.post_items.
Proof.
  apply (get_parent_result_nearest_wins Examples.results "items" "7" "parts"
           Examples.post_items Examples.post_item_parts).
  - exact reachable_results.
  - reflexivity.
  - reflexivity.
  - reflexivity.
  - reflexivity.
  - reflexivity.
Defined.

Lemma get_parent_result_returns self child :
  reachable self -> exists r, get_parent_result self child = Ok r.
Proof.
  intros R. rewrite get_parent_result_walk. eapply parent_walk_total.
  exact (reachable_wf _ _ _ _ R).
Qed.

(** What [get_parent_result] returns in a reachable state. *)
Lemma get_parent_result_payload self child o :
  reachable self ->
  get_parent_result self child = Ok (Some o) ->
  exists parent,
    o = Payload parent /\
    http_method (sample parent) = HttpMethod.post /\
    recorded_post self (name (sample parent)) parent /\
    strict_prefix (segments (name (sample parent))) (segments (name child)).
Proof.
  intros R H.
  pose proof (reachable_wf _ _ _ _ R) as Hwf.
  pose proof (reachable_located _ _ _ _ R) as L.
  rewrite get_parent_result_walk in H.
  apply parent_walk_inv in H as [H|(q & Hq & H)]; [discriminate|].
  destruct (slot_method_payload _ _ _ _ _ Hwf H) as [parent ->].
  pose proof (L _ _ H) as E. apply slot_inj in E as [-> E].
  exists parent. unfold recorded_post. repeat split; auto.
Qed.

(** C4.  In every reachable state [get_parent_result] returns, and what it
    returns is [None] or a POST result that is recorded for a path whose
    segments are a proper prefix of the segments of the sample's path; a
    result recorded for the sample's own path is never returned. *)
Theorem get_parent_result_strict_ancestor :
  forall (self : t) (child : CodeSample),
    reachable self ->
    (exists r, get_parent_result self child = Ok r) /\
    (forall o, get_parent_result self child = Ok (Some o) ->
       exists parent,
         o = Payload parent /\
         http_method (sample parent) = HttpMethod.post /\
         recorded_post self (name (sample parent)) parent /\
         strict_prefix (segments (name (sample parent)))
                       (segments (name child)) /\
         name (sample parent) <> name child) /\
    (forall own,
       segments (name (sample own)) = segments (name child) ->
       get_parent_result self child <> Ok (Some (Payload own))).
Proof.
  intros self child R. split; [|split].
  - apply get_parent_result_returns. exact R.
  - intros o H.
    destruct (get_parent_result_payload self child o R H)
      as (parent & -> & Hm & Hr & Hp).
    exists parent. repeat split; auto.
    intros E. apply (strict_prefix_neq _ _ Hp). rewrite E. reflexivity.
  - intros own E H.
    destruct (get_parent_result_payload self child _ R H)
      as (parent & [= <-] & _ & _ & Hp).
    exact (strict_prefix_neq _ _ Hp E).
Qed.

Lemma get_parent_result_strict_ancestor_witness :
  get_parent_result Examples.results
    (Examples.code Examples.js "items/7" HttpMethod.post)
  <> Ok (Some (Payload Examples.post_item_parts)).
Proof.
  apply (get_parent_result_strict_ancestor Examples.results
           (Examples.code Examples.js "items/7" HttpMethod.post)
           reachable_results).
  reflexivity.
Defined.

(** C7.  [get_parent_body] returns [{}] whenever no POST result is recorded
    for a proper prefix of the sample's path, in particular for every
    sample whose path is a single segment, and whenever the parent result
    carries no body. *)
Theorem get_parent_body_empty :
  (forall (self : t) (child : CodeSample),
      reachable self ->
      (forall q parent,
          strict_prefix q (segments (name child)) ->
          lookup self (slot q HttpMethod.post) <> Some (Payload parent)) ->
      get_parent_result self child = Ok None /\
      get_parent_body self child = Ok []) /\
  (forall (self : t) (child : CodeSample),
      reachable self ->
      Str.free_of slash (name child) = true ->
      get_parent_result self child = Ok None /\
      get_parent_body self child = Ok []) /\
  (forall (self : t) (child : CodeSample) (parent : ApiTestResult),
      get_parent_result self child = Ok (Some (Payload parent)) ->
      json_body parent = None ->
      get_parent_body self child = Ok []).
Proof.
  assert (forall (self : t) (child : CodeSample),
      reachable self ->
      (forall q parent,
          strict_prefix q (segments (name child)) ->
          lookup self (slot q HttpMethod.post) <> Some (Payload parent)) ->
      get_parent_result self child = Ok None /\
      get_parent_body self child = Ok []) as Hnone.
  { intros self child R Hno.
    assert (get_parent_result self child = Ok None) as E.
    { pose proof (reachable_wf _ _ _ _ R) as Hwf.
      rewrite get_parent_result_walk.
      destruct (parent_walk_total (segments (name child)) self false None Hwf)
        as [[o|] H]; [|exact H].
      exfalso. pose proof H as H'.
      apply parent_walk_inv in H' as [H'|(q & Hq & H')]; [discriminate|].
      destruct (slot_method_payload _ _ _ _ _ Hwf H') as [parent ->].
      exact (Hno _ _ Hq H'). }
    split; [exact E|]. unfold get_parent_body. rewrite E. reflexivity. }
  split; [exact Hnone|split].
  - intros self child R Hfree. apply Hnone; [exact R|].
    intros q parent (rest & Hne & E) H.
    unfold segments, path_parts in E. rewrite (split_of_free _ _ Hfree) in E.
    simpl in E. destruct q as [|s q].
    + pose proof (reachable_located _ _ _ _ R _ _ H) as L.
      apply slot_inj in L as [L _]. symmetry in L.
      exact (segments_not_nil _ L).
    + destruct q; destruct rest; simpl in E; congruence.
  - intros self child parent H Hbody. unfold get_parent_body.
    rewrite H, Hbody. reflexivity.
Qed.

Lemma get_parent_body_empty_witness :
  get_parent_body Examples.results
    (Examples.code Examples.js "items" HttpMethod.get) = Ok []
  /\ get_parent_body Examples.results
       (Examples.code Examples.js "orders/5" HttpMethod.get) = Ok [].
Proof.
  destruct get_parent_body_empty as (_ & Hsingle & Hbody). split.
  - apply (Hsingle Examples.results
             (Examples.code Examples.js "items" HttpMethod.get)
             reachable_results).
    reflexivity.
  - apply (Hbody Examples.results
             (Examples.code Examples.js "orders/5" HttpMethod.get)
             Examples.post_orders); reflexivity.
Defined.

End ResultMapClaims.

(** ** CodeSamplesTree: the traversal *)

Module TreeFacts.
Import CodeSamplesTree.

Lemma tree_put_is_put_payload self sample :
  put self sample = put_payload path_of http_method self sample.
Proof. reflexivity. Qed.

Lemma dfs_Dict kind items :
  dfs (Dict kind items)
  = own (methods_of items) [HttpMethod.post; HttpMethod.get; HttpMethod.put]
    ++ kids items ++ own (methods_of items) [HttpMethod.delete].
Proof. reflexivity. Qed.

Lemma kids_cons k v items :
  kids ((k, v) :: items)
  = (if key_eqb k methods_key then [] else dfs v) ++ kids items.
Proof. reflexivity. Qed.

Lemma kids_app items1 items2 :
  kids (items1 ++ items2) = kids items1 ++ kids items2.
Proof. apply flat_map_app. Qed.

Lemma fold_append_own methods ms :
  forall acc, fold_left (append_method methods) ms acc = acc ++ own methods ms.
Proof.
  induction ms as [|m ms IH]; intros acc; simpl.
  - rewrite app_nil_r. reflexivity.
  - rewrite IH. unfold append_method.
    destruct (dict_get methods (KMethod m)); [|reflexivity].
    rewrite <- app_assoc. reflexivity.
Qed.

Lemma append_method_own methods acc m :
  append_method methods acc m = acc ++ own methods [m].
Proof. exact (fold_append_own methods [m] acc). Qed.

(** The object under ['methods'] of a well-shaped dictionary. *)
Lemma methods_entry um kind (items : list (key * t)) :
  wfb um (Dict kind items) = true ->
  exists mk,
    match dict_get items methods_key with
    | Some o => o
    | None => Dict PlainDict []
    end = Dict mk (methods_of items) /\
    forallb (entry_ok true) (methods_of items) = true /\
    uniqueb (map fst (methods_of items)) = true.
Proof.
  intros H. unfold methods_of.
  destruct (dict_get items methods_key) as [o|] eqn:G.
  - destruct (wfb_child _ _ _ _ _ _ H G) as [Ho _].
    destruct o as [mk methods|q]; [|discriminate].
    exists mk. rewrite wfb_Dict in Ho. apply andb_true_iff in Ho as [H1 H2].
    auto.
  - exists PlainDict. auto.
Qed.

(** On a well-shaped dictionary [_sort_samples] returns, having appended
    [dfs]. *)
Lemma sort_samples_dfs :
  forall endpoints,
    wfb false endpoints = true ->
    forall result_list,
      _sort_samples endpoints result_list = Ok (result_list ++ dfs endpoints).
Proof.
  induction endpoints as [kind items IH|p] using obj_induction;
    intros Hwf acc; [|discriminate].
  cbn [_sort_samples]. rewrite dfs_Dict.
  destruct (methods_entry _ _ _ Hwf) as (mk & -> & _).
  rewrite fold_append_own.
  assert (forall its acc',
            Forall (fun kv => wfb false (snd kv) = true ->
                      forall result_list,
                        _sort_samples (snd kv) result_list
                        = Ok (result_list ++ dfs (snd kv))) its ->
            forallb (entry_ok false) its = true ->
            for_further_paths _sort_samples its acc'
            = Ok (acc' ++ kids its)) as Hloop.
  { induction its as [|[k v] its IHits]; intros acc' HF Hok.
    - simpl. rewrite app_nil_r. reflexivity.
    - inversion HF as [|? ? Hv HF']; subst. simpl in Hok.
      apply andb_true_iff in Hok as [Hk Hok].
      rewrite kids_cons. cbn [for_further_paths].
      destruct (key_eqb_spec k methods_key) as [->|Hne]; cbn [negb].
      + apply IHits; assumption.
      + destruct k as [seg|m]; [|discriminate].
        rewrite entry_ok_str in Hk. apply andb_true_iff in Hk as [Hk _].
        destruct (String.eqb_spec seg "methods") as [->|_];
          [exfalso; apply Hne; reflexivity|].
        simpl in Hv. rewrite (Hv Hk), (IHits _ HF' Hok), app_assoc.
        reflexivity. }
  rewrite wfb_Dict in Hwf. apply andb_true_iff in Hwf as [_ Hok].
  rewrite (Hloop items _ IH Hok), append_method_own, <- !app_assoc.
  reflexivity.
Qed.

Lemma list_sorted_samples_dfs self :
  wf self -> list_sorted_samples self = Ok (dfs self).
Proof. intros H. exact (sort_samples_dfs self H []). Qed.

(** *** What is emitted and what is not *)

Lemma in_own methods ms o :
  In o (own methods ms) <->
  exists m, In m ms /\ dict_get methods (KMethod m) = Some o.
Proof.
  unfold own. rewrite in_flat_map. split; intros (m & Hm & H); exists m;
    (split; [exact Hm|]).
  - destruct (dict_get methods (KMethod m)); simpl in H; [|contradiction].
    destruct H as [->|[]]. reflexivity.
  - rewrite H. left. reflexivity.
Qed.

Lemma in_kids items o :
  In o (kids items) <->
  exists k v, In (k, v) items /\ k <> methods_key /\ In o (dfs v).
Proof.
  unfold kids. rewrite in_flat_map. split.
  - intros ([k v] & Hin & H). simpl in H.
    destruct (key_eqb_spec k methods_key); [contradiction|]. eauto.
  - intros (k & v & Hin & Hne & H). exists (k, v). split; [exact Hin|].
    simpl. rewrite (key_eqb_neq _ _ Hne). exact H.
Qed.

Lemma lookup_own kind (items : list (key * t)) m o :
  dict_get (methods_of items) (KMethod m) = Some o ->
  lookup (Dict kind items) (slot [] m) = Some o.
Proof.
  unfold methods_of, slot. simpl.
  destruct (dict_get items methods_key) as [[mk methods|q]|]; simpl;
    try discriminate.
  intros ->. reflexivity.
Qed.

Lemma own_lookup kind (items : list (key * t)) m o :
  lookup (Dict kind items) (slot [] m) = Some o ->
  dict_get (methods_of items) (KMethod m) = Some o.
Proof.
  unfold methods_of, slot. simpl.
  destruct (dict_get items methods_key) as [[mk methods|q]|]; simpl;
    try discriminate.
  destruct (dict_get methods (KMethod m)); congruence.
Qed.

Lemma ordered_four m : HttpMethod.ordered m = true <-> In m four.
Proof.
  unfold four. destruct m; simpl; split; intros H; auto; try discriminate.
  repeat destruct H as [H|H]; discriminate || contradiction.
Qed.

(** Whatever is emitted sits in the slot of an ordered method, on a path
    without the segment ['methods']. *)
Lemma dfs_in_slot :
  forall endpoints o,
    wfb false endpoints = true ->
    In o (dfs endpoints) ->
    exists q m,
      ~ In "methods" q /\ HttpMethod.ordered m = true /\
      lookup endpoints (slot q m) = Some o.
Proof.
  induction endpoints as [kind items IH|p] using obj_induction;
    intros o Hwf Hin; [|discriminate].
  rewrite dfs_Dict in Hin. rewrite !in_app_iff in Hin.
  assert (forall ms, incl ms four -> In o (own (methods_of items) ms) ->
            exists q m,
              ~ In "methods" q /\ HttpMethod.ordered m = true /\
              lookup (Dict kind items) (slot q m) = Some o) as Hown.
  { intros ms Hms H. apply in_own in H as (m & Hm & H).
    exists [], m. split; [auto|]. split.
    - apply ordered_four. auto.
    - apply lookup_own. exact H. }
  destruct Hin as [H|[H|H]].
  - apply (Hown [HttpMethod.post; HttpMethod.get; HttpMethod.put]); [|exact H].
    unfold four. intros m Hm. simpl in *. tauto.
  - apply in_kids in H as (k & v & Hkv & Hne & H).
    destruct (wfb_false_keys _ _ _ _ _ Hwf Hkv) as [seg ->].
    rewrite Forall_forall in IH. specialize (IH _ Hkv). simpl in IH.
    rewrite wfb_Dict in Hwf. apply andb_true_iff in Hwf as [Hu Hok].
    pose proof (in_dict_get _ _ _ _ Hu Hkv) as G.
    rewrite forallb_forall in Hok. specialize (Hok _ Hkv).
    rewrite entry_ok_str in Hok. apply andb_true_iff in Hok as [Hv _].
    destruct (String.eqb_spec seg "methods") as [->|Hseg];
      [exfalso; apply Hne; reflexivity|].
    destruct (IH o Hv H) as (q & m & Hq & Hm & Hl).
    exists (seg :: q), m. split; [|split; [exact Hm|]].
    + simpl. intros [E|E]; [congruence|contradiction].
    + rewrite slot_cons. simpl. rewrite G. exact Hl.
  - apply (Hown [HttpMethod.delete]); [|exact H].
    unfold four. intros m Hm. simpl in *. tauto.
Qed.

(** Conversely, what sits in such a slot is emitted. *)
Lemma slot_in_dfs q :
  forall endpoints m o,
    wfb false endpoints = true ->
    ~ In "methods" q -> HttpMethod.ordered m = true ->
    lookup endpoints (slot q m) = Some o ->
    In o (dfs endpoints).
Proof.
  induction q as [|seg q IH]; intros d m o Hwf Hq Hm H.
  - destruct d as [kind items|p]; [|discriminate].
    apply own_lookup in H. rewrite dfs_Dict, !in_app_iff.
    apply ordered_four in Hm. unfold four in Hm. simpl in Hm.
    destruct Hm as [<-|[<-|[<-|[<-|[]]]]].
    + left. apply in_own. exists HttpMethod.post. simpl. auto.
    + left. apply in_own. exists HttpMethod.get. simpl. auto.
    + left. apply in_own. exists HttpMethod.put. simpl. auto.
    + right. right. apply in_own. exists HttpMethod.delete. simpl. auto.
  - destruct d as [kind items|p]; [|discriminate].
    rewrite slot_cons in H. simpl in H.
    destruct (dict_get items (KStr seg)) as [child|] eqn:G; [|discriminate].
    destruct (wfb_child _ _ _ _ _ _ Hwf G) as [Hc _].
    assert (seg <> "methods") as Hseg
      by (intros ->; apply Hq; left; reflexivity).
    destruct (String.eqb_spec seg "methods"); [contradiction|].
    rewrite dfs_Dict, !in_app_iff. right. left. apply in_kids.
    exists (KStr seg), child. split; [exact (dict_get_in _ _ _ _ G)|].
    split; [unfold methods_key; congruence|].
    apply (IH child m o Hc); [|exact Hm|exact H].
    intros Hin. apply Hq. right. exact Hin.
Qed.

Lemma emitted_samples_payload self o :
  reachable self -> In o (dfs self) -> exists s, o = Payload s.
Proof.
  intros R Hin. pose proof (reachable_wf _ _ _ _ R) as Hwf.
  destruct (dfs_in_slot self o Hwf Hin) as (q & m & _ & _ & H).
  exact (ResultMapFacts.slot_method_payload _ _ _ _ _ Hwf H).
Qed.

End TreeFacts.

(** ** Claims about what [list_sorted_samples] leaves out *)

Section TreeClaims.
Import CodeSamplesTree TreeFacts.

Lemma reachable_tree : reachable Examples.tree.
Proof. apply reachable_put_all. apply reachable_init. Qed.

Lemma effective_in (x : string) (parts : list string) :
  x <> "" -> In x parts -> In x (effective parts).
Proof.
  intros Hx. induction parts as [|p rest IH]; intros Hin; [contradiction|].
  simpl. destruct (String.eqb_spec (Str.join "/" rest) "") as [E|_].
  - destruct Hin as [->|Hin]; [left; reflexivity|].
    apply join_eq_empty in E as [-> | ->]; [contradiction|].
    destruct Hin as [<-|[]]. congruence.
  - destruct Hin as [->|Hin]; [left; reflexivity|right; auto].
Qed.

(** What a reachable tree emits are stored samples with an ordered method
    and no segment ['methods'] on their path. *)
Lemma emitted_samples self o :
  reachable self -> In o (dfs self) ->
  exists s,
    o = Payload s /\ stored path_of http_method self s /\
    HttpMethod.ordered (http_method s) = true /\
    ~ In "methods" (segments (path_of s)).
Proof.
  intros R Hin. pose proof (reachable_wf _ _ _ _ R) as Hwf.
  destruct (dfs_in_slot self o Hwf Hin) as (q & m & Hq & Hm & H).
  destruct (ResultMapFacts.slot_method_payload _ _ _ _ _ Hwf H) as [s ->].
  pose proof (reachable_located _ _ _ _ R _ _ H) as L.
  apply slot_inj in L as [-> ->]. exists s. unfold stored. auto.
Qed.

(** The same of the states reached by calls of [put] that had any number
    of frames left. *)
Lemma emitted_samples_within self o :
  reachable_within self -> In o (dfs self) ->
  exists s,
    o = Payload s /\ stored path_of http_method self s /\
    HttpMethod.ordered (http_method s) = true /\
    ~ In "methods" (segments (path_of s)).
Proof.
  intros R Hin. pose proof (reachable_within_wf _ _ _ _ R) as Hwf.
  destruct (dfs_in_slot self o Hwf Hin) as (q & m & Hq & Hm & H).
  destruct (ResultMapFacts.slot_method_payload _ _ _ _ _ Hwf H) as [s ->].
  pose proof (reachable_within_located _ _ _ _ R _ _ H) as L.
  apply slot_inj in L as [-> ->]. exists s. unfold stored. auto.
Qed.

Lemma reachable_within_tree : reachable_within Examples.tree.
Proof. apply reachable_within_of_reachable. exact reachable_tree. Qed.

(** C9.  A sample whose method is none of POST, GET, PUT, DELETE is stored
    by [put]: in every state reached by calls of [put] the call returns
    when it has a frame for each segment of the key and the last segment is
    not ['methods'], and a call that returns has stored the sample.  No
    tree in such a state ever lists the sample. *)
Theorem other_methods_stored_not_listed :
  forall (frames_left : nat) (self : t) (s : CodeSample),
    reachable_within self ->
    HttpMethod.ordered (http_method s) = false ->
    (length (segments (path_of s)) <= frames_left ->
     last (segments (path_of s)) "" <> "methods" ->
     snd (put_within frames_left self s) = Returned) /\
    (snd (put_within frames_left self s) = Returned ->
     stored path_of http_method (fst (put_within frames_left self s)) s) /\
    (forall later, reachable_within later ->
       exists out, list_sorted_samples later = Ok out /\
                   ~ In (Payload s) out).
Proof.
  intros n self s R Hm. split; [|split].
  - intros Hle Hlast.
    apply (put_payload_within_completion _ path_of http_method n self s R);
      assumption.
  - apply (put_payload_within_stored _ path_of http_method).
  - intros later R'. exists (dfs later). split.
    + apply list_sorted_samples_dfs.
      exact (reachable_within_wf _ _ _ _ R').
    + intros Hin.
      destruct (emitted_samples_within _ _ R' Hin)
        as (s' & [= <-] & _ & Hm' & _).
      congruence.
Qed.

Lemma other_methods_stored_not_listed_witness :
  snd (put_within 3 Examples.tree MoreExamples.patch_item) = Returned /\
  stored path_of http_method
    (fst (put_within 3 Examples.tree MoreExamples.patch_item))
    MoreExamples.patch_item /\
  exists out,
    list_sorted_samples
      (fst (put_within 3 Examples.tree MoreExamples.patch_item)) = Ok out /\
    ~ In (Payload MoreExamples.patch_item) out.
Proof.
  destruct (other_methods_stored_not_listed 3 Examples.tree
              MoreExamples.patch_item reachable_within_tree eq_refl)
    as (Hreturns & Hstored & Hnever).
  assert (snd (put_within 3 Examples.tree MoreExamples.patch_item)
          = Returned) as H.
  { apply Hreturns; [vm_compute; lia|vm_compute; discriminate]. }
  split; [exact H|]. split; [exact (Hstored H)|].
  apply Hnever. constructor. exact reachable_within_tree.
Defined.

(** C10.  A sample whose key [lang.value + name] has a part equal to
    ['methods'] is listed by no reachable tree. *)
Theorem methods_segment_not_listed :
  forall (self : t) (s : CodeSample),
    reachable self ->
    In "methods" (path_parts (value (lang s) ++ name s)) ->
    exists out, list_sorted_samples self = Ok out /\ ~ In (Payload s) out.
Proof.
  intros self s R Hs. exists (dfs self). split.
  - apply list_sorted_samples_dfs. exact (reachable_wf _ _ _ _ R).
  - intros Hin.
    destruct (emitted_samples _ _ R Hin) as (s' & [= <-] & _ & _ & Hno).
    apply Hno. apply effective_in; [discriminate|exact Hs].
Qed.

Lemma methods_segment_not_listed_witness :
  stored path_of http_method Examples.tree Examples.get_payment_methods /\
  exists out, list_sorted_samples Examples.tree = Ok out /\
              ~ In (Payload Examples.get_payment_methods) out.
Proof.
  split; [reflexivity|].
  apply (methods_segment_not_listed Examples.tree
           Examples.get_payment_methods reachable_tree).
  simpl. auto.
Defined.

End TreeClaims.

(** ** Keys of different languages *)

Section LanguageClaims.
Import CodeSamplesTree TreeFacts.

Lemma startswith_spec (s p : string) :
  Str.startswith s p = true <-> exists c, s = (p ++ c)%string.
Proof.
  revert s. induction p as [|x p IH]; intros s; simpl.
  - split; [eauto|reflexivity].
  - destruct s as [|y s].
    + split; [discriminate|]. intros [c H]. discriminate.
    + rewrite andb_true_iff, IH. split.
      * intros [E [c ->]]. apply Ascii.eqb_eq in E. subst. eauto.
      * intros [c H]. inversion H; subst. split; [apply Ascii.eqb_refl|eauto].
Qed.

(** Two beginnings of one string: one begins with the other. *)
Lemma prefixes_comparable (a b x y : string) :
  (a ++ x)%string = (b ++ y)%string ->
  Str.startswith a b = true \/ Str.startswith b a = true.
Proof.
  revert b. induction a as [|c a IH]; intros b H.
  - right. destruct b; reflexivity.
  - destruct b as [|d b]; [left; reflexivity|].
    simpl in H. inversion H as [[E1 E2]]. simpl.
    rewrite !Ascii.eqb_refl. simpl. apply IH. exact E2.
Qed.

Lemma join_split (s : string) : Str.join "/" (Str.split slash s) = s.
Proof.
  induction s as [|c s IH]; [reflexivity|]. simpl.
  destruct (Ascii.eqb_spec c slash) as [->|Hne].
  - destruct (Str.split slash s) as [|p ps] eqn:E.
    + exfalso. exact (split_not_nil _ _ E).
    + rewrite join_cons, IH. reflexivity.
  - destruct (Str.split slash s) as [|p ps] eqn:E.
    + exfalso. exact (split_not_nil _ _ E).
    + rewrite <- IH. destruct ps; reflexivity.
Qed.

(** The segments lose at most one trailing ['/'] of the path. *)
Lemma effective_join (parts : list string) :
  parts <> [] ->
  Str.join "/" parts = Str.join "/" (effective parts) \/
  Str.join "/" parts = (Str.join "/" (effective parts) ++ "/")%string.
Proof.
  induction parts as [|p rest IH]; intros Hne; [congruence|]. simpl effective.
  destruct (String.eqb_spec (Str.join "/" rest) "") as [E|E].
  - apply join_eq_empty in E as [-> | ->]; [left|right]; reflexivity.
  - assert (rest <> []) as Hrest by (intros ->; apply E; reflexivity).
    pose proof (effective_not_nil rest Hrest) as He.
    destruct rest as [|r rest]; [congruence|].
    destruct (effective (r :: rest)) as [|e es] eqn:Ee; [congruence|].
    rewrite !join_cons. destruct (IH Hrest) as [-> | ->]; [left|right].
    + reflexivity.
    + rewrite !append_assoc. reflexivity.
Qed.

Lemma segments_join (path : string) :
  path = Str.join "/" (segments path) \/
  path = (Str.join "/" (segments path) ++ "/")%string.
Proof.
  unfold segments, path_parts.
  destruct (effective_join (Str.split slash path) (split_not_nil _ _))
    as [E|E]; rewrite join_split in E; auto.
Qed.

Lemma append_nil_r (s : string) : (s ++ "")%string = s.
Proof.
  induction s as [|c s IH]; simpl; [reflexivity|].
  rewrite IH. reflexivity.
Qed.

(** Paths with the same segments: one begins with the other. *)
Lemma same_segments_comparable (k1 k2 : string) :
  segments k1 = segments k2 ->
  exists x y, (k1 ++ x)%string = (k2 ++ y)%string.
Proof.
  intros E.
  destruct (segments_join k1) as [H1|H1], (segments_join k2) as [H2|H2];
    rewrite E in H1.
  - exists "", "". congruence.
  - exists "/", "". rewrite append_nil_r. congruence.
  - exists "", "/". rewrite append_nil_r. congruence.
  - exists "", "". congruence.
Qed.

Lemma prefix_free_segments (s1 s2 : CodeSample) :
  prefix_free (value (lang s1)) (value (lang s2)) = true ->
  segments (path_of s1) <> segments (path_of s2).
Proof.
  unfold prefix_free, path_of. intros H E.
  apply andb_true_iff in H as [H1 H2].
  apply negb_true_iff in H1, H2.
  destruct (same_segments_comparable _ _ E) as (x & y & Hxy).
  rewrite !append_assoc in Hxy.
  destruct (prefixes_comparable _ _ _ _ Hxy); congruence.
Qed.

Lemma append_cancel_r (a b c : string) :
  (a ++ c)%string = (b ++ c)%string -> a = b.
Proof.
  revert b. induction a as [|x a IH]; intros b H.
  - apply (f_equal String.length) in H. rewrite !length_append in H.
    destruct b; [reflexivity|simpl in H; lia].
  - destruct b as [|y b].
    + apply (f_equal String.length) in H. rewrite !length_append in H.
      simpl in H. lia.
    + simpl in H. inversion H as [[E1 E2]]. rewrite (IH _ E2). reflexivity.
Qed.

Lemma current_path_free_prefix (l n : string) :
  Str.free_of slash l = true ->
  current_path (l ++ n) = (l ++ current_path n)%string.
Proof.
  intros Hfree. unfold current_path, path_parts.
  rewrite (split_free_prefix _ _ Hfree).
  destruct (Str.split slash n) as [|h t] eqn:E; [|reflexivity].
  exfalso. exact (split_not_nil _ _ E).
Qed.

Lemma different_languages_segments (s1 s2 : CodeSample) :
  different_languages s1 s2 ->
  segments (path_of s1) <> segments (path_of s2).
Proof.
  intros [(Hne & H1 & H2 & Hname)|Hfree];
    [|exact (prefix_free_segments s1 s2 Hfree)].
  unfold path_of. rewrite Hname, (segments_step (_ ++ _)).
  rewrite (segments_step (value (lang s2) ++ _)).
  rewrite (current_path_free_prefix _ _ H1),
          (current_path_free_prefix _ _ H2).
  intros E. inversion E as [[E1 E2]]. apply Hne.
  exact (append_cancel_r _ _ _ E1).
Qed.

(** C8.  Two samples of different languages are kept in different slots
    (the key is [lang.value + name]), also when their paths and methods are
    equal: a [put] of one leaves the other stored, and after both calls
    both are stored. *)
Theorem languages_do_not_collide :
  forall (self : t) (s1 s2 : CodeSample),
    reachable self ->
    different_languages s1 s2 ->
    path_of s1 <> path_of s2 /\
    segments (path_of s1) <> segments (path_of s2) /\
    slot (segments (path_of s1)) (http_method s1)
      <> slot (segments (path_of s2)) (http_method s2) /\
    (stored path_of http_method self s1 ->
     stored path_of http_method (fst (put self s2)) s1) /\
    (snd (put self s1) = Returned ->
     snd (put (fst (put self s1)) s2) = Returned ->
     stored path_of http_method (fst (put (fst (put self s1)) s2)) s1 /\
     stored path_of http_method (fst (put (fst (put self s1)) s2)) s2).
Proof.
  intros self s1 s2 R Hdiff.
  pose proof (different_languages_segments s1 s2 Hdiff) as Hsegs.
  assert (forall root, stored path_of http_method root s1 ->
            stored path_of http_method (fst (put root s2)) s1) as Hkeep.
  { intros root H. apply put_payload_keeps; [exact H|]. congruence. }
  split; [congruence|]. split; [exact Hsegs|]. split; [|split].
  - intros E. apply slot_inj in E as [E _]. contradiction.
  - apply Hkeep.
  - intros H1 H2. split.
    + apply Hkeep. apply put_payload_stored. exact H1.
    + apply put_payload_stored. exact H2.
Qed.

Lemma languages_do_not_collide_witness :
  stored path_of http_method
    (fst (put (fst (put init Examples.get_items)) Examples.get_items_js))
    Examples.get_items /\
  stored path_of http_method
    (fst (put (fst (put init Examples.get_items)) Examples.get_items_js))
    Examples.get_items_js.
Proof.
  apply (languages_do_not_collide init Examples.get_items
           Examples.get_items_js (reachable_init _ _)).
  - left. repeat split; [discriminate|reflexivity..].
  - reflexivity.
  - reflexivity.
Defined.

(** Why something is assumed of the language values: the key has no
    separator between the language and the path. *)
Example concatenated_keys_can_coincide :
  path_of (Examples.code (mkLanguage "js") "on/items" HttpMethod.get)
  = path_of (Examples.code (mkLanguage "json") "/items" HttpMethod.get).
Proof. reflexivity. Qed.

End LanguageClaims.

(** ** CodeSamplesTree: order and multiplicity of what is listed *)

Module OrderFacts.
Import CodeSamplesTree TreeFacts.

Lemma precedes_app a b l l1 l2 :
  precedes a b l -> precedes a b (l1 ++ l ++ l2).
Proof.
  intros (x & y & z & ->). exists (l1 ++ x), y, (z ++ l2).
  rewrite <- !app_assoc. simpl. rewrite <- !app_assoc. reflexivity.
Qed.

(** The part of [kids] that comes from one child. *)
Lemma kids_split items seg child :
  dict_get items (KStr seg) = Some child -> seg <> "methods" ->
  exists K1 K2, kids items = K1 ++ dfs child ++ K2.
Proof.
  intros G Hseg. apply dict_get_in in G.
  apply in_split in G as (i1 & i2 & ->).
  exists (kids i1), (kids i2). rewrite kids_app, kids_cons.
  destruct (key_eqb_spec (KStr seg) methods_key) as [E|_]; [|reflexivity].
  inversion E. contradiction.
Qed.

Lemma own_cons methods m ms :
  own methods (m :: ms)
  = match dict_get methods (KMethod m) with
    | Some o => [o]
    | None => []
    end ++ own methods ms.
Proof. reflexivity. Qed.

Lemma lookup_child_in_kids seg r :
  forall kind items m b,
    wfb false (Dict kind items) = true ->
    ~ In "methods" (seg :: r) -> HttpMethod.ordered m = true ->
    lookup (Dict kind items) (slot (seg :: r) m) = Some b ->
    In b (kids items).
Proof.
  intros kind items m b Hwf Hno Hm H. rewrite slot_cons in H. simpl in H.
  destruct (dict_get items (KStr seg)) as [child|] eqn:G; [|discriminate].
  destruct (wfb_child _ _ _ _ _ _ Hwf G) as [Hc _].
  assert (seg <> "methods") as Hseg
    by (intros ->; apply Hno; left; reflexivity).
  destruct (String.eqb_spec seg "methods"); [contradiction|].
  apply in_kids. exists (KStr seg), child.
  split; [exact (dict_get_in _ _ _ _ G)|].
  split; [unfold methods_key; congruence|].
  apply (slot_in_dfs r child m b Hc); [|exact Hm|exact H].
  intros Hin. apply Hno. right. exact Hin.
Qed.

(** A POST comes before the POST of anything below it. *)
Lemma dfs_precedes_post q :
  forall d r a b,
    wfb false d = true ->
    r <> [] -> ~ In "methods" (q ++ r) ->
    lookup d (slot q HttpMethod.post) = Some a ->
    lookup d (slot (q ++ r) HttpMethod.post) = Some b ->
    precedes a b (dfs d).
Proof.
  induction q as [|seg q IH]; intros d r a b Hwf Hr Hno Ha Hb.
  - destruct d as [kind items|p]; [|discriminate].
    apply own_lookup in Ha. destruct r as [|s r]; [congruence|].
    pose proof (lookup_child_in_kids s r kind items HttpMethod.post b Hwf Hno
                  eq_refl Hb) as Hin.
    apply in_split in Hin as (k1 & k2 & Hk).
    rewrite dfs_Dict, Hk, own_cons, Ha.
    exists [],
      (own (methods_of items) [HttpMethod.get; HttpMethod.put] ++ k1),
      (k2 ++ own (methods_of items) [HttpMethod.delete]).
    simpl. rewrite <- !app_assoc. reflexivity.
  - destruct d as [kind items|p]; [|discriminate].
    simpl app in *. rewrite slot_cons in Ha, Hb. simpl in Ha, Hb.
    destruct (dict_get items (KStr seg)) as [child|] eqn:G; [|discriminate].
    destruct (wfb_child _ _ _ _ _ _ Hwf G) as [Hc _].
    assert (seg <> "methods") as Hseg
      by (intros ->; apply Hno; left; reflexivity).
    destruct (String.eqb_spec seg "methods"); [contradiction|].
    destruct (kids_split _ _ _ G Hseg) as (K1 & K2 & Hk).
    rewrite dfs_Dict, Hk.
    replace (own (methods_of items)
               [HttpMethod.post; HttpMethod.get; HttpMethod.put]
             ++ (K1 ++ dfs child ++ K2)
             ++ own (methods_of items) [HttpMethod.delete])
      with ((own (methods_of items)
               [HttpMethod.post; HttpMethod.get; HttpMethod.put] ++ K1)
            ++ dfs child
            ++ (K2 ++ own (methods_of items) [HttpMethod.delete]))
      by (rewrite <- !app_assoc; reflexivity).
    apply precedes_app. apply (IH child r a b Hc Hr); [|exact Ha|exact Hb].
    intros Hin. apply Hno. right. exact Hin.
Qed.

(** A DELETE comes after the DELETE of anything below it. *)
Lemma dfs_precedes_delete q :
  forall d r a b,
    wfb false d = true ->
    r <> [] -> ~ In "methods" (q ++ r) ->
    lookup d (slot q HttpMethod.delete) = Some a ->
    lookup d (slot (q ++ r) HttpMethod.delete) = Some b ->
    precedes b a (dfs d).
Proof.
  induction q as [|seg q IH]; intros d r a b Hwf Hr Hno Ha Hb.
  - destruct d as [kind items|p]; [|discriminate].
    apply own_lookup in Ha. destruct r as [|s r]; [congruence|].
    pose proof (lookup_child_in_kids s r kind items HttpMethod.delete b Hwf
                  Hno eq_refl Hb) as Hin.
    apply in_split in Hin as (k1 & k2 & Hk).
    rewrite dfs_Dict, Hk, (own_cons _ HttpMethod.delete), Ha.
    exists (own (methods_of items)
              [HttpMethod.post; HttpMethod.get; HttpMethod.put] ++ k1),
      k2, [].
    simpl. rewrite <- !app_assoc. reflexivity.
  - destruct d as [kind items|p]; [|discriminate].
    simpl app in *. rewrite slot_cons in Ha, Hb. simpl in Ha, Hb.
    destruct (dict_get items (KStr seg)) as [child|] eqn:G; [|discriminate].
    destruct (wfb_child _ _ _ _ _ _ Hwf G) as [Hc _].
    assert (seg <> "methods") as Hseg
      by (intros ->; apply Hno; left; reflexivity).
    destruct (String.eqb_spec seg "methods"); [contradiction|].
    destruct (kids_split _ _ _ G Hseg) as (K1 & K2 & Hk).
    rewrite dfs_Dict, Hk.
    replace (own (methods_of items)
               [HttpMethod.post; HttpMethod.get; HttpMethod.put]
             ++ (K1 ++ dfs child ++ K2)
             ++ own (methods_of items) [HttpMethod.delete])
      with ((own (methods_of items)
               [HttpMethod.post; HttpMethod.get; HttpMethod.put] ++ K1)
            ++ dfs child
            ++ (K2 ++ own (methods_of items) [HttpMethod.delete]))
      by (rewrite <- !app_assoc; reflexivity).
    apply precedes_app. apply (IH child r a b Hc Hr); [|exact Ha|exact Hb].
    intros Hin. apply Hno. right. exact Hin.
Qed.

(** *** Each location is read once *)

Lemma dfs_locs_Dict kind items :
  dfs_locs (Dict kind items)
  = own_locs (methods_of items)
      [HttpMethod.post; HttpMethod.get; HttpMethod.put]
    ++ kids_locs items
    ++ own_locs (methods_of items) [HttpMethod.delete].
Proof. reflexivity. Qed.

Lemma kids_locs_cons k v items :
  kids_locs ((k, v) :: items)
  = (if key_eqb k methods_key then [] else map (cons k) (dfs_locs v))
    ++ kids_locs items.
Proof. reflexivity. Qed.

Lemma own_locs_lookup kind (items : list (key * t)) ms :
  Forall2 (fun loc o => lookup (Dict kind items) loc = Some o)
    (own_locs (methods_of items) ms) (own (methods_of items) ms).
Proof.
  induction ms as [|m ms IH]; [constructor|].
  unfold own_locs, own in *. simpl.
  destruct (dict_get (methods_of items) (KMethod m)) as [o|] eqn:G;
    [|exact IH].
  simpl. constructor; [|exact IH]. exact (lookup_own kind items m o G).
Qed.

(** [dfs] is what is found at [dfs_locs], in the same order. *)
Lemma dfs_locs_lookup :
  forall d,
    wfb false d = true ->
    Forall2 (fun loc o => lookup d loc = Some o) (dfs_locs d) (dfs d).
Proof.
  induction d as [kind items IH|p] using obj_induction; intros Hwf;
    [|discriminate].
  rewrite dfs_locs_Dict, dfs_Dict.
  apply Forall2_app; [apply own_locs_lookup|].
  apply Forall2_app; [|apply own_locs_lookup].
  pose proof Hwf as Hwf'. rewrite wfb_Dict in Hwf'.
  apply andb_true_iff in Hwf' as [Hu Hok].
  assert (forall its, incl its items ->
            Forall2 (fun loc o => lookup (Dict kind items) loc = Some o)
              (kids_locs its) (kids its)) as Hkids.
  { induction its as [|[k v] its IHits]; intros Hincl; [constructor|].
    rewrite kids_locs_cons, kids_cons.
    assert (In (k, v) items) as Hkv by (apply Hincl; left; reflexivity).
    assert (incl its items) as Hincl'
      by (intros x Hx; apply Hincl; right; exact Hx).
    destruct (key_eqb_spec k methods_key) as [->|Hne]; [auto|].
    apply Forall2_app; [|auto].
    rewrite Forall_forall in IH. specialize (IH _ Hkv). simpl in IH.
    destruct (wfb_false_keys _ _ _ _ _ Hwf Hkv) as [seg ->].
    pose proof (in_dict_get _ _ _ _ Hu Hkv) as G.
    destruct (wfb_child _ _ _ _ _ _ Hwf G) as [Hv _].
    destruct (String.eqb_spec seg "methods") as [->|_];
      [exfalso; apply Hne; reflexivity|].
    specialize (IH Hv). clear - IH G.
    induction IH as [|loc o locs os H _ IH']; [constructor|].
    simpl map. constructor; [|exact IH']. simpl. rewrite G. exact H. }
  apply Hkids. apply incl_refl.
Qed.

Lemma in_own_locs methods ms loc :
  In loc (own_locs methods ms) ->
  exists m, In m ms /\ loc = [methods_key; KMethod m].
Proof.
  unfold own_locs. rewrite in_flat_map. intros (m & Hm & H).
  destruct (dict_get methods (KMethod m)); simpl in H; [|contradiction].
  destruct H as [<-|[]]. eauto.
Qed.

Lemma in_kids_locs items loc :
  In loc (kids_locs items) ->
  exists k v rest, In (k, v) items /\ k <> methods_key /\ loc = k :: rest.
Proof.
  unfold kids_locs. rewrite in_flat_map. intros ([k v] & Hin & H).
  simpl in H. destruct (key_eqb_spec k methods_key); [contradiction|].
  apply in_map_iff in H as (rest & <- & _). eauto 6.
Qed.

Lemma NoDup_own_locs methods ms :
  NoDup ms -> NoDup (own_locs methods ms).
Proof.
  induction 1 as [|m ms Hm _ IH]; [constructor|].
  unfold own_locs in *. simpl.
  destruct (dict_get methods (KMethod m)); [|exact IH].
  simpl. constructor; [|exact IH].
  intros Hin. apply in_own_locs in Hin as (m' & Hm' & E).
  inversion E. subst. contradiction.
Qed.

Lemma uniqueb_cons k ks :
  uniqueb (k :: ks) = true -> ~ In k ks /\ uniqueb ks = true.
Proof.
  simpl. intros H. apply andb_true_iff in H as [H1 H2].
  split; [|exact H2]. intros Hin. apply negb_true_iff in H1.
  assert (existsb (key_eqb k) ks = true) as E.
  { apply existsb_exists. exists k. split; [exact Hin|apply key_eqb_refl]. }
  congruence.
Qed.

Lemma NoDup_dfs_locs :
  forall d, wfb false d = true -> NoDup (dfs_locs d).
Proof.
  induction d as [kind items IH|p] using obj_induction; intros Hwf;
    [|constructor].
  rewrite dfs_locs_Dict.
  rewrite wfb_Dict in Hwf. apply andb_true_iff in Hwf as [Hu Hok].
  assert (NoDup (kids_locs items)) as Hkids.
  { clear - IH Hu Hok. induction items as [|[k v] items IHitems];
      [constructor|].
    inversion IH as [|? ? Hv IH']; subst. simpl in Hv.
    apply andb_true_iff in Hok as [Hk Hok].
    apply uniqueb_cons in Hu as [Hnotin Hu].
    rewrite kids_locs_cons.
    destruct (key_eqb_spec k methods_key) as [->|Hne]; [simpl; auto|].
    apply NoDup_app.
    - destruct k as [seg|m]; [|discriminate].
      rewrite entry_ok_str in Hk. apply andb_true_iff in Hk as [Hk _].
      destruct (String.eqb_spec seg "methods") as [->|_];
        [exfalso; apply Hne; reflexivity|].
      apply NoDup_map_NoDup_ForallPairs; [|auto].
      intros x y _ _ E. congruence.
    - auto.
    - intros loc H1 H2. apply in_map_iff in H1 as (rest & <- & _).
      apply in_kids_locs in H2 as (k' & v' & rest' & Hin & _ & E).
      inversion E; subst. apply Hnotin.
      apply (in_map fst) in Hin. exact Hin. }
  apply NoDup_app; [|apply NoDup_app|].
  - apply NoDup_own_locs. repeat constructor; simpl; intuition discriminate.
  - exact Hkids.
  - apply NoDup_own_locs. repeat constructor; simpl; intuition discriminate.
  - intros loc H1 H2. apply in_kids_locs in H1 as (k & v & rest & _ & Hne & ->).
    apply in_own_locs in H2 as (m & _ & E). congruence.
  - intros loc H1 H2. apply in_own_locs in H1 as (m & Hm & ->).
    apply in_app_iff in H2 as [H2|H2].
    + apply in_kids_locs in H2 as (k & v & rest & _ & Hne & E). congruence.
    + apply in_own_locs in H2 as (m' & Hm' & E). inversion E; subst.
      simpl in Hm, Hm'. intuition congruence.
Qed.

Lemma Forall2_NoDup (A B : Type) (R : A -> B -> Prop) l1 l2 :
  Forall2 R l1 l2 -> NoDup l1 ->
  (forall a a' b, In a l1 -> In a' l1 -> R a b -> R a' b -> a = a') ->
  NoDup l2.
Proof.
  induction 1 as [|a b l1 l2 Hab HF IH]; intros Hnd Hinj; [constructor|].
  inversion Hnd as [|? ? Hnotin Hnd']; subst. constructor.
  - intros Hin. apply Hnotin.
    assert (exists a', In a' l1 /\ R a' b) as (a' & Ha' & Hr).
    { clear - HF Hin. induction HF as [|x y l1 l2 Hxy _ IH'];
        [contradiction|].
      destruct Hin as [<-|Hin]; [exists x; simpl; auto|].
      destruct (IH' Hin) as (a' & Hin' & Hr). exists a'. simpl. auto. }
    rewrite (Hinj a a' b); simpl; auto.
  - apply IH; [exact Hnd'|]. intros x x' y Hx Hx'. apply Hinj; simpl; auto.
Qed.

Lemma Forall2_in_l (A B : Type) (R : A -> B -> Prop) l1 l2 a :
  Forall2 R l1 l2 -> In a l1 -> exists b, In b l2 /\ R a b.
Proof.
  induction 1 as [|x y l1 l2 Hxy _ IH]; intros Hin; [contradiction|].
  destruct Hin as [<-|Hin]; [exists y; simpl; auto|].
  destruct (IH Hin) as (b & Hb & Hr). exists b. simpl. auto.
Qed.

(** A reachable tree lists nothing twice. *)
Lemma NoDup_dfs self : reachable self -> NoDup (dfs self).
Proof.
  intros R. pose proof (reachable_wf _ _ _ _ R) as Hwf.
  apply (Forall2_NoDup _ _ _ _ _ (dfs_locs_lookup self Hwf)
           (NoDup_dfs_locs self Hwf)).
  intros loc loc' o Hin _ H H'.
  destruct (Forall2_in_l _ _ _ _ _ _ (dfs_locs_lookup self Hwf) Hin)
    as (o' & Ho' & Hl).
  rewrite H in Hl. injection Hl as <-.
  destruct (emitted_samples_payload self o R Ho') as [s ->].
  rewrite (reachable_located _ _ _ _ R _ _ H),
          (reachable_located _ _ _ _ R _ _ H').
  reflexivity.
Qed.

Lemma filter_single (A : Type) (f : A -> bool) (l : list A) (a : A) :
  NoDup l -> In a l -> f a = true ->
  (forall x, In x l -> f x = true -> x = a) ->
  filter f l = [a].
Proof.
  induction l as [|y l IH]; intros Hnd Hin Hfa Hall; [contradiction|].
  inversion Hnd as [|? ? Hnotin Hnd']; subst. simpl.
  destruct Hin as [->|Hin].
  - rewrite Hfa. f_equal.
    destruct (filter f l) as [|z zs] eqn:E; [reflexivity|].
    exfalso. assert (In z (filter f l)) as Hz by (rewrite E; left; reflexivity).
    apply filter_In in Hz as [Hz1 Hz2].
    rewrite (Hall z (or_intror Hz1) Hz2) in Hz1. contradiction.
  - destruct (f y) eqn:Hfy.
    + rewrite (Hall y (or_introl eq_refl) Hfy) in Hnotin. contradiction.
    + apply IH; auto. intros x Hx. apply Hall. right. exact Hx.
Qed.

Lemma filter_none (A : Type) (f : A -> bool) (l : list A) :
  (forall x, In x l -> f x = false) -> filter f l = [].
Proof.
  induction l as [|y l IH]; intros Hall; [reflexivity|]. simpl.
  rewrite (Hall y (or_introl eq_refl)). apply IH.
  intros x Hx. apply Hall. right. exact Hx.
Qed.

End OrderFacts.

(** ** Claims about the order of the list and about overwriting *)

Section OrderClaims.
Import CodeSamplesTree TreeFacts OrderFacts.

Lemma effective_cases (parts : list string) :
  effective parts = parts \/ parts = effective parts ++ [""].
Proof.
  induction parts as [|p rest IH]; [left; reflexivity|]. simpl.
  destruct (String.eqb_spec (Str.join "/" rest) "") as [E|_].
  - apply join_eq_empty in E as [-> | ->]; [left|right]; reflexivity.
  - destruct IH as [-> | E]; [left; reflexivity|right].
    simpl. rewrite <- E. reflexivity.
Qed.

(** The segments of a path are the beginning of the segments of any path
    that continues it after a ['/']. *)
Lemma segments_below (k c : string) :
  exists r, segments (k ++ "/" ++ c) = segments k ++ r.
Proof.
  unfold segments, path_parts. rewrite split_app.
  set (A := Str.split slash k). set (B := Str.split slash c).
  assert (B <> []) as HB by apply split_not_nil.
  assert (forall X, exists r, A ++ X = effective A ++ r) as HA.
  { intros X. destruct (effective_cases A) as [EA|EA].
    - exists X. rewrite EA. reflexivity.
    - exists ("" :: X).
      transitivity ((effective A ++ [""]) ++ X); [f_equal; exact EA|].
      rewrite <- app_assoc. reflexivity. }
  destruct (effective_cases (A ++ B)) as [E|E].
  - rewrite E. apply HA.
  - destruct (exists_last HB) as (B' & x & HB').
    rewrite HB', app_assoc in E |- *. apply app_inj_tail in E as [E _].
    rewrite <- E. apply HA.
Qed.

Lemma append_neq (a b : string) : b <> "" -> (a ++ b)%string <> a.
Proof.
  intros Hb E. apply (f_equal String.length) in E.
  rewrite length_append in E. destruct b; [congruence|simpl in E; lia].
Qed.

(** Where the child's key has no segment ['methods'] the chain is in
    order.  Two stored samples of one language, the second filed at the
    path of the first followed by ['/'] and more: if both are POST the
    first is listed before the second; if both are DELETE the first is
    listed after the second. *)
Lemma chain_order :
  forall (self : t) (parent child : CodeSample),
    reachable self ->
    stored path_of http_method self parent ->
    stored path_of http_method self child ->
    chain parent child ->
    ~ In "methods" (segments (path_of child)) ->
    chain_ordered self parent child.
Proof.
  intros self parent child R Hp Hc (Hlang & c & Hname) Hno.
  pose proof (reachable_wf _ _ _ _ R) as Hwf.
  assert (path_of child = (path_of parent ++ "/" ++ c)%string) as Hpath.
  { unfold path_of. rewrite Hlang, Hname, append_assoc. reflexivity. }
  destruct (segments_below (path_of parent) c) as [r Hr].
  rewrite <- Hpath in Hr.
  assert (http_method parent = http_method child -> r <> []) as Hne.
  { intros Hm ->. rewrite app_nil_r in Hr. unfold stored in Hp, Hc.
    rewrite Hr, <- Hm, Hp in Hc. injection Hc as Hc.
    rewrite <- Hc in Hname. symmetry in Hname.
    apply append_neq in Hname; [contradiction|discriminate]. }
  unfold stored in Hp, Hc. rewrite Hr in Hc, Hno.
  exists (dfs self). split; [apply list_sorted_samples_dfs; exact Hwf|].
  split; intros Hmp Hmc; rewrite Hmp in Hp; rewrite Hmc in Hc.
  - apply (dfs_precedes_post (segments (path_of parent)) self r _ _ Hwf);
      auto.
    apply Hne. congruence.
  - apply (dfs_precedes_delete (segments (path_of parent)) self r _ _ Hwf);
      auto.
    apply Hne. congruence.
Qed.

Lemma chain_order_witness :
  chain_ordered
    (put_all path_of http_method init
       [Examples.post_payment_cards; Examples.post_payment])
    Examples.post_payment Examples.post_payment_cards.
Proof.
  apply chain_order.
  - apply reachable_put_all. apply reachable_init.
  - reflexivity.
  - reflexivity.
  - split; [reflexivity|]. exists "cards". reflexivity.
  - simpl. intuition discriminate.
Defined.

(** C2.  The chain [/payment], [/payment/methods] is not in order: both
    POST samples are stored by calls of [put] that return, the list is
    returned, and the child's POST is not in it, so the parent's POST does
    not come before it.  The node of [/payment] keeps its own samples
    under the key ['methods'], the traversal takes the child node filed
    under the segment ['methods'] for that map and does not visit it. *)
Theorem chain_order_fails_under_methods :
  let self := put_all path_of http_method init
                [Examples.post_payment_methods; Examples.post_payment] in
  reachable self /\
  stored path_of http_method self Examples.post_payment /\
  stored path_of http_method self Examples.post_payment_methods /\
  chain Examples.post_payment Examples.post_payment_methods /\
  ~ chain_ordered self Examples.post_payment Examples.post_payment_methods.
Proof.
  intros self. split; [|split; [|split; [|split]]].
  - apply reachable_put_all. apply reachable_init.
  - reflexivity.
  - reflexivity.
  - split; [reflexivity|]. exists "methods". reflexivity.
  - intros (out & Hout & Hpost & _).
    vm_compute in Hout. injection Hout as <-.
    destruct (Hpost eq_refl eq_refl) as (l1 & l2 & l3 & E).
    apply (f_equal (@length _)) in E.
    rewrite length_app in E. simpl in E. rewrite length_app in E.
    simpl in E. lia.
Qed.

Lemma same_key_spec (a b : CodeSample) :
  same_key a b = true ->
  path_of a = path_of b /\ http_method a = http_method b.
Proof.
  unfold same_key, path_of. intros H.
  apply andb_true_iff in H as [H Hm]. apply andb_true_iff in H as [Hl Hn].
  apply String.eqb_eq in Hl, Hn.
  destruct (HttpMethod_eqb_spec (http_method a) (http_method b));
    [|discriminate].
  split; congruence.
Qed.

Lemma same_key_refl (a : CodeSample) : same_key a a = true.
Proof.
  unfold same_key. rewrite !String.eqb_refl, HttpMethod_eqb_refl. reflexivity.
Qed.

(** In a reachable tree a stored sample is listed once if its method is
    ordered and its key has no segment ['methods'], and not at all
    otherwise; no other sample with its key is listed. *)
Lemma stored_entries self s :
  reachable self -> stored path_of http_method self s ->
  (HttpMethod.ordered (http_method s) = true ->
   ~ In "methods" (segments (path_of s)) -> listed_once self s) /\
  (HttpMethod.ordered (http_method s) = false \/
   In "methods" (segments (path_of s)) -> not_listed self s).
Proof.
  intros R Hs. pose proof (reachable_wf _ _ _ _ R) as Hwf.
  assert (forall o, In o (dfs self) ->
            match o with
            | Payload x => same_key s x
            | Dict _ _ => false
            end = true ->
            o = Payload s /\ HttpMethod.ordered (http_method s) = true /\
            ~ In "methods" (segments (path_of s))) as Hsame.
  { intros o Hin Hkey.
    destruct (emitted_samples _ _ R Hin) as (x & -> & Hx & Hm & Hno).
    apply same_key_spec in Hkey as [Hp Hk]. unfold stored in Hx, Hs.
    rewrite <- Hp, <- Hk in Hx. rewrite <- Hk in Hm. rewrite <- Hp in Hno.
    split; [congruence|auto]. }
  split.
  - intros Hm Hno. exists (dfs self).
    split; [apply list_sorted_samples_dfs; exact Hwf|].
    apply filter_single.
    + apply NoDup_dfs. exact R.
    + apply (slot_in_dfs _ _ _ _ Hwf Hno Hm Hs).
    + apply same_key_refl.
    + intros o Hin Hkey. apply (Hsame o Hin Hkey).
  - intros Hnot. exists (dfs self).
    split; [apply list_sorted_samples_dfs; exact Hwf|].
    apply filter_none. intros o Hin.
    destruct (match o with
              | Payload x => same_key s x
              | Dict _ _ => false
              end) eqn:Hkey; [|reflexivity].
    destruct (Hsame o Hin Hkey) as (_ & Hm & Hno).
    destruct Hnot as [Hnot|Hnot]; [congruence|contradiction].
Qed.

(** C6, as amended.  After two calls of [put] with the same (language,
    path, method), the second call returns if the first did, and the tree
    holds one sample for that key, the second.  The list has one entry for
    the key, the second sample, when the method is POST, GET, PUT or DELETE
    and no segment of the key is ['methods'], and no entry when the method
    is none of the four.  Likewise the result map holds the second of two
    results recorded for the same path and method. *)
Theorem put_twice_last_wins :
  (forall (self : t) (s1 s2 : CodeSample),
      reachable self ->
      same_key s1 s2 = true ->
      snd (put self s1) = Returned ->
      snd (put (fst (put self s1)) s2) = Returned /\
      stored path_of http_method (fst (put (fst (put self s1)) s2)) s2 /\
      (forall loc x,
          lookup (fst (put (fst (put self s1)) s2)) loc = Some (Payload x) ->
          same_key s2 x = true ->
          x = s2 /\
          loc = slot (segments (path_of s2)) (http_method s2)) /\
      (HttpMethod.ordered (http_method s2) = true ->
       ~ In "methods" (segments (path_of s2)) ->
       listed_once (fst (put (fst (put self s1)) s2)) s2) /\
      (HttpMethod.ordered (http_method s2) = false ->
       not_listed (fst (put (fst (put self s1)) s2)) s2)) /\
  (forall (self : TestExecutionResultMap.t) (r1 r2 : ApiTestResult),
      TestExecutionResultMap.reachable self ->
      name (sample r1) = name (sample r2) ->
      http_method (sample r1) = http_method (sample r2) ->
      snd (TestExecutionResultMap.put self r1) = Returned ->
      let after :=
        fst (TestExecutionResultMap.put
               (fst (TestExecutionResultMap.put self r1)) r2) in
      snd (TestExecutionResultMap.put
             (fst (TestExecutionResultMap.put self r1)) r2) = Returned /\
      stored TestExecutionResultMap.path_of TestExecutionResultMap.method_of
        after r2 /\
      (forall loc x,
          lookup after loc = Some (Payload x) ->
          name (sample x) = name (sample r2) ->
          http_method (sample x) = http_method (sample r2) -> x = r2)).
Proof.
  split.
  - intros self s1 s2 R Hkey H1.
    apply same_key_spec in Hkey as [Hp Hm].
    assert (snd (put (fst (put self s1)) s2) = Returned) as H2.
    { apply (put_payload_again _ path_of http_method _ s2 s1).
      - apply put_payload_stored. exact H1.
      - rewrite Hp. reflexivity.
      - symmetry. exact Hm. }
    assert (reachable (fst (put (fst (put self s1)) s2))) as R2
      by (do 2 apply reachable_put; exact R).
    pose proof (put_payload_stored _ path_of http_method _ _ H2) as Hs.
    split; [exact H2|]. split; [exact Hs|]. split.
    + intros loc x Hx Hk. apply same_key_spec in Hk as [Hpx Hmx].
      assert (x = s2) as ->.
      { apply (located_unique _ path_of http_method _ loc x s2
                 (reachable_located _ _ _ _ R2) Hx Hs); congruence. }
      split; [reflexivity|].
      exact (reachable_located _ _ _ _ R2 _ _ Hx).
    + destruct (stored_entries _ _ R2 Hs) as [Hlisted Hnot].
      split; [exact Hlisted|]. intros Hm'. apply Hnot. left. exact Hm'.
  - intros self r1 r2 R Hn Hm H1 after.
    assert (snd (TestExecutionResultMap.put
                   (fst (TestExecutionResultMap.put self r1)) r2)
            = Returned) as H2.
    { apply (put_payload_again _ TestExecutionResultMap.path_of
               TestExecutionResultMap.method_of _ r2 r1).
      - apply put_payload_stored. exact H1.
      - unfold TestExecutionResultMap.path_of. rewrite Hn. reflexivity.
      - symmetry. exact Hm. }
    assert (TestExecutionResultMap.reachable after) as R2
      by (do 2 apply reachable_put; exact R).
    pose proof (put_payload_stored _ TestExecutionResultMap.path_of
                  TestExecutionResultMap.method_of _ _ H2) as Hs.
    split; [exact H2|]. split; [exact Hs|].
    intros loc x Hx Hnx Hmx.
    apply (located_unique _ TestExecutionResultMap.path_of
             TestExecutionResultMap.method_of _ loc x r2
             (reachable_located _ _ _ _ R2) Hx Hs).
    + unfold TestExecutionResultMap.path_of. rewrite Hnx. reflexivity.
    + exact Hmx.
Qed.

Lemma put_twice_last_wins_witness :
  listed_once
    (fst (put (fst (put init Examples.get_items)) Examples.get_items_v2))
    Examples.get_items_v2 /\
  not_listed
    (fst (put (fst (put init Examples.patch_items))
            MoreExamples.patch_items_v2))
    MoreExamples.patch_items_v2 /\
  stored TestExecutionResultMap.path_of TestExecutionResultMap.method_of
    (fst (TestExecutionResultMap.put Examples.results
            Examples.post_items_again))
    Examples.post_items_again.
Proof.
  destruct put_twice_last_wins as [Htree Hmap]. split; [|split].
  - apply (Htree init Examples.get_items Examples.get_items_v2
             (reachable_init _ _) eq_refl eq_refl).
    + reflexivity.
    + simpl. intuition discriminate.
  - apply (Htree init Examples.patch_items MoreExamples.patch_items_v2
             (reachable_init _ _) eq_refl eq_refl).
    reflexivity.
  - apply (Hmap
             (fst (TestExecutionResultMap.put
                (fst (TestExecutionResultMap.put
                        TestExecutionResultMap.init Examples.post_item_parts))
                Examples.post_orders))
             Examples.post_items Examples.post_items_again).
    + do 2 apply reachable_put. apply reachable_init.
    + reflexivity.
    + reflexivity.
    + reflexivity.
Defined.

(** C6 fails as stated: two samples for PATCH [/items] leave one sample
    in the tree, the second, and no entry in the list. *)
Lemma put_twice_other_method_not_listed :
  let after := fst (put (fst (put init Examples.patch_items))
                      MoreExamples.patch_items_v2) in
  same_key Examples.patch_items MoreExamples.patch_items_v2 = true /\
  snd (put init Examples.patch_items) = Returned /\
  snd (put (fst (put init Examples.patch_items))
         MoreExamples.patch_items_v2) = Returned /\
  stored path_of http_method after MoreExamples.patch_items_v2 /\
  list_sorted_samples after = Ok [] /\
  ~ listed_once after MoreExamples.patch_items_v2.
Proof.
  intros after. repeat split; try reflexivity.
  intros (out & Hout & E). vm_compute in Hout. injection Hout as <-.
  discriminate.
Qed.

End OrderClaims.

(** ** The dictionary as the trie of the specification *)

Module TrieFacts.
Import CodeSamplesTree TreeFacts SampleOrderTree.

Lemma trie_of_Dict kind items :
  trie_of (Dict kind items)
  = Node (payloads_of (methods_of items)) (trie_children items).
Proof. reflexivity. Qed.

Lemma payloads_of_set methods m s :
  forallb (entry_ok true) methods = true ->
  payloads_of (dict_set methods (KMethod m) (Payload s))
  = set_payload (payloads_of methods) m s.
Proof.
  induction methods as [|[k v] rest IH]; intros Hok; [reflexivity|].
  simpl in Hok. apply andb_true_iff in Hok as [Hk Hok].
  specialize (IH Hok). destruct k as [seg|m'].
  - simpl. fold (payloads_of rest).
    fold (payloads_of (dict_set rest (KMethod m) (Payload s))). exact IH.
  - unfold entry_ok in Hk. simpl in Hk.
    destruct v as [vk vitems|x]; [discriminate|]. simpl.
    destruct (HttpMethod.eqb m' m); simpl.
    + reflexivity.
    + fold (payloads_of (dict_set rest (KMethod m) (Payload s))).
      rewrite IH. reflexivity.
Qed.

Lemma trie_children_cons k v items :
  trie_children ((k, v) :: items)
  = match k with
    | KStr seg => if String.eqb seg "methods" then [] else [(seg, trie_of v)]
    | KMethod _ => []
    end ++ trie_children items.
Proof. reflexivity. Qed.

Lemma trie_children_set items seg v :
  seg <> "methods" ->
  trie_children (dict_set items (KStr seg) v)
  = set_child (trie_children items) seg (trie_of v).
Proof.
  intros Hseg. apply String.eqb_neq in Hseg.
  induction items as [|[k v'] rest IH].
  - simpl. unfold trie_children. simpl. rewrite Hseg. reflexivity.
  - simpl dict_set. destruct k as [seg'|m]; simpl key_eqb.
    + destruct (String.eqb_spec seg' seg) as [->|Hne].
      * rewrite !trie_children_cons, Hseg. simpl.
        rewrite String.eqb_refl. reflexivity.
      * rewrite !trie_children_cons, IH.
        destruct (String.eqb seg' "methods"); [reflexivity|]. simpl.
        apply String.eqb_neq in Hne. rewrite Hne. reflexivity.
    + rewrite !trie_children_cons, IH. reflexivity.
Qed.

Lemma trie_children_set_methods items v :
  trie_children (dict_set items methods_key v) = trie_children items.
Proof.
  induction items as [|[k v'] rest IH]; [reflexivity|].
  simpl dict_set. destruct (key_eqb_spec k methods_key) as [->|Hne].
  - reflexivity.
  - rewrite !trie_children_cons, IH. reflexivity.
Qed.

Lemma methods_of_set_other (items : list (key * t)) seg v :
  seg <> "methods" ->
  methods_of (dict_set items (KStr seg) v) = methods_of items.
Proof.
  intros Hseg. unfold methods_of. rewrite dict_get_set_neq; [reflexivity|].
  unfold methods_key. congruence.
Qed.

Lemma get_child_trie items seg :
  seg <> "methods" ->
  get_child (trie_children items) seg
  = option_map trie_of (dict_get items (KStr seg)).
Proof.
  intros Hseg. induction items as [|[k v] rest IH]; [reflexivity|].
  rewrite trie_children_cons. simpl dict_get.
  destruct k as [seg'|m]; simpl key_eqb; [|exact IH].
  destruct (String.eqb_spec seg' "methods") as [->|Hne].
  - apply String.eqb_neq in Hseg. rewrite String.eqb_sym, Hseg. exact IH.
  - simpl. destruct (String.eqb seg' seg); [reflexivity|exact IH].
Qed.

(** Storing in a node is the specification's store at the terminal node. *)
Lemma trie_store (d : t) s :
  wfb false d = true -> is_defaultdict d = true ->
  snd (store_method d (http_method s) s) = Returned /\
  trie_of (fst (store_method d (http_method s) s)) = insert_at [] s (trie_of d).
Proof.
  intros Hwf Hd. destruct d as [kind items|p]; [|discriminate].
  destruct (methods_entry _ _ _ Hwf) as (mk & Hm & Hok & _).
  unfold store_method. rewrite trie_of_Dict.
  unfold methods_of in *.
  destruct (dict_get items methods_key) as [[mk' methods|p]|] eqn:G.
  - cbn [fst snd]. split; [reflexivity|].
    rewrite trie_of_Dict, trie_children_set_methods. unfold methods_of.
    rewrite dict_get_set_eq, (payloads_of_set _ _ _ Hok). reflexivity.
  - discriminate.
  - destruct kind; [discriminate|]. cbn [fst snd]. split; [reflexivity|].
    rewrite trie_of_Dict, trie_children_set_methods. unfold methods_of.
    rewrite dict_get_set_eq. reflexivity.
Qed.


(** A [put] along segments other than ['methods'] returns and is the
    specification's insertion. *)
Lemma trie_put segs :
  forall (d : t) s,
    wfb false d = true ->
    ~ In "methods" segs ->
    (segs = [] -> is_defaultdict d = true) ->
    snd (put_segs segs d (http_method s) s) = Returned /\
    trie_of (fst (put_segs segs d (http_method s) s))
    = insert_at segs s (trie_of d).
Proof.
  induction segs as [|seg rest IH]; intros d s Hwf Hno Hd.
  - apply trie_store; auto.
  - destruct d as [kind items|p]; [|discriminate].
    assert (seg <> "methods") as Hseg
      by (intros ->; apply Hno; left; reflexivity).
    assert (~ In "methods" rest) as Hrest
      by (intros Hin; apply Hno; right; exact Hin).
    cbn [put_segs]. rewrite trie_of_Dict. cbn [insert_at].
    unfold getOrCreateChild. rewrite (get_child_trie _ _ Hseg).
    destruct (ensure_node_get _ items (KStr seg))
      as [(Ht & Eq & child & Hget)|(Ht & Eq & Hget)].
    + rewrite Eq, Hget. simpl option_map.
      destruct (wfb_child _ _ _ _ _ _ Hwf Hget) as [Hc Hdd].
      destruct (String.eqb_spec seg "methods"); [contradiction|].
      destruct (IH child s Hc Hrest (fun _ => Hdd Hseg)) as [IH1 IH2].
      destruct (put_segs rest child (http_method s) s) as [child' c].
      cbn [fst snd] in *. split; [exact IH1|].
      rewrite trie_of_Dict, (methods_of_set_other _ _ _ Hseg),
        (trie_children_set _ _ _ Hseg), IH2.
      reflexivity.
    + rewrite Hget.
      destruct (IH fresh_node s eq_refl Hrest (fun _ => eq_refl))
        as [IH1 IH2].
      destruct (put_segs rest fresh_node (http_method s) s) as [child' c].
      cbn [fst snd] in *. split; [exact IH1|].
      rewrite dict_set_ensure, trie_of_Dict,
        (methods_of_set_other _ _ _ Hseg),
        (trie_children_set _ _ _ Hseg), IH2.
      do 3 f_equal.
      destruct (dict_get items (KStr seg)) as [[vk [|kv vitems]|p]|];
        try discriminate; reflexivity.
Qed.

(** *** The traversal of the dictionary is the traversal of the trie *)

Lemma own_single (methods : list (key * t)) m :
  own methods [m]
  = match dict_get methods (KMethod m) with
    | Some o => [o]
    | None => []
    end.
Proof. unfold own. cbn [flat_map]. apply app_nil_r. Qed.

Lemma own_emit methods m :
  forallb (entry_ok true) methods = true ->
  own methods [m] = map Payload (emit (payloads_of methods) m).
Proof.
  rewrite own_single. unfold emit.
  induction methods as [|[k v] rest IH]; intros Hok; [reflexivity|].
  simpl in Hok. apply andb_true_iff in Hok as [Hk Hok].
  specialize (IH Hok). destruct k as [seg|m']; simpl.
  - exact IH.
  - unfold entry_ok in Hk. simpl in Hk.
    destruct v as [vk vitems|x]; [discriminate|]. simpl.
    destruct (HttpMethod.eqb m' m); [reflexivity|exact IH].
Qed.

Lemma own_app methods ms1 ms2 :
  own methods (ms1 ++ ms2) = own methods ms1 ++ own methods ms2.
Proof. apply flat_map_app. Qed.

Lemma sortedSamples_Node payloads children :
  sortedSamples (Node payloads children)
  = emit payloads HttpMethod.post ++ emit payloads HttpMethod.get
    ++ emit payloads HttpMethod.put
    ++ flat_map (fun sc => sortedSamples (snd sc)) children
    ++ emit payloads HttpMethod.delete.
Proof. reflexivity. Qed.

Lemma dfs_trie :
  forall d : t,
    wfb false d = true ->
    dfs d = map Payload (sortedSamples (trie_of d)).
Proof.
  induction d as [kind items IH|p] using obj_induction; intros Hwf;
    [|discriminate].
  destruct (methods_entry _ _ _ Hwf) as (mk & _ & Hok & _).
  rewrite dfs_Dict, trie_of_Dict, sortedSamples_Node, !map_app.
  change [HttpMethod.post; HttpMethod.get; HttpMethod.put]
    with ([HttpMethod.post] ++ [HttpMethod.get] ++ [HttpMethod.put]).
  rewrite !own_app, !(own_emit _ _ Hok), <- !app_assoc.
  do 3 f_equal. f_equal.
  rewrite wfb_Dict in Hwf. apply andb_true_iff in Hwf as [_ Hitems].
  clear - IH Hitems. induction items as [|[k v] rest IHrest]; [reflexivity|].
  inversion IH as [|? ? Hv IH']; subst. simpl in Hv, Hitems.
  apply andb_true_iff in Hitems as [Hk Hitems].
  rewrite kids_cons, trie_children_cons, (IHrest IH' Hitems).
  destruct k as [seg|m]; [|discriminate].
  rewrite entry_ok_str in Hk. apply andb_true_iff in Hk as [Hk _].
  simpl key_eqb. destruct (String.eqb seg "methods"); [reflexivity|].
  cbn [app flat_map snd]. rewrite map_app, (Hv Hk). reflexivity.
Qed.

End TrieFacts.

(** ** Claims about the traversal as a whole and about failures *)

Section TraversalClaims.
Import CodeSamplesTree TreeFacts TrieFacts.

(** A path that does not end in ['/'] is cut by the recursion into its
    parts. *)
Lemma proper_segments (p : string) :
  proper_path p = true -> segments p = path_parts p.
Proof.
  unfold proper_path, segments. intros H.
  destruct (effective_cases (path_parts p)) as [E|E]; [exact E|].
  rewrite E, last_last in H. discriminate.
Qed.

Lemma put_all_trie (samples : list CodeSample) :
  forall root,
    wfb false root = true ->
    Forall (fun s => ~ In "methods" (segments (path_of s))) samples ->
    Forall (fun s => proper_path (path_of s) = true) samples ->
    all_return path_of http_method root samples /\
    wfb false (put_all path_of http_method root samples) = true /\
    trie_of (put_all path_of http_method root samples)
    = fold_left SampleOrderTree.insert samples (trie_of root).
Proof.
  induction samples as [|s rest IH]; intros root Hwf Hall Hproper.
  - simpl. auto.
  - inversion Hall as [|? ? Hs Hrest]; subst.
    inversion Hproper as [|? ? Hp Hprest]; subst.
    cbn [all_return put_all fold_left]. unfold SampleOrderTree.insert at 2.
    rewrite <- (proper_segments _ Hp).
    rewrite put_payload_segs.
    destruct (trie_put (segments (path_of s)) root s Hwf Hs) as [H1 H2].
    { intros E. exfalso. exact (segments_not_nil _ E). }
    destruct (put_segs_shape _ (segments (path_of s)) root (http_method s) s
                false Hwf) as [Hwf' _].
    destruct (IH _ Hwf' Hrest Hprest) as (IH1 & IH2 & IH3).
    fold (put_all path_of http_method
            (fst (put_segs (segments (path_of s)) root (http_method s) s))
            rest).
    rewrite IH3, H2. auto.
Qed.

Lemma items_is_not_methods (l : string) : (l ++ "items")%string <> "methods".
Proof.
  intros E. pose proof (f_equal String.length E) as HL.
  rewrite length_append in HL. simpl in HL.
  destruct l as [|a [|b [|c l]]]; simpl in HL; try lia.
  simpl in E. inversion E.
Qed.

Lemma append_items_not_empty (l : string) : (l ++ "items")%string <> "".
Proof. destruct l; discriminate. Qed.

Lemma scenario_proper (l : Language) :
  Str.free_of slash (value l) = true ->
  Forall (fun s => proper_path (path_of s) = true) (scenario l).
Proof.
  intros Hfree. pose proof (append_items_not_empty (value l)) as Hne.
  apply String.eqb_neq in Hne.
  unfold scenario, path_of, proper_path, path_parts.
  repeat constructor; cbn [lang name];
    rewrite (split_free_prefix _ _ Hfree); simpl; rewrite ?Hne;
    reflexivity.
Qed.

Lemma scenario_without_methods (l : Language) :
  Str.free_of slash (value l) = true ->
  Forall (fun s => ~ In "methods" (segments (path_of s))) (scenario l).
Proof.
  intros Hfree. pose proof (items_is_not_methods (value l)) as Hne.
  unfold scenario, path_of, segments, path_parts.
  repeat constructor; cbn [lang name];
    rewrite (split_free_prefix _ _ Hfree); simpl;
    intuition (try discriminate; try congruence).
Qed.

(** Where the code and the trie of the specification agree.  When no key
    has a segment ['methods'] and none ends in ['/'], every [put] returns
    and [list_sorted_samples] returns the samples in the order of the
    traversal own POST, own GET, own PUT, every child's sub-sequence, own
    DELETE, of the trie built by inserting the same samples.  For the
    scenario of the specification, in a language whose value has no ['/'],
    that is items:POST, items:GET, items/{id}:GET, items/{id}:DELETE,
    items:DELETE. *)
Lemma traversal_matches_trie :
  (forall samples : list CodeSample,
      Forall (fun s => ~ In "methods" (segments (path_of s))) samples ->
      Forall (fun s => proper_path (path_of s) = true) samples ->
      all_return path_of http_method init samples /\
      traversal_matches samples) /\
  (forall l : Language,
      Str.free_of slash (value l) = true ->
      list_sorted_samples (put_all path_of http_method init (scenario l))
      = Ok (map Payload (scenario l))).
Proof.
  assert (forall samples : list CodeSample,
      Forall (fun s => ~ In "methods" (segments (path_of s))) samples ->
      Forall (fun s => proper_path (path_of s) = true) samples ->
      all_return path_of http_method init samples /\
      traversal_matches samples) as Hgeneral.
  { intros samples Hall Hproper.
    destruct (put_all_trie samples init eq_refl Hall Hproper)
      as (H1 & H2 & H3).
    split; [exact H1|]. unfold traversal_matches.
    rewrite (list_sorted_samples_dfs _ H2), (dfs_trie _ H2), H3.
    reflexivity. }
  split; [exact Hgeneral|].
  intros l Hfree.
  destruct (Hgeneral _ (scenario_without_methods l Hfree)
              (scenario_proper l Hfree)) as [_ H].
  unfold traversal_matches in H. rewrite H. do 2 f_equal.
  unfold SampleOrderTree.insert_all, scenario, SampleOrderTree.insert,
    path_of, path_parts.
  cbn [fold_left lang name].
  rewrite !(split_free_prefix _ _ Hfree). simpl.
  repeat (progress (unfold SampleOrderTree.getOrCreateChild; simpl;
                    rewrite ?String.eqb_refl)).
  reflexivity.
Qed.

Lemma traversal_matches_trie_example :
  traversal_matches
    [Examples.post_payment_cards; Examples.post_payment; Examples.get_items]
  /\ list_sorted_samples
       (put_all path_of http_method init (scenario Examples.python))
     = Ok (map Payload (scenario Examples.python)).
Proof.
  destruct traversal_matches_trie as [Hgeneral Hscenario]. split.
  - apply Hgeneral.
    + repeat constructor; simpl; intuition discriminate.
    + repeat constructor.
  - apply Hscenario. reflexivity.
Defined.

(** The code files a path that ends in ['/'] in the node of the path
    without it, where the trie of the specification has a child for the
    empty last segment: after GET [/a] and POST [/a/] the code lists the
    POST first, the trie the GET. *)
Lemma trailing_slash_shares_node :
  list_sorted_samples
    (put_all path_of http_method init
       [MoreExamples.get_a; MoreExamples.post_a_slash])
  = Ok [Payload MoreExamples.post_a_slash; Payload MoreExamples.get_a] /\
  SampleOrderTree.sortedSamples
    (SampleOrderTree.insert_all
       [MoreExamples.get_a; MoreExamples.post_a_slash])
  = [MoreExamples.get_a; MoreExamples.post_a_slash] /\
  ~ traversal_matches [MoreExamples.get_a; MoreExamples.post_a_slash].
Proof.
  repeat split; try reflexivity.
  unfold traversal_matches. vm_compute. discriminate.
Qed.

(** C1.  [list_sorted_samples] is not the traversal of the trie when a
    key has the segment ['methods']: after [put] of the one sample GET
    [/payment/methods], which returns and stores it, the trie of the
    specification lists the sample and [list_sorted_samples] returns the
    empty list.  The traversal reads the key ['methods'] of every node as
    the node's own map of samples and leaves it out of the children, so the
    node filed under the segment ['methods'] is never visited. *)
Theorem traversal_skips_methods_child :
  snd (put init Examples.get_payment_methods) = Returned /\
  stored path_of http_method
    (put_all path_of http_method init [Examples.get_payment_methods])
    Examples.get_payment_methods /\
  list_sorted_samples
    (put_all path_of http_method init [Examples.get_payment_methods])
  = Ok [] /\
  SampleOrderTree.sortedSamples
    (SampleOrderTree.insert_all [Examples.get_payment_methods])
  = [Examples.get_payment_methods] /\
  ~ traversal_matches [Examples.get_payment_methods].
Proof.
  repeat split; try reflexivity.
  unfold traversal_matches. vm_compute. discriminate.
Qed.

(** C5.  [put] raises [KeyError] when a path ends in the segment
    ['methods'] and the node above it already holds a sample or result;
    in the other order both calls return. *)
Theorem put_raises_KeyError :
  snd (put (fst (put init Examples.get_payment))
         Examples.get_payment_methods) = Raised KeyError /\
  snd (TestExecutionResultMap.put
         (fst (TestExecutionResultMap.put TestExecutionResultMap.init
                 Examples.post_payment_result))
         Examples.post_payment_methods_result) = Raised KeyError /\
  snd (put (fst (put init Examples.get_payment_methods))
         Examples.get_payment) = Returned.
Proof. repeat split; reflexivity. Qed.

(** The read operations never raise in a reachable state. *)
Lemma reads_return :
  (forall self, reachable self ->
     exists out, list_sorted_samples self = Ok out) /\
  (forall self child, TestExecutionResultMap.reachable self ->
     exists r, TestExecutionResultMap.get_parent_result self child = Ok r) /\
  (forall self child, TestExecutionResultMap.reachable self ->
     exists b, TestExecutionResultMap.get_parent_body self child = Ok b).
Proof.
  split; [|split].
  - intros self R. exists (dfs self). apply list_sorted_samples_dfs.
    exact (reachable_wf _ _ _ _ R).
  - intros self child R. apply get_parent_result_returns. exact R.
  - intros self child R.
    destruct (get_parent_result_returns self child R) as [r Hr].
    unfold TestExecutionResultMap.get_parent_body. rewrite Hr.
    destruct r as [o|]; [|eauto].
    destruct (get_parent_result_payload self child o R Hr)
      as (parent & -> & _).
    eauto.
Qed.

End TraversalClaims.

(** * Further properties of [put] *)

Section PutProperties.

(** A call that runs out of frames leaves the nodes it created: with two
    frames left, [put] of POST [/payment/cards] on a new tree ends with
    [FuelExhausted] and leaves the empty node of [/payment]. *)
Lemma put_out_of_frames_leaves_nodes :
  CodeSamplesTree.put_within 2 CodeSamplesTree.init
    Examples.post_payment_cards
  = (Dict PlainDict
       [(KStr "python",
         Dict DefaultDict [(KStr "payment", Dict DefaultDict [])])],
     FuelExhausted).
Proof. reflexivity. Qed.

(** X1.  A call of [put] that does not return loses, adds and moves no
    payload, and unless it ran out of frames it leaves the dictionary
    exactly as it was; in both classes, in any state and with any number
    of frames left. *)
Theorem put_failure_keeps_payloads :
  (forall (frames_left : nat) (self : CodeSamplesTree.t) (s : CodeSample),
      snd (CodeSamplesTree.put_within frames_left self s) <> Returned ->
      (snd (CodeSamplesTree.put_within frames_left self s)
       <> FuelExhausted ->
       fst (CodeSamplesTree.put_within frames_left self s) = self) /\
      (forall loc x,
          lookup (fst (CodeSamplesTree.put_within frames_left self s)) loc
          = Some (Payload x) <->
          lookup self loc = Some (Payload x))) /\
  (forall (frames_left : nat) (self : TestExecutionResultMap.t)
          (r : ApiTestResult),
      snd (TestExecutionResultMap.put_within frames_left self r)
      <> Returned ->
      (snd (TestExecutionResultMap.put_within frames_left self r)
       <> FuelExhausted ->
       fst (TestExecutionResultMap.put_within frames_left self r) = self) /\
      (forall loc x,
          lookup (fst (TestExecutionResultMap.put_within frames_left self r))
            loc
          = Some (Payload x) <->
          lookup self loc = Some (Payload x))).
Proof.
  split; intros n self x H.
  - exact (put_payload_within_raise _ CodeSamplesTree.path_of http_method
             n self x H).
  - exact (put_payload_within_raise _ TestExecutionResultMap.path_of
             TestExecutionResultMap.method_of n self x H).
Qed.

Lemma put_failure_keeps_payloads_witness :
  (fst (CodeSamplesTree.put_within 3 MoreExamples.put_payment
          Examples.get_payment_methods)
   = MoreExamples.put_payment) /\
  (forall loc x,
      lookup (fst (CodeSamplesTree.put_within 2 Examples.tree
                     Examples.post_payment_cards)) loc
      = Some (Payload x) <->
      lookup Examples.tree loc = Some (Payload x)).
Proof.
  destruct put_failure_keeps_payloads as [Htree _]. split.
  - apply (Htree 3 MoreExamples.put_payment Examples.get_payment_methods);
      discriminate.
  - apply (Htree 2 Examples.tree Examples.post_payment_cards).
    discriminate.
Defined.



(** X3.  Calling [put] a second time with the same payload ends as the
    first call did and leaves the state the first call left, in both
    classes and in any state. *)
Theorem put_twice_same_payload :
  (forall (self : CodeSamplesTree.t) (s : CodeSample),
      CodeSamplesTree.put (fst (CodeSamplesTree.put self s)) s
      = CodeSamplesTree.put self s) /\
  (forall (self : TestExecutionResultMap.t) (r : ApiTestResult),
      TestExecutionResultMap.put (fst (TestExecutionResultMap.put self r)) r
      = TestExecutionResultMap.put self r).
Proof.
  split; intros self x.
  - exact (put_payload_idempotent _ CodeSamplesTree.path_of http_method
             self x).
  - exact (put_payload_idempotent _ TestExecutionResultMap.path_of
             TestExecutionResultMap.method_of self x).
Qed.

(** X4.  Nothing is removed: a payload that is stored is still stored
    after any call of [put], unless that call returns and is for the same
    segments and method, in which case the new payload is stored there. *)
Theorem put_keeps_stored :
  (forall (self : CodeSamplesTree.t) (s x : CodeSample),
      stored CodeSamplesTree.path_of http_method self x ->
      stored CodeSamplesTree.path_of http_method
        (fst (CodeSamplesTree.put self s)) x \/
      (snd (CodeSamplesTree.put self s) = Returned /\
       segments (CodeSamplesTree.path_of s)
       = segments (CodeSamplesTree.path_of x) /\
       http_method s = http_method x /\
       stored CodeSamplesTree.path_of http_method
         (fst (CodeSamplesTree.put self s)) s)) /\
  (forall (self : TestExecutionResultMap.t) (r x : ApiTestResult),
      stored TestExecutionResultMap.path_of TestExecutionResultMap.method_of
        self x ->
      stored TestExecutionResultMap.path_of TestExecutionResultMap.method_of
        (fst (TestExecutionResultMap.put self r)) x \/
      (snd (TestExecutionResultMap.put self r) = Returned /\
       segments (name (sample r)) = segments (name (sample x)) /\
       http_method (sample r) = http_method (sample x) /\
       stored TestExecutionResultMap.path_of
         TestExecutionResultMap.method_of
         (fst (TestExecutionResultMap.put self r)) r)).
Proof.
  split; intros self p x S.
  - exact (put_payload_persists _ CodeSamplesTree.path_of http_method
             self p x S).
  - exact (put_payload_persists _ TestExecutionResultMap.path_of
             TestExecutionResultMap.method_of self p x S).
Qed.

Lemma put_keeps_stored_witness :
  stored CodeSamplesTree.path_of http_method
    (fst (CodeSamplesTree.put Examples.tree Examples.post_payment_cards))
    Examples.get_items \/
  (snd (CodeSamplesTree.put Examples.tree Examples.post_payment_cards)
   = Returned /\
   segments (CodeSamplesTree.path_of Examples.post_payment_cards)
   = segments (CodeSamplesTree.path_of Examples.get_items) /\
   http_method Examples.post_payment_cards = http_method Examples.get_items /\
   stored CodeSamplesTree.path_of http_method
     (fst (CodeSamplesTree.put Examples.tree Examples.post_payment_cards))
     Examples.post_payment_cards).
Proof.
  apply put_keeps_stored. reflexivity.
Defined.

(** X5.  Whatever the dictionary holds after any calls of [put] on a new
    instance is one of the payloads given to [put], and it is filed in the
    slot of its own segments and method. *)
Theorem store_holds_what_was_put :
  (forall (samples : list CodeSample) loc (x : CodeSample),
      lookup (put_all CodeSamplesTree.path_of http_method
                CodeSamplesTree.init samples) loc = Some (Payload x) ->
      In x samples /\
      loc = slot (segments (CodeSamplesTree.path_of x)) (http_method x)) /\
  (forall (results : list ApiTestResult) loc (x : ApiTestResult),
      lookup (put_all TestExecutionResultMap.path_of
                TestExecutionResultMap.method_of
                TestExecutionResultMap.init results) loc
      = Some (Payload x) ->
      In x results /\
      loc = slot (segments (name (sample x))) (http_method (sample x))).
Proof.
  split; intros l loc x H.
  - split.
    + apply put_all_lookup in H as [H|H]; [exact H|].
      exfalso. exact (lookup_empty _ _ _ _ H).
    + apply (reachable_located _ CodeSamplesTree.path_of http_method _
               (reachable_put_all _ _ _ _ l (reachable_init _ _)) _ _ H).
  - split.
    + apply put_all_lookup in H as [H|H]; [exact H|].
      exfalso. exact (lookup_empty _ _ _ _ H).
    + apply (reachable_located _ TestExecutionResultMap.path_of
               TestExecutionResultMap.method_of _
               (reachable_put_all _ _ _ _ l (reachable_init _ _)) _ _ H).
Qed.

Lemma store_holds_what_was_put_witness :
  In Examples.get_items
    [Examples.get_payment_methods; Examples.get_items; Examples.patch_items;
     Examples.get_payment] /\
  [KStr "python"; KStr "items"; methods_key; KMethod HttpMethod.get]
  = slot (segments (CodeSamplesTree.path_of Examples.get_items))
      (http_method Examples.get_items).
Proof.
  destruct store_holds_what_was_put as [Htree _].
  apply (Htree
           [Examples.get_payment_methods; Examples.get_items;
            Examples.patch_items; Examples.get_payment]
           [KStr "python"; KStr "items"; methods_key;
            KMethod HttpMethod.get]
           Examples.get_items).
  reflexivity.
Defined.

End PutProperties.

(** * Further properties of the result map *)

Section ParentFacts.
Import TestExecutionResultMap ResultMapFacts.

Lemma strict_prefix_nil q : ~ strict_prefix q [].
Proof.
  intros (rest & Hne & E). destruct q; destruct rest; simpl in E; congruence.
Qed.

Lemma strict_prefix_cons_inv q seg rest :
  strict_prefix q (seg :: rest) ->
  q = [] \/ exists q', q = seg :: q' /\ strict_prefix q' rest.
Proof.
  intros (r & Hne & E). destruct q as [|s q]; [auto|]. right.
  simpl in E. inversion E; subst. exists q. split; [reflexivity|].
  exists r. auto.
Qed.

Lemma strict_prefix_cons q seg rest :
  strict_prefix q rest -> strict_prefix (seg :: q) (seg :: rest).
Proof. intros (r & Hne & ->). exists r. auto. Qed.

Lemma strict_prefix_same_length q1 q2 l :
  strict_prefix q1 l -> strict_prefix q2 l -> length q1 = length q2 ->
  q1 = q2.
Proof.
  intros (r1 & _ & ->) (r2 & _ & E) Hlen. revert q2 E Hlen.
  induction q1 as [|x q1 IH]; intros [|y q2] E Hlen; simpl in *;
    try reflexivity; try discriminate.
  inversion E; subst. f_equal. apply IH; [assumption|lia].
Qed.

(** The object in the POST slot of the dictionary itself. *)
Lemma own_post_lookup kind (items : list (key * t)) mk methods :
  match dict_get items methods_key with
  | Some o => o
  | None => Dict PlainDict []
  end = Dict mk methods ->
  lookup (Dict kind items) (slot [] HttpMethod.post)
  = dict_get methods (KMethod HttpMethod.post).
Proof.
  unfold slot. simpl. destruct (dict_get items methods_key) as [o|].
  - intros ->. destruct (dict_get methods (KMethod HttpMethod.post));
      reflexivity.
  - intros [= <- <-]. reflexivity.
Qed.

(** The walk returns the object in the POST slot of the longest proper
    prefix that has one, and the running value it started with if there is
    none. *)
Lemma parent_walk_longest segs :
  forall (d : t) um cp R,
    wfb um d = true ->
    parent_walk segs d cp = Ok R ->
    (R = cp /\
     forall q, strict_prefix q segs ->
               lookup d (slot q HttpMethod.post) = None) \/
    (exists q,
        strict_prefix q segs /\
        lookup d (slot q HttpMethod.post) = R /\ R <> None /\
        forall q', strict_prefix q' segs -> length q < length q' ->
                   lookup d (slot q' HttpMethod.post) = None).
Proof.
  induction segs as [|seg rest IH]; intros d um cp R Hwf H.
  - simpl in H. left. split; [congruence|].
    intros q Hq. exfalso. exact (strict_prefix_nil q Hq).
  - cbn [parent_walk] in H. destruct d as [kind items|x]; [|discriminate].
    assert (exists mk methods,
               match dict_get items methods_key with
               | Some o => o
               | None => Dict PlainDict []
               end = Dict mk methods) as (mk & methods & Hm).
    { destruct (dict_get items methods_key) as [o|] eqn:G; [|eauto].
      destruct (wfb_child _ _ _ _ _ _ Hwf G) as [Ho _].
      apply wfb_is_dict in Ho. exact Ho. }
    rewrite Hm in H. pose proof (own_post_lookup kind items mk methods Hm)
      as Hown.
    (* what follows from: nothing below has a POST, and the walk returns
       the value updated at this dictionary *)
    assert ((forall q', strict_prefix q' rest ->
               lookup (Dict kind items) (slot (seg :: q') HttpMethod.post)
               = None) ->
            R = match dict_get methods (KMethod HttpMethod.post) with
                | Some o => Some o
                | None => cp
                end ->
            (R = cp /\
             forall q, strict_prefix q (seg :: rest) ->
                       lookup (Dict kind items) (slot q HttpMethod.post)
                       = None) \/
            (exists q,
                strict_prefix q (seg :: rest) /\
                lookup (Dict kind items) (slot q HttpMethod.post) = R /\
                R <> None /\
                forall q', strict_prefix q' (seg :: rest) ->
                           length q < length q' ->
                           lookup (Dict kind items)
                             (slot q' HttpMethod.post) = None)) as Hhere.
    { intros Hbelow HR.
      destruct (dict_get methods (KMethod HttpMethod.post)) as [o|] eqn:G.
      - right. exists []. split; [|split; [|split]].
        + exists (seg :: rest). split; [discriminate|reflexivity].
        + congruence.
        + congruence.
        + intros q' Hq' Hlen.
          apply strict_prefix_cons_inv in Hq' as [->|(q3 & -> & Hq3)];
            [simpl in Hlen; lia|auto].
      - left. split; [exact HR|]. intros q Hq.
        apply strict_prefix_cons_inv in Hq as [->|(q3 & -> & Hq3)];
          [congruence|auto]. }
    destruct (dict_get items (KStr seg)) as [next|] eqn:G.
    + destruct (truthy (Some next)) eqn:T; cbn [negb] in H.
      * destruct (wfb_child _ _ _ _ _ _ Hwf G) as [Hn _].
        destruct (IH next _ _ R Hn H)
          as [[HR Hnone]|(q & Hq & Hl & Hne & Hlong)].
        -- apply Hhere; [|exact HR].
           intros q' Hq'. rewrite slot_cons. simpl. rewrite G. auto.
        -- right. exists (seg :: q). split; [|split; [|split]].
           ++ apply strict_prefix_cons. exact Hq.
           ++ rewrite slot_cons. simpl. rewrite G. exact Hl.
           ++ exact Hne.
           ++ intros q' Hq' Hlen.
              apply strict_prefix_cons_inv in Hq' as [->|(q3 & -> & Hq3)];
                [simpl in Hlen; lia|].
              rewrite slot_cons. simpl. rewrite G. apply Hlong; [exact Hq3|].
              simpl in Hlen. lia.
      * apply Hhere; [|injection H as H; symmetry; exact H].
        intros q' _. rewrite slot_cons. simpl. rewrite G.
        destruct next as [nk [|kv nitems]|x]; try discriminate.
        unfold slot. destruct q'; reflexivity.
    + cbn [truthy negb] in H.
      apply Hhere; [|injection H as H; symmetry; exact H].
      intros q' _. rewrite slot_cons. simpl. rewrite G. reflexivity.
Qed.

(** Two well-shaped dictionaries with the same POST slots give the same
    walk. *)
Lemma parent_walk_determined segs (d1 d2 : t) :
  wf d1 -> wf d2 ->
  (forall q, lookup d1 (slot q HttpMethod.post)
             = lookup d2 (slot q HttpMethod.post)) ->
  parent_walk segs d1 None = parent_walk segs d2 None.
Proof.
  intros W1 W2 Hsame.
  destruct (parent_walk_total segs d1 false None W1) as [R1 H1].
  destruct (parent_walk_total segs d2 false None W2) as [R2 H2].
  rewrite H1, H2. f_equal.
  destruct (parent_walk_longest segs d1 _ _ R1 W1 H1)
    as [[E1 N1]|(q1 & P1 & L1 & Ne1 & Long1)];
  destruct (parent_walk_longest segs d2 _ _ R2 W2 H2)
    as [[E2 N2]|(q2 & P2 & L2 & Ne2 & Long2)].
  - congruence.
  - exfalso. apply Ne2. rewrite <- L2, <- Hsame. auto.
  - exfalso. apply Ne1. rewrite <- L1, Hsame. auto.
  - destruct (Nat.lt_trichotomy (length q1) (length q2)) as [Hlt|[Heq|Hgt]].
    + exfalso. apply Ne2. rewrite <- L2, <- Hsame. auto.
    + rewrite (strict_prefix_same_length _ _ _ P1 P2 Heq) in L1. congruence.
    + exfalso. apply Ne1. rewrite <- L1, Hsame. auto.
Qed.

Lemma put_other_method_post_slots (self : t) (r : ApiTestResult) :
  reachable self ->
  http_method (sample r) <> HttpMethod.post ->
  forall q, lookup (fst (put self r)) (slot q HttpMethod.post)
            = lookup self (slot q HttpMethod.post).
Proof.
  intros R Hm q.
  assert (reachable (fst (put self r))) as R' by (apply reachable_put; exact R).
  pose proof (reachable_wf _ _ _ _ R) as W.
  pose proof (reachable_wf _ _ _ _ R') as W'.
  assert (forall x,
            lookup (fst (put self r)) (slot q HttpMethod.post)
            = Some (Payload x) ->
            lookup self (slot q HttpMethod.post) = Some (Payload x)) as HA.
  { intros x A.
    change (put self r) with (put_payload path_of method_of self r) in A.
    rewrite put_payload_segs in A.
    apply put_segs_lookup_inv in A as [[E _]|A]; [|exact A].
    apply slot_inj in E as [_ E]. unfold method_of in E. congruence. }
  assert (forall x,
            lookup self (slot q HttpMethod.post) = Some (Payload x) ->
            lookup (fst (put self r)) (slot q HttpMethod.post)
            = Some (Payload x)) as HB.
  { intros x B.
    change (put self r) with (put_payload path_of method_of self r).
    rewrite put_payload_segs. apply put_segs_slot_keep; [exact B|].
    unfold method_of. congruence. }
  destruct (lookup (fst (put self r)) (slot q HttpMethod.post))
    as [o|] eqn:A.
  - destruct (slot_method_payload _ _ _ _ _ W' A) as [x ->].
    symmetry. apply HA. reflexivity.
  - destruct (lookup self (slot q HttpMethod.post)) as [o|] eqn:B;
      [|reflexivity].
    destruct (slot_method_payload _ _ _ _ _ W B) as [x ->].
    specialize (HB x eq_refl). discriminate.
Qed.

Lemma effective_app_empty (parts : list string) :
  parts <> [] -> effective (parts ++ [""]) = parts.
Proof.
  induction parts as [|p rest IH]; intros Hne; [congruence|].
  destruct rest as [|p2 rest]; [reflexivity|].
  cbn [app effective].
  destruct (String.eqb_spec (Str.join "/" (p2 :: rest ++ [""])) "")
    as [E|_].
  - apply join_eq_empty in E as [E|E]; [discriminate|].
    destruct rest; discriminate.
  - f_equal. apply IH. discriminate.
Qed.

(** A trailing ['/'] does not change the segments. *)
Lemma segments_trailing_slash (p : string) :
  proper_path p = true -> segments (p ++ "/") = segments p.
Proof.
  intros H. rewrite (proper_segments p H). unfold segments, path_parts.
  change (p ++ "/")%string with (p ++ "/" ++ "")%string.
  rewrite split_app. apply effective_app_empty. apply split_not_nil.
Qed.

End ParentFacts.

Section ResultMapProperties.
Import TestExecutionResultMap ResultMapFacts.

(** X6.  In a reachable state [get_parent_result] returns the POST result
    recorded for the longest proper prefix of the sample's segments that
    has one, whatever is or is not recorded in between, and [None] exactly
    when no proper prefix has one. *)
Theorem get_parent_result_longest_prefix :
  forall (self : t) (child : CodeSample),
    reachable self ->
    exists R,
      get_parent_result self child = Ok R /\
      match R with
      | None =>
          forall q, strict_prefix q (segments (name child)) ->
                    lookup self (slot q HttpMethod.post) = None
      | Some o =>
          exists q parent,
            o = Payload parent /\
            strict_prefix q (segments (name child)) /\
            lookup self (slot q HttpMethod.post) = Some (Payload parent) /\
            forall q', strict_prefix q' (segments (name child)) ->
                       length q < length q' ->
                       lookup self (slot q' HttpMethod.post) = None
      end.
Proof.
  intros self child R. pose proof (reachable_wf _ _ _ _ R) as W.
  rewrite get_parent_result_walk.
  destruct (parent_walk_total (segments (name child)) self false None W)
    as [res H].
  exists res. split; [exact H|].
  destruct (parent_walk_longest _ self _ _ res W H)
    as [[-> Hnone]|(q & Hq & Hl & Hne & Hlong)].
  - exact Hnone.
  - destruct res as [o|]; [|congruence].
    destruct (slot_method_payload _ _ _ _ _ W Hl) as [parent ->].
    exists q, parent. auto.
Qed.

Lemma get_parent_result_longest_prefix_witness :
  exists R,
    get_parent_result Examples.results
      (Examples.code Examples.js "items/9/parts/4" HttpMethod.get) = Ok R /\
    match R with
    | None =>
        forall q,
          strict_prefix q (segments "items/9/parts/4") ->
          lookup Examples.results (slot q HttpMethod.post) = None
    | Some o =>
        exists q parent,
          o = Payload parent /\
          strict_prefix q (segments "items/9/parts/4") /\
          lookup Examples.results (slot q HttpMethod.post)
          = Some (Payload parent) /\
          forall q', strict_prefix q' (segments "items/9/parts/4") ->
                     length q < length q' ->
                     lookup Examples.results (slot q' HttpMethod.post) = None
    end.
Proof.
  apply (get_parent_result_longest_prefix Examples.results
           (Examples.code Examples.js "items/9/parts/4" HttpMethod.get)).
  exact reachable_results.
Defined.

(** X7.  Recording a result whose method is not POST changes the parent
    result of no sample. *)
Theorem put_other_method_keeps_parents :
  forall (self : t) (r : ApiTestResult) (child : CodeSample),
    reachable self ->
    http_method (sample r) <> HttpMethod.post ->
    get_parent_result (fst (put self r)) child
    = get_parent_result self child.
Proof.
  intros self r child R Hm. rewrite !get_parent_result_walk.
  apply parent_walk_determined.
  - apply (reachable_wf _ path_of method_of). apply reachable_put. exact R.
  - exact (reachable_wf _ _ _ _ R).
  - apply put_other_method_post_slots; assumption.
Qed.

Lemma put_other_method_keeps_parents_witness :
  get_parent_result
    (fst (put Examples.results MoreExamples.get_item_parts))
    (Examples.code Examples.js "items/7/parts" HttpMethod.get)
  = get_parent_result Examples.results
      (Examples.code Examples.js "items/7/parts" HttpMethod.get).
Proof.
  apply put_other_method_keeps_parents.
  - exact reachable_results.
  - discriminate.
Defined.

(** X8.  Round trip: once a POST result is recorded for a path that does
    not end in ['/'], the parent result of every sample one segment below
    that path is this result, and the parent body is its body ([{}] when
    it has none). *)
Theorem put_then_get_parent :
  forall (self : t) (r : ApiTestResult) (c : string) (child : CodeSample),
    reachable self ->
    http_method (sample r) = HttpMethod.post ->
    snd (put self r) = Returned ->
    proper_path (name (sample r)) = true ->
    valid_segment c = true ->
    name child = (name (sample r) ++ "/" ++ c)%string ->
    get_parent_result (fst (put self r)) child = Ok (Some (Payload r)) /\
    get_parent_body (fst (put self r)) child = Ok (or_empty (json_body r)).
Proof.
  intros self r c child R Hm Hret Hp Hc Hname.
  assert (get_parent_result (fst (put self r)) child = Ok (Some (Payload r)))
    as H.
  { rewrite get_parent_result_walk, Hname, (segments_child _ _ Hc).
    eapply parent_walk_nearest.
    - apply (reachable_wf _ path_of method_of). apply reachable_put. exact R.
    - pose proof (put_payload_stored _ path_of method_of self r Hret) as S.
      unfold stored, path_of, method_of in S.
      rewrite Hm, (proper_segments _ Hp) in S. exact S. }
  split; [exact H|]. unfold get_parent_body. rewrite H. reflexivity.
Qed.

Lemma put_then_get_parent_witness :
  get_parent_result
    (fst (put Examples.results Examples.post_items_again))
    (Examples.code Examples.js "items/{id}" HttpMethod.get)
  = Ok (Some (Payload Examples.post_items_again)) /\
  get_parent_body
    (fst (put Examples.results Examples.post_items_again))
    (Examples.code Examples.js "items/{id}" HttpMethod.get)
  = Ok [("id", "8")].
Proof.
  apply (put_then_get_parent Examples.results Examples.post_items_again
           "{id}").
  - exact reachable_results.
  - reflexivity.
  - reflexivity.
  - reflexivity.
  - reflexivity.
  - reflexivity.
Defined.

(** X9.  A trailing ['/'] is ignored: a payload whose path is the path of a
    stored payload followed by ['/'], with the same method, is stored by
    [put] in the place of that payload. *)
Theorem put_trailing_slash_overwrites :
  (forall (self : CodeSamplesTree.t) (s s' : CodeSample),
      stored CodeSamplesTree.path_of http_method self s ->
      proper_path (CodeSamplesTree.path_of s) = true ->
      lang s' = lang s ->
      name s' = (name s ++ "/")%string ->
      http_method s' = http_method s ->
      snd (CodeSamplesTree.put self s') = Returned /\
      lookup (fst (CodeSamplesTree.put self s'))
        (slot (segments (CodeSamplesTree.path_of s)) (http_method s))
      = Some (Payload s')) /\
  (forall (self : t) (r r' : ApiTestResult),
      stored path_of method_of self r ->
      proper_path (name (sample r)) = true ->
      name (sample r') = (name (sample r) ++ "/")%string ->
      http_method (sample r') = http_method (sample r) ->
      snd (put self r') = Returned /\
      lookup (fst (put self r'))
        (slot (segments (name (sample r))) (http_method (sample r)))
      = Some (Payload r')).
Proof.
  split.
  - intros self s s' S Hp Hl Hn Hm.
    assert (segments (CodeSamplesTree.path_of s')
            = segments (CodeSamplesTree.path_of s)) as E.
    { unfold CodeSamplesTree.path_of in *. rewrite Hl, Hn, <- append_assoc.
      apply segments_trailing_slash. exact Hp. }
    assert (snd (CodeSamplesTree.put self s') = Returned) as Hret.
    { apply (put_payload_again _ CodeSamplesTree.path_of http_method
               self s' s S E Hm). }
    split; [exact Hret|].
    pose proof (put_payload_stored _ CodeSamplesTree.path_of http_method
                  self s' Hret) as S'.
    unfold stored in S'. rewrite E, Hm in S'. exact S'.
  - intros self r r' S Hp Hn Hm.
    assert (segments (path_of r') = segments (path_of r)) as E.
    { unfold path_of. rewrite Hn. apply segments_trailing_slash. exact Hp. }
    assert (snd (put self r') = Returned) as Hret.
    { apply (put_payload_again _ path_of method_of self r' r S E Hm). }
    split; [exact Hret|].
    pose proof (put_payload_stored _ path_of method_of self r' Hret) as S'.
    unfold stored in S'. rewrite E in S'. unfold method_of in S'.
    rewrite Hm in S'. exact S'.
Qed.

Lemma put_trailing_slash_overwrites_witness :
  snd (put Examples.results
         (Examples.result_of "items/" HttpMethod.post None)) = Returned /\
  lookup
    (fst (put Examples.results
            (Examples.result_of "items/" HttpMethod.post None)))
    (slot (segments "items") HttpMethod.post)
  = Some (Payload (Examples.result_of "items/" HttpMethod.post None)).
Proof.
  destruct put_trailing_slash_overwrites as [_ Hmap].
  apply (Hmap Examples.results Examples.post_items
           (Examples.result_of "items/" HttpMethod.post None));
    reflexivity.
Defined.

End ResultMapProperties.

(** * Further properties of the sorted list *)

Section ListFacts.
Import CodeSamplesTree TreeFacts OrderFacts.

Lemma precedes_app_in (a b : t) l1 l2 :
  In a l1 -> In b l2 -> precedes a b (l1 ++ l2).
Proof.
  intros Ha Hb. apply in_split in Ha as (x & y & ->).
  apply in_split in Hb as (u & v & ->).
  exists x, (y ++ u), v. rewrite <- !app_assoc. reflexivity.
Qed.

Lemma precedes_app_l (a b : t) l l2 :
  precedes a b l -> precedes a b (l ++ l2).
Proof.
  intros H. apply (precedes_app a b l [] l2) in H. exact H.
Qed.

Lemma precedes_app_r (a b : t) l l1 :
  precedes a b l -> precedes a b (l1 ++ l).
Proof.
  intros H. apply (precedes_app a b l l1 []) in H.
  rewrite app_nil_r in H. exact H.
Qed.

Lemma lookup_app (P : Type) (d : obj P) l1 l2 :
  lookup d (l1 ++ l2)
  = match lookup d l1 with
    | Some n => lookup n l2
    | None => None
    end.
Proof.
  revert d. induction l1 as [|k l1 IH]; intros d; [reflexivity|]. simpl.
  destruct d as [kind items|x]; [|reflexivity].
  destruct (dict_get items k); [apply IH|reflexivity].
Qed.

Lemma slot_app q q' m : slot (q ++ q') m = map KStr q ++ slot q' m.
Proof. unfold slot. rewrite map_app, <- app_assoc. reflexivity. Qed.

(** The node reached by segments other than ['methods'] is well shaped,
    and what is listed for it is one block of the list. *)
Lemma node_at q :
  forall (d n : t),
    wfb false d = true -> ~ In "methods" q ->
    lookup d (map KStr q) = Some n ->
    wfb false n = true /\ exists l1 l2, dfs d = l1 ++ dfs n ++ l2.
Proof.
  induction q as [|seg q IH]; intros d n Hwf Hno H.
  - simpl in H. injection H as <-. split; [exact Hwf|].
    exists [], []. rewrite app_nil_r. reflexivity.
  - simpl in H. destruct d as [kind items|x]; [|discriminate].
    destruct (dict_get items (KStr seg)) as [child|] eqn:G; [|discriminate].
    destruct (wfb_child _ _ _ _ _ _ Hwf G) as [Hc _].
    assert (seg <> "methods") as Hseg
      by (intros ->; apply Hno; left; reflexivity).
    destruct (String.eqb_spec seg "methods"); [contradiction|].
    destruct (IH child n Hc) as (Hn & l1 & l2 & E); [|exact H|].
    { intros Hin. apply Hno. right. exact Hin. }
    split; [exact Hn|].
    destruct (kids_split _ _ _ G Hseg) as (K1 & K2 & Hk).
    rewrite dfs_Dict, Hk, E.
    exists (own (methods_of items)
              [HttpMethod.post; HttpMethod.get; HttpMethod.put]
            ++ K1 ++ l1),
      (l2 ++ K2 ++ own (methods_of items) [HttpMethod.delete]).
    rewrite <- !app_assoc. reflexivity.
Qed.

(** A payload in a slot lies in the node at the segments of the slot. *)
Lemma slot_node (d : t) q m o :
  lookup d (slot q m) = Some o ->
  exists n, lookup d (map KStr q) = Some n /\ lookup n (slot [] m) = Some o.
Proof.
  unfold slot at 1. rewrite lookup_app.
  destruct (lookup d (map KStr q)) as [n|]; [eauto|discriminate].
Qed.

Lemma own_methods_app (methods : list (key * t)) ms1 ms2 :
  own methods (ms1 ++ ms2) = own methods ms1 ++ own methods ms2.
Proof. apply flat_map_app. Qed.

Lemma own_in (methods : list (key * t)) m ms o :
  In m ms -> dict_get methods (KMethod m) = Some o -> In o (own methods ms).
Proof. intros Hm H. apply in_own. eauto. Qed.

(** Order inside one node: POST, GET, PUT, DELETE. *)
Lemma node_method_order kind (items : list (key * t)) ma mb a b :
  lookup (Dict kind items) (slot [] ma) = Some a ->
  lookup (Dict kind items) (slot [] mb) = Some b ->
  HttpMethod.ordered ma = true -> HttpMethod.ordered mb = true ->
  method_rank ma < method_rank mb ->
  precedes a b (dfs (Dict kind items)).
Proof.
  intros Ha Hb Oa Ob Hlt. apply own_lookup in Ha, Hb. rewrite dfs_Dict.
  destruct mb; simpl in Hlt, Ob; try discriminate; try lia.
  - (* get *) destruct ma; simpl in Hlt, Oa; try discriminate; try lia.
    apply precedes_app_l.
    change [HttpMethod.post; HttpMethod.get; HttpMethod.put]
      with ([HttpMethod.post] ++ [HttpMethod.get; HttpMethod.put]).
    rewrite own_methods_app. apply precedes_app_in.
    + apply (own_in _ HttpMethod.post); simpl; auto.
    + apply (own_in _ HttpMethod.get); simpl; auto.
  - (* put *) apply precedes_app_l.
    destruct ma; simpl in Hlt, Oa; try discriminate; try lia.
    + change [HttpMethod.post; HttpMethod.get; HttpMethod.put]
        with ([HttpMethod.post] ++ [HttpMethod.get; HttpMethod.put]).
      rewrite own_methods_app. apply precedes_app_in.
      * apply (own_in _ HttpMethod.post); simpl; auto.
      * apply (own_in _ HttpMethod.put); simpl; auto.
    + change [HttpMethod.post; HttpMethod.get; HttpMethod.put]
        with ([HttpMethod.post; HttpMethod.get] ++ [HttpMethod.put]).
      rewrite own_methods_app. apply precedes_app_in.
      * apply (own_in _ HttpMethod.get); simpl; auto.
      * apply (own_in _ HttpMethod.put); simpl; auto.
  - (* delete *) rewrite app_assoc. apply precedes_app_in.
    + apply in_or_app. left.
      destruct ma; simpl in Hlt, Oa; try discriminate; try lia;
        eapply own_in; try eassumption; simpl; auto.
    + apply (own_in _ HttpMethod.delete); simpl; auto.
Qed.

(** Order between a node and what is below it. *)
Lemma node_before_below kind (items : list (key * t)) ma a r mb b :
  wfb false (Dict kind items) = true ->
  lookup (Dict kind items) (slot [] ma) = Some a ->
  lookup (Dict kind items) (slot r mb) = Some b ->
  r <> [] -> ~ In "methods" r ->
  HttpMethod.ordered ma = true -> HttpMethod.ordered mb = true ->
  (ma <> HttpMethod.delete -> precedes a b (dfs (Dict kind items))) /\
  (ma = HttpMethod.delete -> precedes b a (dfs (Dict kind items))).
Proof.
  intros Hwf Ha Hb Hr Hno Oa Ob. apply own_lookup in Ha.
  destruct r as [|seg r]; [congruence|].
  pose proof (lookup_child_in_kids seg r kind items mb b Hwf Hno Ob Hb)
    as Hin.
  rewrite dfs_Dict. split; intros Hm.
  - rewrite app_assoc. apply precedes_app_l. apply precedes_app_in;
      [|exact Hin].
    destruct ma; simpl in Oa; try discriminate; try congruence;
      eapply own_in; try eassumption; simpl; auto.
  - subst ma. apply precedes_app_r. apply precedes_app_in; [exact Hin|].
    apply (own_in _ HttpMethod.delete); simpl; auto.
Qed.

Lemma NoDup_app_block (A : Type) (l1 b l2 : list A) x :
  NoDup (l1 ++ b ++ l2) -> In x b -> ~ In x (l1 ++ l2).
Proof.
  intros Hnd Hb Hin. apply in_split in Hb as (b1 & b2 & ->).
  rewrite <- !app_assoc in Hnd. simpl in Hnd.
  replace (l1 ++ b1 ++ x :: b2 ++ l2) with ((l1 ++ b1) ++ x :: b2 ++ l2)
    in Hnd by (rewrite <- app_assoc; reflexivity).
  apply NoDup_remove_2 in Hnd. apply Hnd.
  rewrite !in_app_iff in *. tauto.
Qed.

(** A stored sample and the node of some of its leading segments. *)
Lemma stored_below (self n : t) q q' m o :
  lookup self (map KStr q) = Some n ->
  lookup self (slot (q ++ q') m) = Some o <-> lookup n (slot q' m) = Some o.
Proof.
  intros H. rewrite slot_app, lookup_app, H. reflexivity.
Qed.

End ListFacts.

Section ListProperties.
Import CodeSamplesTree TreeFacts OrderFacts.

(** X10.  In a reachable state [list_sorted_samples] returns; its list has
    no repetition and holds exactly the stored samples whose method is
    POST, GET, PUT or DELETE and whose key has no segment ['methods']. *)
Theorem list_sorted_samples_exactly :
  forall self : t,
    reachable self ->
    exists out,
      list_sorted_samples self = Ok out /\
      NoDup out /\
      forall o,
        In o out <->
        exists s,
          o = Payload s /\
          stored path_of http_method self s /\
          HttpMethod.ordered (http_method s) = true /\
          ~ In "methods" (segments (path_of s)).
Proof.
  intros self R. pose proof (reachable_wf _ _ _ _ R) as Hwf.
  exists (dfs self). split; [apply list_sorted_samples_dfs; exact Hwf|].
  split; [apply NoDup_dfs; exact R|].
  intros o. split.
  - apply emitted_samples. exact R.
  - intros (s & -> & S & Hm & Hno).
    exact (slot_in_dfs _ _ _ _ Hwf Hno Hm S).
Qed.

Lemma list_sorted_samples_exactly_witness :
  exists out,
    list_sorted_samples Examples.tree = Ok out /\
    NoDup out /\
    forall o,
      In o out <->
      exists s,
        o = Payload s /\
        stored path_of http_method Examples.tree s /\
        HttpMethod.ordered (http_method s) = true /\
        ~ In "methods" (segments (path_of s)).
Proof.
  apply list_sorted_samples_exactly.
  apply reachable_put_all. apply reachable_init.
Defined.

(** X11.  A stored sample with method POST, GET or PUT is listed before
    every listed sample filed below its path, whatever the method of that
    sample, and a stored DELETE sample is listed after every one of them. *)
Theorem node_around_descendants :
  forall (self : t) (parent child : CodeSample),
    reachable self ->
    stored path_of http_method self parent ->
    stored path_of http_method self child ->
    strict_prefix (segments (path_of parent)) (segments (path_of child)) ->
    ~ In "methods" (segments (path_of child)) ->
    HttpMethod.ordered (http_method parent) = true ->
    HttpMethod.ordered (http_method child) = true ->
    exists out,
      list_sorted_samples self = Ok out /\
      (http_method parent <> HttpMethod.delete ->
       precedes (Payload parent) (Payload child) out) /\
      (http_method parent = HttpMethod.delete ->
       precedes (Payload child) (Payload parent) out).
Proof.
  intros self parent child R Sp Sc (r & Hr & E) Hno Op Oc.
  pose proof (reachable_wf _ _ _ _ R) as Hwf.
  exists (dfs self). split; [apply list_sorted_samples_dfs; exact Hwf|].
  unfold stored in Sp, Sc. rewrite E in Sc, Hno.
  destruct (slot_node _ _ _ _ Sp) as (n & Hn & Hown).
  apply (stored_below self n _ r _ _ Hn) in Sc.
  destruct (node_at (segments (path_of parent)) self n Hwf) as
    (Wn & l1 & l2 & Hd); [|exact Hn|].
  { intros Hin. apply Hno. apply in_or_app. left. exact Hin. }
  rewrite Hd. destruct n as [kind items|x]; [|discriminate].
  destruct (node_before_below kind items _ _ r _ _ Wn Hown Sc Hr) as [H1 H2];
    auto.
  { intros Hin. apply Hno. apply in_or_app. right. exact Hin. }
  split; intros Hm; apply precedes_app; auto.
Qed.

Lemma node_around_descendants_witness :
  exists out,
    list_sorted_samples MoreExamples.shop = Ok out /\
    (http_method MoreExamples.delete_items <> HttpMethod.delete ->
     precedes (Payload MoreExamples.delete_items)
       (Payload MoreExamples.get_item) out) /\
    (http_method MoreExamples.delete_items = HttpMethod.delete ->
     precedes (Payload MoreExamples.get_item)
       (Payload MoreExamples.delete_items) out).
Proof.
  apply node_around_descendants.
  - apply reachable_put_all. apply reachable_init.
  - reflexivity.
  - reflexivity.
  - exists ["{id}"]. split; [discriminate|reflexivity].
  - simpl. intuition discriminate.
  - reflexivity.
  - reflexivity.
Defined.

(** X12.  Two stored samples with the same segments are listed in the
    order POST, GET, PUT, DELETE of their methods, whatever the order in
    which they were inserted. *)
Theorem same_path_method_order :
  forall (self : t) (a b : CodeSample),
    reachable self ->
    stored path_of http_method self a ->
    stored path_of http_method self b ->
    segments (path_of a) = segments (path_of b) ->
    ~ In "methods" (segments (path_of a)) ->
    HttpMethod.ordered (http_method a) = true ->
    HttpMethod.ordered (http_method b) = true ->
    method_rank (http_method a) < method_rank (http_method b) ->
    exists out,
      list_sorted_samples self = Ok out /\
      precedes (Payload a) (Payload b) out.
Proof.
  intros self a b R Sa Sb E Hno Oa Ob Hlt.
  pose proof (reachable_wf _ _ _ _ R) as Hwf.
  exists (dfs self). split; [apply list_sorted_samples_dfs; exact Hwf|].
  unfold stored in Sa, Sb. rewrite <- E in Sb.
  destruct (slot_node _ _ _ _ Sa) as (n & Hn & Ha).
  destruct (slot_node _ _ _ _ Sb) as (n' & Hn' & Hb).
  rewrite Hn in Hn'. injection Hn' as <-.
  destruct (node_at (segments (path_of a)) self n Hwf Hno Hn)
    as (Wn & l1 & l2 & Hd).
  rewrite Hd. destruct n as [kind items|x]; [|discriminate].
  apply precedes_app.
  exact (node_method_order kind items _ _ _ _ Ha Hb Oa Ob Hlt).
Qed.

Lemma same_path_method_order_witness :
  exists out,
    list_sorted_samples MoreExamples.shop = Ok out /\
    precedes (Payload Examples.get_items)
      (Payload MoreExamples.delete_items) out.
Proof.
  apply same_path_method_order.
  - apply reachable_put_all. apply reachable_init.
  - reflexivity.
  - reflexivity.
  - reflexivity.
  - simpl. intuition discriminate.
  - reflexivity.
  - reflexivity.
  - simpl. lia.
Defined.

(** X13.  Sub-resources are not interleaved: for any segments [q], the
    listed samples whose segments begin with [q] form one block of the
    list. *)
Theorem subtree_is_one_block :
  forall (self : t) (q : list string),
    reachable self ->
    exists l1 block l2,
      list_sorted_samples self = Ok (l1 ++ block ++ l2) /\
      (forall s, In (Payload s) block ->
                 begins_with (segments (path_of s)) q) /\
      (forall s, In (Payload s) (l1 ++ l2) ->
                 ~ begins_with (segments (path_of s)) q).
Proof.
  intros self q R. pose proof (reachable_wf _ _ _ _ R) as Hwf.
  pose proof (list_sorted_samples_dfs self Hwf) as Hout.
  assert (forall s, In (Payload s) (dfs self) ->
            begins_with (segments (path_of s)) q ->
            ~ In "methods" q /\
            exists n q' , lookup self (map KStr q) = Some n /\
                          segments (path_of s) = q ++ q' /\
                          lookup n (slot q' (http_method s))
                          = Some (Payload s)) as Hbelow.
  { intros s Hin (q' & E).
    destruct (emitted_samples _ _ R Hin) as (s' & [= <-] & S & _ & Hno).
    split; [intros Hq; apply Hno; rewrite E; apply in_or_app; auto|].
    unfold stored in S. rewrite E in S. pose proof S as S'.
    rewrite slot_app, lookup_app in S'.
    destruct (lookup self (map KStr q)) as [n|] eqn:Hn; [|discriminate].
    exists n, q'. auto. }
  destruct (in_dec string_dec "methods" q) as [Hq|Hq].
  { exists (dfs self), [], []. rewrite app_nil_r. split; [exact Hout|].
    split; [intros s []|].
    intros s Hin Hb. rewrite app_nil_r in Hin.
    destruct (Hbelow s Hin Hb) as [Hno _]. contradiction. }
  destruct (lookup self (map KStr q)) as [n|] eqn:Hn.
  - destruct (node_at q self n Hwf Hq Hn) as (Wn & l1 & l2 & Hd).
    exists l1, (dfs n), l2. rewrite <- Hd. split; [exact Hout|].
    assert (forall s, In (Payload s) (dfs n) ->
              begins_with (segments (path_of s)) q) as Hblock.
    { intros s Hin.
      destruct (dfs_in_slot n _ Wn Hin) as (q' & m & _ & _ & Hl).
      apply (stored_below self n q q' m _ Hn) in Hl.
      pose proof (reachable_located _ _ _ _ R _ _ Hl) as L.
      apply slot_inj in L as [L _]. exists q'. congruence. }
    split; [exact Hblock|].
    intros s Hin Hb.
    assert (In (Payload s) (dfs self)) as Hin'.
    { rewrite Hd, !in_app_iff. rewrite in_app_iff in Hin. tauto. }
    destruct (emitted_samples _ _ R Hin') as (s' & [= <-] & S & Hm & Hno).
    destruct Hb as (q' & E). unfold stored in S. rewrite E in S, Hno.
    apply (stored_below self n q q' (http_method s) (Payload s) Hn) in S.
    assert (In (Payload s) (dfs n)) as Hn'.
    { apply (slot_in_dfs q' n (http_method s) _ Wn); auto.
      intros H. apply Hno. apply in_or_app. auto. }
    pose proof (NoDup_dfs self R) as Hnd. rewrite Hd in Hnd.
    exact (NoDup_app_block _ _ _ _ _ Hnd Hn' Hin).
  - exists (dfs self), [], []. rewrite app_nil_r. split; [exact Hout|].
    split; [intros s []|].
    intros s Hin Hb. rewrite app_nil_r in Hin.
    destruct (Hbelow s Hin Hb) as (_ & n & q' & Hn' & _). congruence.
Qed.

Lemma subtree_is_one_block_witness :
  exists l1 block l2,
    list_sorted_samples MoreExamples.shop = Ok (l1 ++ block ++ l2) /\
    (forall s, In (Payload s) block ->
               begins_with (segments (path_of s)) ["python"; "items"]) /\
    (forall s, In (Payload s) (l1 ++ l2) ->
               ~ begins_with (segments (path_of s)) ["python"; "items"]).
Proof.
  apply subtree_is_one_block.
  apply reachable_put_all. apply reachable_init.
Defined.

(** X14.  Whatever a new tree lists after any calls of [put] is one of the
    samples given to [put], and the list is no longer than the number of
    calls. *)
Theorem list_within_what_was_put :
  forall samples : list CodeSample,
    exists out,
      list_sorted_samples (put_all path_of http_method init samples)
      = Ok out /\
      (forall o, In o out -> exists s, o = Payload s /\ In s samples) /\
      length out <= length samples.
Proof.
  intros samples.
  assert (reachable (put_all path_of http_method init samples)) as R
    by (apply reachable_put_all; apply reachable_init).
  pose proof (reachable_wf _ _ _ _ R) as Hwf.
  exists (dfs (put_all path_of http_method init samples)).
  split; [apply list_sorted_samples_dfs; exact Hwf|].
  assert (forall o,
            In o (dfs (put_all path_of http_method init samples)) ->
            exists s, o = Payload s /\ In s samples) as Hin.
  { intros o Ho.
    destruct (emitted_samples _ _ R Ho) as (s & -> & S & _).
    exists s. split; [reflexivity|]. unfold stored in S.
    apply put_all_lookup in S as [S|S]; [exact S|].
    exfalso. exact (lookup_empty _ _ _ _ S). }
  split; [exact Hin|].
  rewrite <- (length_map (@Payload CodeSample) samples).
  apply NoDup_incl_length; [apply NoDup_dfs; exact R|].
  intros o Ho. destruct (Hin o Ho) as (s & -> & Hs).
  apply in_map. exact Hs.
Qed.

End ListProperties.
